(** * EFW dashboard: the order reconciliation and parsing engine

    A shallow embedding of the CSV parsing core of the dashboard
    ([parseCSVData], [parseCSVLine], [cleanClassName]) and of the
    proportional revenue allocation used by the statistics components
    ([lineItemRevenueContribution]).

    Modelling conventions.
    - A JavaScript string is a [string]: a sequence of code units, here
      restricted to the range 0..255 (Latin-1).  [trim], the regular
      expression class [\s] and [toLowerCase] follow ECMAScript on that
      range.
    - A JavaScript number produced by [parseFloat]/[parseInt] is recorded
      as a [number]: [NaN] or the exact rational denoted by the text.  The
      binary64 number the program holds is the rounding of that rational
      ([F64.ofNumber]); the arithmetic of the revenue allocation is
      carried out on binary64 numbers ([F64], over the Standard Library's
      specification [SpecFloat] of IEEE 754).  The sums of the statistics
      cards ([totalRevenue], [totalQuantity]) are kept on [number].
    - [Set<string>] is a [gset string], [Map<string, _>] a [gmap string _].
    - A thrown [Error] is the left injection of a sum.
    - [console.log] calls have no effect on the result and are omitted. *)

From Stdlib Require Import Ascii String ZArith QArith Qpower Lia Lqa SpecFloat.
From stdpp Require Import base option list gmap strings.

Local Close Scope Q_scope.
Local Open Scope stdpp_scope.

(** ** Characters and strings *)

Module Char.

Definition code (c : ascii) : nat := nat_of_ascii c.

(** [\s], and the characters removed by [String.prototype.trim]. *)
Definition isWhite (c : ascii) : bool :=
  let n := code c in
  ((9 <=? n) && (n <=? 13)) || (n =? 32) || (n =? 160).

(** [\d] *)
Definition isDigit (c : ascii) : bool :=
  let n := code c in (48 <=? n) && (n <=? 57).

(** The class [[0-9.-]] kept by [replace(/[^0-9.-]/g, '')]. *)
Definition isNumeric (c : ascii) : bool :=
  isDigit c || Ascii.eqb c "." || Ascii.eqb c "-".

Definition isUpper (c : ascii) : bool :=
  let n := code c in
  ((65 <=? n) && (n <=? 90)) ||
  ((192 <=? n) && (n <=? 222) && negb (n =? 215)).

Definition toLowerCase (c : ascii) : ascii :=
  if isUpper c then ascii_of_nat (code c + 32) else c.

Definition digitValue (c : ascii) : Z := Z.of_nat (code c - 48).

End Char.

Module Str.

Definition isEmpty (s : string) : bool :=
  match s with EmptyString => true | String _ _ => false end.

(** JavaScript's [a || b] on strings: the empty string is falsy. *)
Definition orElse (a b : string) : string :=
  if isEmpty a then b else a.

Fixpoint toLowerCase (s : string) : string :=
  match s with
  | EmptyString => EmptyString
  | String c r => String (Char.toLowerCase c) (toLowerCase r)
  end.

Fixpoint trimStart (s : string) : string :=
  match s with
  | EmptyString => EmptyString
  | String c r => if Char.isWhite c then trimStart r else s
  end.

Fixpoint trimEnd (s : string) : string :=
  match s with
  | EmptyString => EmptyString
  | String c r =>
      let r' := trimEnd r in
      if Char.isWhite c && isEmpty r' then EmptyString else String c r'
  end.

Definition trim (s : string) : string := trimEnd (trimStart s).

Fixpoint startsWith (s p : string) : bool :=
  match p, s with
  | EmptyString, _ => true
  | String _ _, EmptyString => false
  | String a p', String b s' => Ascii.eqb a b && startsWith s' p'
  end.

(** [s.includes(sub)] *)
Fixpoint includes (s sub : string) : bool :=
  startsWith s sub ||
  match s with
  | EmptyString => false
  | String _ r => includes r sub
  end.

Fixpoint all (p : ascii -> bool) (s : string) : bool :=
  match s with
  | EmptyString => true
  | String c r => p c && all p r
  end.

Fixpoint filter (p : ascii -> bool) (s : string) : string :=
  match s with
  | EmptyString => EmptyString
  | String c r => if p c then String c (filter p r) else filter p r
  end.

(** Longest prefix of characters in a class, and the rest. *)
Fixpoint span (p : ascii -> bool) (s : string) : string * string :=
  match s with
  | EmptyString => (EmptyString, EmptyString)
  | String c r =>
      if p c then let '(a, b) := span p r in (String c a, b)
      else (EmptyString, s)
  end.

Fixpoint dropWhile (p : ascii -> bool) (s : string) : string :=
  match s with
  | EmptyString => EmptyString
  | String c r => if p c then dropWhile p r else s
  end.

(** [s.split(sep)] for a non-empty literal separator: [cur] is the part
    being accumulated; [skip] counts the characters of a separator just
    matched that are still to be passed over. *)
Fixpoint splitGo (sep : string) (skip : nat) (cur s : string)
  : list string :=
  match s with
  | EmptyString => [cur]
  | String c r =>
      match skip with
      | S k => splitGo sep k cur r
      | O =>
          if startsWith s sep
          then cur :: splitGo sep (String.length sep - 1) EmptyString r
          else splitGo sep 0 (cur +:+ String c EmptyString) r
      end
  end.

Definition split (sep s : string) : list string :=
  splitGo sep 0 EmptyString s.

End Str.

(** ** Line tokenizer *)

Definition quoteChar : ascii := ascii_of_nat 34.
Definition commaChar : ascii := ascii_of_nat 44.

(** The [for] loop of [parseCSVLine]; [line] is the part of the line from
    index [i] on. *)
Fixpoint parseCSVLine_loop (line : string) (result : list string)
  (current : string) (inQuotes : bool) : list string :=
  match line with
  | EmptyString => result ++ [current]
  | String char rest =>
      if Ascii.eqb char quoteChar then
        match inQuotes, rest with
        | true, String nextChar rest' =>
            if Ascii.eqb nextChar quoteChar
            then parseCSVLine_loop rest' result
                   (current +:+ String quoteChar EmptyString) inQuotes
            else parseCSVLine_loop rest result current (negb inQuotes)
        | _, _ => parseCSVLine_loop rest result current (negb inQuotes)
        end
      else if Ascii.eqb char commaChar && negb inQuotes then
        parseCSVLine_loop rest (result ++ [current]) EmptyString inQuotes
      else
        parseCSVLine_loop rest result
          (current +:+ String char EmptyString) inQuotes
  end.

Definition parseCSVLine (line : string) : list string :=
  parseCSVLine_loop line [] EmptyString false.

(** ** Numbers *)

Inductive number : Type :=
| NaN
| Num (q : Q).

Module Number.

Definition zero : number := Num 0%Q.

Definition add (x y : number) : number :=
  match x, y with
  | Num a, Num b => Num (a + b)%Q
  | _, _ => NaN
  end.

(** Equality of numbers as values; [NaN] is only related to itself here
    (this is the meta-level identity of results, not JavaScript's [===]). *)
Definition eqv (x y : number) : Prop :=
  match x, y with
  | NaN, NaN => True
  | Num a, Num b => (a == b)%Q
  | _, _ => False
  end.

Fixpoint digitsValue (acc : Z) (s : string) : Z :=
  match s with
  | EmptyString => acc
  | String c r => digitsValue (10 * acc + Char.digitValue c) r
  end.

Definition applySign (neg : bool) (q : Q) : Q := if neg then (- q)%Q else q.

(** [parseFloat] on the strings the parser hands to it: those made of
    characters of [[0-9.-]] only (the result of the [replace], or the
    literal ['0']).  It reads the longest prefix of the form
    [-? digits (. digits?)?] or [-? . digits] and returns [NaN] when
    there is none. *)
Definition parseFloat (s : string) : number :=
  let '(neg, r) :=
    match s with
    | String "-" r => (true, r)
    | _ => (false, s)
    end in
  let '(ip, r1) := Str.span Char.isDigit r in
  let fp :=
    match r1 with
    | String "." r2 => fst (Str.span Char.isDigit r2)
    | _ => EmptyString
    end in
  if Str.isEmpty ip && Str.isEmpty fp then NaN
  else Num (applySign neg
              (Qmake (digitsValue 0 (ip +:+ fp))
                     (Z.to_pos (10 ^ Z.of_nat (String.length fp))))).

(** [parseInt(s, 10)]: leading white space, an optional sign, then the
    longest run of decimal digits; [NaN] when that run is empty. *)
Definition parseInt (s : string) : number :=
  let s := Str.trimStart s in
  let '(neg, r) :=
    match s with
    | String "-" r => (true, r)
    | String "+" r => (false, r)
    | _ => (false, s)
    end in
  let ds := fst (Str.span Char.isDigit r) in
  if Str.isEmpty ds then NaN
  else Num (applySign neg (inject_Z (digitsValue 0 ds))).

End Number.

(** ** Data model *)

Record ParsedOrder : Type := mkParsedOrder {
  orderId : string;
  customerName : string;
  customerEmail : string;
  customerPhone : string;
  status : string;
  sourceName : string;
  orderDate : string;
  orderTime : string;
  className : string;
  quantity : number;
  price : number;
  lineItemSubtotal : number;
  orderSubTotal : number;
  orderTaxAmount : number;
  orderTotalAmount : number
}.

(** The value type of the [orderTotals] map. *)
Record OrderSnapshot : Type := mkOrderSnapshot {
  snapSubTotal : number;
  snapTaxAmount : number;
  snapTotalAmount : number;
  snapSourceName : string
}.

(** The city filter, ['dc' | 'atlanta']. *)
Inductive City : Type := dc | atlanta.

(** [new Error(`Column "${header}" not found in CSV`)] *)
Inductive ParseError : Type :=
| ColumnNotFound (header : string).

Definition errorMessage (e : ParseError) : string :=
  match e with
  | ColumnNotFound header =>
      "Column " +:+ String quoteChar header
        +:+ String quoteChar " not found in CSV"
  end.

(** The [indices] object: one column position per logical field. *)
Record ColumnIndices : Type := mkColumnIndices {
  iOrderId : nat;
  iCustomerName : nat;
  iCustomerEmail : nat;
  iCustomerPhone : nat;
  iStatus : nat;
  iSourceName : nat;
  iOrderDate : nat;
  iOrderTime : nat;
  iClassName : nat;
  iQuantity : nat;
  iPrice : nat;
  iLineItemSubtotal : nat;
  iOrderSubTotal : nat;
  iOrderTaxAmount : nat;
  iOrderTotalAmount : nat
}.

(** [Object.values(indices)] *)
Definition indexValues (ix : ColumnIndices) : list nat :=
  [ iOrderId ix; iCustomerName ix; iCustomerEmail ix; iCustomerPhone ix;
    iStatus ix; iSourceName ix; iOrderDate ix; iOrderTime ix;
    iClassName ix; iQuantity ix; iPrice ix; iLineItemSubtotal ix;
    iOrderSubTotal ix; iOrderTaxAmount ix; iOrderTotalAmount ix ].

(** [Math.max(...Object.values(indices)) + 1] *)
Definition requiredLength (ix : ColumnIndices) : nat :=
  foldr Nat.max 0 (indexValues ix) + 1.

(** ** Schema resolution *)

(** [list.findIndex(p)], with [None] for [-1]. *)
Fixpoint findIndex {A : Type} (p : A -> bool) (l : list A) : option nat :=
  match l with
  | [] => None
  | x :: r => if p x then Some 0 else S <$> findIndex p r
  end.

(** The predicate of [getColumnIndex]:
    [h.toLowerCase().includes(header.toLowerCase())]. *)
Definition headerMatches (header h : string) : bool :=
  Str.includes (Str.toLowerCase h) (Str.toLowerCase header).

Definition getColumnIndex (headers : list string) (header : string)
  : ParseError + nat :=
  match findIndex (headerMatches header) headers with
  | None => inl (ColumnNotFound header)
  | Some index => inr index
  end.

(** Sequencing of computations that may throw. *)
#[global] Instance throw_bind : MBind (sum ParseError) :=
  fun A B k m =>
    match m with
    | inl e => inl e
    | inr a => k a
    end.

(** The labels looked up by the [indices] object literal, in evaluation
    order. *)
Definition requiredLabels : list string :=
  [ "Internal order id"; "Customer name"; "Customer email";
    "Customer phone"; "Status"; "Source name"; "Order date"; "Order time";
    "Line item Name"; "Line item Quantity"; "Line item Price";
    "Line item Subtotal"; "Sub total"; "Tax Amount"; "Total Amount" ].

Definition resolveIndices (headers : list string)
  : ParseError + ColumnIndices :=
  a1 ← getColumnIndex headers "Internal order id";
  a2 ← getColumnIndex headers "Customer name";
  a3 ← getColumnIndex headers "Customer email";
  a4 ← getColumnIndex headers "Customer phone";
  a5 ← getColumnIndex headers "Status";
  a6 ← getColumnIndex headers "Source name";
  a7 ← getColumnIndex headers "Order date";
  a8 ← getColumnIndex headers "Order time";
  a9 ← getColumnIndex headers "Line item Name";
  a10 ← getColumnIndex headers "Line item Quantity";
  a11 ← getColumnIndex headers "Line item Price";
  a12 ← getColumnIndex headers "Line item Subtotal";
  a13 ← getColumnIndex headers "Sub total";
  a14 ← getColumnIndex headers "Tax Amount";
  a15 ← getColumnIndex headers "Total Amount";
  inr (mkColumnIndices a1 a2 a3 a4 a5 a6 a7 a8 a9 a10 a11 a12 a13 a14 a15).

(** ** Reading cells of a row *)

(** [values[i]?.trim() || ''] *)
Definition cell (values : list string) (i : nat) : string :=
  match values !! i with
  | Some v => Str.orElse (Str.trim v) EmptyString
  | None => EmptyString
  end.

(** [parseFloat(values[i]?.replace(/[^0-9.-]/g, '') || '0')] *)
Definition money (values : list string) (i : nat) : number :=
  Number.parseFloat
    (Str.orElse
       (match values !! i with
        | Some v => Str.filter Char.isNumeric v
        | None => EmptyString
        end) "0").

(** [parseInt(values[i] || '0', 10)] *)
Definition count (values : list string) (i : nat) : number :=
  Number.parseInt
    (Str.orElse (default EmptyString (values !! i)) "0").

(** [values.length < Math.max(...Object.values(indices)) + 1] *)
Definition isShort (ix : ColumnIndices) (values : list string) : bool :=
  length values <? requiredLength ix.

(** ** Pass 1: qualification *)

Definition labelDC : string := "Ebony Fit Weekend - DC".
Definition labelAtlanta : string := "Ebony Fit Weekend - Atlanta".

(** [filterCity ? `Ebony Fit Weekend - ${...}` : null] *)
Definition targetSourceOf (filterCity : option City) : option string :=
  match filterCity with
  | Some c =>
      Some ("Ebony Fit Weekend - " +:+
              match c with dc => "DC" | atlanta => "Atlanta" end)
  | None => None
  end.

Definition isValidSource (targetSource : option string) (sourceName : string)
  : bool :=
  match targetSource with
  | Some t => String.eqb sourceName t
  | None => String.eqb sourceName labelDC || String.eqb sourceName labelAtlanta
  end.

Definition snapshotOf (ix : ColumnIndices) (values : list string)
  (sourceName : string) : OrderSnapshot :=
  {| snapSubTotal := money values (iOrderSubTotal ix);
     snapTaxAmount := money values (iOrderTaxAmount ix);
     snapTotalAmount := money values (iOrderTotalAmount ix);
     snapSourceName := sourceName |}.

(** The state threaded through the first loop. *)
Record Pass1State : Type := mkPass1State {
  validOrderIds : gset string;
  orderTotals : gmap string OrderSnapshot
}.

Definition pass1Init : Pass1State :=
  {| validOrderIds := ∅; orderTotals := ∅ |}.

(** One iteration of the first loop, on the text of line [i]. *)
Definition pass1Step (ix : ColumnIndices) (targetSource : option string)
  (st : Pass1State) (line : string) : Pass1State :=
  let values := parseCSVLine line in
  if isShort ix values then st else
  let orderId := cell values (iOrderId ix) in
  let sourceName := cell values (iSourceName ix) in
  let status := cell values (iStatus ix) in
  if Str.isEmpty orderId || Str.isEmpty sourceName then st else
  if isValidSource targetSource sourceName
     && String.eqb (Str.toLowerCase status) "completed"
     && negb (Str.isEmpty orderId)
  then
    {| validOrderIds := {[ orderId ]} ∪ validOrderIds st;
       orderTotals :=
         match orderTotals st !! orderId with
         | Some _ => orderTotals st
         | None =>
             <[ orderId := snapshotOf ix values sourceName ]> (orderTotals st)
         end |}
  else st.

Definition pass1 (ix : ColumnIndices) (targetSource : option string)
  (dataLines : list string) : Pass1State :=
  fold_left (pass1Step ix targetSource) dataLines pass1Init.

(** ** Pass 2: emission *)

(** The inner loop over [j]: the tokenized first data line that is long
    enough, carries [orderId] and has a customer name. *)
Fixpoint findMainRow (ix : ColumnIndices) (orderId : string)
  (dataLines : list string) : option (list string) :=
  match dataLines with
  | [] => None
  | line :: rest =>
      let mainValues := parseCSVLine line in
      if isShort ix mainValues then findMainRow ix orderId rest else
      let mainOrderId := cell mainValues (iOrderId ix) in
      let mainCustomerName := cell mainValues (iCustomerName ix) in
      if String.eqb mainOrderId orderId && negb (Str.isEmpty mainCustomerName)
      then Some mainValues
      else findMainRow ix orderId rest
  end.

(** The customer fields after the fallback, in the order
    (name, email, phone, status, date, time). *)
Record Identity : Type := mkIdentity {
  idName : string;
  idEmail : string;
  idPhone : string;
  idStatus : string;
  idDate : string;
  idTime : string
}.

Definition ownIdentity (ix : ColumnIndices) (values : list string)
  : Identity :=
  {| idName := cell values (iCustomerName ix);
     idEmail := cell values (iCustomerEmail ix);
     idPhone := cell values (iCustomerPhone ix);
     idStatus := cell values (iStatus ix);
     idDate := cell values (iOrderDate ix);
     idTime := cell values (iOrderTime ix) |}.

Definition resolveIdentity (ix : ColumnIndices) (dataLines : list string)
  (orderId : string) (values : list string) : Identity :=
  let own := ownIdentity ix values in
  if Str.isEmpty (idName own) || Str.isEmpty (idEmail own) then
    match findMainRow ix orderId dataLines with
    | Some mainValues =>
        {| idName := cell mainValues (iCustomerName ix);
           idEmail :=
             Str.orElse (cell mainValues (iCustomerEmail ix)) (idEmail own);
           idPhone := cell mainValues (iCustomerPhone ix);
           idStatus := cell mainValues (iStatus ix);
           idDate := cell mainValues (iOrderDate ix);
           idTime := cell mainValues (iOrderTime ix) |}
    | None => own
    end
  else own.

(** ** Class-name canonicalizer *)

Definition atChar : ascii := ascii_of_nat 64.

(** The part [\s*\d+\s*$] of the expression, matched at the start of [r]. *)
Definition annotationTail (r : string) : bool :=
  let '(ds, r') := Str.span Char.isDigit (Str.dropWhile Char.isWhite r) in
  negb (Str.isEmpty ds) && Str.isEmpty (Str.dropWhile Char.isWhite r').

(** The regular expression [\s*@\s*\d+\s*$] matched at the start of [s].
    The classes [\s], [@] and [\d] are disjoint, so the greedy match is the
    only one to try. *)
Definition annotationAt (s : string) : bool :=
  match Str.dropWhile Char.isWhite s with
  | String c r => Ascii.eqb c atChar && annotationTail r
  | EmptyString => false
  end.

(** [s.replace(/\s*@\s*\d+\s*$/, '')]: the leftmost position at which the
    expression matches is cut, together with everything after it. *)
Fixpoint stripAnnotation (s : string) : string :=
  if annotationAt s then EmptyString
  else
    match s with
    | EmptyString => EmptyString
    | String c r => String c (stripAnnotation r)
    end.

Definition dashSep : string := " - ".

Definition cleanClassName (className : string) : string :=
  let cleaned := stripAnnotation className in
  let parts := Str.split dashSep cleaned in
  let cleaned' :=
    match parts with
    | [p0; p1] =>
        if String.eqb (Str.toLowerCase (Str.trim p0))
                      (Str.toLowerCase (Str.trim p1))
        then Str.trim p0
        else cleaned
    | [p0; p1; p2; p3] =>
        let firstHalf := Str.trim p0 +:+ dashSep +:+ Str.trim p1 in
        let secondHalf := Str.trim p2 +:+ dashSep +:+ Str.trim p3 in
        if String.eqb (Str.toLowerCase firstHalf) (Str.toLowerCase secondHalf)
        then firstHalf
        else cleaned
    | _ => cleaned
    end in
  Str.trim cleaned'.

(** ** Pass 2, continued, and the parser *)

(** One iteration of the second loop: the record pushed for this line, if
    any. *)
Definition pass2Row (ix : ColumnIndices) (st : Pass1State)
  (dataLines : list string) (line : string) : option ParsedOrder :=
  let values := parseCSVLine line in
  if isShort ix values then None else
  let oid := cell values (iOrderId ix) in
  if Str.isEmpty oid || negb (bool_decide (oid ∈ validOrderIds st))
  then None else
  let cls := cell values (iClassName ix) in
  if Str.isEmpty cls then None else
  match orderTotals st !! oid with
  | None => None
  | Some orderData =>
      let who := resolveIdentity ix dataLines oid values in
      if Str.isEmpty (idName who) || Str.isEmpty (idEmail who) then None
      else
        Some {| orderId := oid;
                customerName := idName who;
                customerEmail := idEmail who;
                customerPhone := idPhone who;
                status := idStatus who;
                sourceName := snapSourceName orderData;
                orderDate := idDate who;
                orderTime := idTime who;
                className := cleanClassName cls;
                quantity := count values (iQuantity ix);
                price := money values (iPrice ix);
                lineItemSubtotal := money values (iLineItemSubtotal ix);
                orderSubTotal := snapSubTotal orderData;
                orderTaxAmount := snapTaxAmount orderData;
                orderTotalAmount := snapTotalAmount orderData |}
  end.

Definition pass2 (ix : ColumnIndices) (st : Pass1State)
  (dataLines : list string) : list ParsedOrder :=
  omap (pass2Row ix st dataLines) dataLines.

Definition newline : string := String (ascii_of_nat 10) EmptyString.

(** [csvText.trim().split('\n')] *)
Definition linesOf (csvText : string) : list string :=
  Str.split newline (Str.trim csvText).

Definition headersOf (csvText : string) : list string :=
  parseCSVLine (hd EmptyString (linesOf csvText)).

(** The lines with index [1] and up. *)
Definition dataLinesOf (csvText : string) : list string :=
  tl (linesOf csvText).

Definition parseCSVData (csvText : string) (filterCity : option City)
  : ParseError + list ParsedOrder :=
  indices ← resolveIndices (headersOf csvText);
  let targetSource := targetSourceOf filterCity in
  let dataLines := dataLinesOf csvText in
  let st := pass1 indices targetSource dataLines in
  inr (pass2 indices st dataLines).

(** ** Predicates used in the statements *)

Definition isQuote (c : ascii) : bool := Ascii.eqb c quoteChar.

(** No quote character occurs in [s]. *)
Definition noQuote (s : string) : bool :=
  Str.all (fun c => negb (isQuote c)) s.

Definition startsWithQuote (s : string) : bool :=
  match s with
  | String c _ => isQuote c
  | EmptyString => false
  end.

Definition quote1 : string := String quoteChar EmptyString.
Definition comma1 : string := String commaChar EmptyString.
Definition at1 : string := String atChar EmptyString.

(** A capacity annotation: optional white space, [@], optional white
    space, one or more digits, optional white space. *)
Definition Annotation (t : string) : Prop :=
  exists w1 w2 ds w3 : string,
    t = w1 +:+ at1 +:+ w2 +:+ ds +:+ w3
    /\ Str.all Char.isWhite w1 = true
    /\ Str.all Char.isWhite w2 = true
    /\ Str.all Char.isDigit ds = true
    /\ ds <> EmptyString
    /\ Str.all Char.isWhite w3 = true.

(** Equality up to case. *)
Definition eqIgnoreCase (a b : string) : bool :=
  String.eqb (Str.toLowerCase a) (Str.toLowerCase b).

(** The two shapes [cleanClassName] collapses, read on the list of parts. *)
Definition collapsible (parts : list string) : bool :=
  match parts with
  | [p0; p1] => eqIgnoreCase (Str.trim p0) (Str.trim p1)
  | [p0; p1; p2; p3] =>
      eqIgnoreCase (Str.trim p0 +:+ dashSep +:+ Str.trim p1)
                   (Str.trim p2 +:+ dashSep +:+ Str.trim p3)
  | _ => false
  end.

(** No [@] occurs in [s]. *)
Definition noAt (s : string) : bool :=
  Str.all (fun c => negb (Ascii.eqb c atChar)) s.

(** No header field matches [label]. *)
Definition missing (headers : list string) (label : string) : bool :=
  negb (existsb (headerMatches label) headers).

(** The first required label, in evaluation order, that no header field
    matches. *)
Definition firstMissing (headers : list string) : option string :=
  List.find (missing headers) requiredLabels.

(** The three cells the first loop reads. *)
Definition rowOrderId (ix : ColumnIndices) (values : list string) : string :=
  cell values (iOrderId ix).
Definition rowSource (ix : ColumnIndices) (values : list string) : string :=
  cell values (iSourceName ix).
Definition rowStatus (ix : ColumnIndices) (values : list string) : string :=
  cell values (iStatus ix).

(** The conjunction of the tests an iteration of the first loop passes
    before it records the order: the row is long enough, has an order id
    and a source name, and satisfies the final [if]. *)
Definition qualifies (ix : ColumnIndices) (targetSource : option string)
  (values : list string) : bool :=
  negb (isShort ix values)
  && negb (Str.isEmpty (rowOrderId ix values)
           || Str.isEmpty (rowSource ix values))
  && (isValidSource targetSource (rowSource ix values)
      && String.eqb (Str.toLowerCase (rowStatus ix values)) "completed"
      && negb (Str.isEmpty (rowOrderId ix values))).

(** The line tokenizes to a qualifying row with order id [oid]. *)
Definition qualifiesFor (ix : ColumnIndices) (targetSource : option string)
  (oid : string) (line : string) : bool :=
  qualifies ix targetSource (parseCSVLine line)
  && String.eqb (rowOrderId ix (parseCSVLine line)) oid.

(** The snapshot a qualifying line gives rise to. *)
Definition snapshotOfLine (ix : ColumnIndices) (line : string)
  : OrderSnapshot :=
  snapshotOf ix (parseCSVLine line) (rowSource ix (parseCSVLine line)).

(** The snapshot of the first line, in input order, that qualifies with
    order id [oid]. *)
Definition firstQualifying (ix : ColumnIndices) (targetSource : option string)
  (oid : string) (dataLines : list string) : option OrderSnapshot :=
  snapshotOfLine ix <$> List.find (qualifiesFor ix targetSource oid) dataLines.

(** The test of the inner loop of the second pass. *)
Definition isMainRowFor (ix : ColumnIndices) (oid : string) (line : string)
  : bool :=
  negb (isShort ix (parseCSVLine line))
  && (String.eqb (rowOrderId ix (parseCSVLine line)) oid
      && negb (Str.isEmpty (cell (parseCSVLine line) (iCustomerName ix)))).

(** The source condition of the qualification rule. *)
Definition sourceOk (targetSource : option string) (source : string) : Prop :=
  match targetSource with
  | Some t => source = t
  | None => source = labelDC \/ source = labelAtlanta
  end.

(** The records of [orders] that carry order id [oid]. *)
Definition itemsOf (oid : string) (orders : list ParsedOrder)
  : list ParsedOrder :=
  List.filter (fun o => String.eqb (orderId o) oid) orders.

(** The exact sum of the line-item subtotals of a list of records, as
    written in their cells (a quantity of the statements, not one the
    program computes). *)
Definition totalLineSubtotal (orders : list ParsedOrder) : number :=
  fold_left (fun acc o => Number.add acc (lineItemSubtotal o))
    orders Number.zero.

(** The source label a city filter stands for. *)
Definition cityLabel (c : City) : string :=
  match c with
  | dc => labelDC
  | atlanta => labelAtlanta
  end.

(** The record the second loop builds from a row, its order snapshot and
    the resolved customer fields. *)
Definition recordOf (ix : ColumnIndices) (values : list string)
  (orderData : OrderSnapshot) (who : Identity) : ParsedOrder :=
  {| orderId := rowOrderId ix values;
     customerName := idName who;
     customerEmail := idEmail who;
     customerPhone := idPhone who;
     status := idStatus who;
     sourceName := snapSourceName orderData;
     orderDate := idDate who;
     orderTime := idTime who;
     className := cleanClassName (cell values (iClassName ix));
     quantity := count values (iQuantity ix);
     price := money values (iPrice ix);
     lineItemSubtotal := money values (iLineItemSubtotal ix);
     orderSubTotal := snapSubTotal orderData;
     orderTaxAmount := snapTaxAmount orderData;
     orderTotalAmount := snapTotalAmount orderData |}.

(** ** Sample inputs *)

Definition sampleHeader : string :=
  "Internal order id,Customer name,Customer email,Customer phone,Status,Source name,Order date,Order time,Line item Name,Line item Quantity,Line item Price,Line item Subtotal,Sub total,Tax Amount,Total Amount".

(** A text made of the sample header and the given data lines. *)
Definition csvOf (dataLines : list string) : string :=
  foldl (fun acc line => acc +:+ newline +:+ line) sampleHeader dataLines.

(** The schema the sample header resolves to. *)
Definition sampleIndices : ColumnIndices :=
  mkColumnIndices 0 1 2 3 4 5 6 7 8 9 10 11 12 13 14.

(** A complete, completed DC row of order 1. *)
Definition rowDC : string :=
  "1,Bob,b@x.org,555,Completed,Ebony Fit Weekend - DC,2025-01-01,10:00,SPIN CLASS,1,$10.00,$10.00,$20.00,$2.00,$22.00".

(** A second row of order 1 with other order-level amounts. *)
Definition rowDCAgain : string :=
  "1,,,,completed,Ebony Fit Weekend - DC,,,YOGA,1,$10.00,$10.00,$99.00,$9.00,$108.00".

(** A row of order 1 labelled with the other city. *)
Definition rowAtlanta : string :=
  "1,Bob,b@x.org,555,Completed,Ebony Fit Weekend - Atlanta,2025-01-01,10:00,YOGA,1,$10.00,$10.00,$20.00,$2.00,$22.00".

(** A continuation row of order 1: only the line-item cells are filled. *)
Definition rowContinuation : string :=
  "1,,,,,,,,YOGA,1,$10.00,$10.00,,,".

(** A row with too few cells. *)
Definition rowShort : string :=
  "7,Bob,b@x.org,555,completed,Ebony Fit Weekend - DC".

(** A complete row without an order id. *)
Definition rowNoId : string :=
  ",Bob,b@x.org,555,completed,Ebony Fit Weekend - DC,2025-01-01,10:00,SPIN CLASS,1,$10.00,$10.00,$20.00,$2.00,$22.00".

(** A complete, completed row of another event. *)
Definition rowHouston : string :=
  "5,Eve,e@x.org,555,Completed,Ebony Fit Weekend - Houston,2025-01-01,10:00,SPIN CLASS,1,$10.00,$10.00,$10.00,$1.00,$11.00".

(** A primary row of order 1 with a customer name and no email. *)
Definition rowNameOnly : string :=
  "1,Bob,,555,Completed,Ebony Fit Weekend - DC,2025-01-01,10:00,SPIN CLASS,1,$10.00,$10.00,$20.00,$2.00,$22.00".

(** A later row of order 1 with an email and no customer name. *)
Definition rowEmailOnly : string :=
  "1,,b@x.org,777,,,2025-02-02,11:00,YOGA,1,$10.00,$10.00,,,".

(** A single-line order without subtotal but with tax. *)
Definition rowZeroSub : string :=
  "2,Ann,a@x.org,555,Completed,Ebony Fit Weekend - DC,2025-01-01,10:00,FREE CLASS,1,$0.00,$0.00,$0.00,$5.00,$5.00".

(** Two lines of order 3 whose subtotals add up to the order subtotal. *)
Definition rowSplitA : string :=
  "3,Cy,c@x.org,555,Completed,Ebony Fit Weekend - DC,2025-01-01,10:00,SPIN CLASS,1,$30.00,$30.00,$40.00,$4.00,$44.00".
Definition rowSplitB : string :=
  "3,,,,,,,,YOGA,1,$10.00,$10.00,,,".

(** The two records the parser emits for order 3. *)
Definition splitRecordA : ParsedOrder :=
  {| orderId := "3";
     customerName := "Cy";
     customerEmail := "c@x.org";
     customerPhone := "555";
     status := "Completed";
     sourceName := "Ebony Fit Weekend - DC";
     orderDate := "2025-01-01";
     orderTime := "10:00";
     className := "SPIN CLASS";
     quantity := Num (inject_Z 1);
     price := Num (3000 # 100);
     lineItemSubtotal := Num (3000 # 100);
     orderSubTotal := Num (4000 # 100);
     orderTaxAmount := Num (400 # 100);
     orderTotalAmount := Num (4400 # 100) |}.

Definition splitRecordB : ParsedOrder :=
  {| orderId := "3";
     customerName := "Cy";
     customerEmail := "c@x.org";
     customerPhone := "555";
     status := "Completed";
     sourceName := "Ebony Fit Weekend - DC";
     orderDate := "2025-01-01";
     orderTime := "10:00";
     className := "YOGA";
     quantity := Num (inject_Z 1);
     price := Num (1000 # 100);
     lineItemSubtotal := Num (1000 # 100);
     orderSubTotal := Num (4000 # 100);
     orderTaxAmount := Num (400 # 100);
     orderTotalAmount := Num (4400 # 100) |}.

(** The two records the parser emits for [rowDC] followed by
    [rowDCAgain]. *)
Definition dcRecord : ParsedOrder :=
  {| orderId := "1";
     customerName := "Bob";
     customerEmail := "b@x.org";
     customerPhone := "555";
     status := "Completed";
     sourceName := "Ebony Fit Weekend - DC";
     orderDate := "2025-01-01";
     orderTime := "10:00";
     className := "SPIN CLASS";
     quantity := Num (inject_Z 1);
     price := Num (1000 # 100);
     lineItemSubtotal := Num (1000 # 100);
     orderSubTotal := Num (2000 # 100);
     orderTaxAmount := Num (200 # 100);
     orderTotalAmount := Num (2200 # 100) |}.

Definition dcAgainRecord : ParsedOrder :=
  {| orderId := "1";
     customerName := "Bob";
     customerEmail := "b@x.org";
     customerPhone := "555";
     status := "Completed";
     sourceName := "Ebony Fit Weekend - DC";
     orderDate := "2025-01-01";
     orderTime := "10:00";
     className := "YOGA";
     quantity := Num (inject_Z 1);
     price := Num (1000 # 100);
     lineItemSubtotal := Num (1000 # 100);
     orderSubTotal := Num (2000 # 100);
     orderTaxAmount := Num (200 # 100);
     orderTotalAmount := Num (2200 # 100) |}.

(** A complete, completed DC row whose quantity cell is a single space. *)
Definition rowBlankQuantity : string :=
  "9,Eve,e@x.org,555,Completed,Ebony Fit Weekend - DC,2025-01-01,10:00,SPIN CLASS, ,$10.00,$10.00,$10.00,$1.00,$11.00".

(** An order whose two line subtotals, one of them negative, add up to
    the order subtotal 1; the tax is 1. *)
Definition rowCancelA : string :=
  "4,Dee,d@x.org,555,Completed,Ebony Fit Weekend - DC,2025-01-01,10:00,SPIN CLASS,1,1,9007199254740993,1,1,2".

Definition rowCancelB : string :=
  "4,,,,,,,,YOGA,1,1,-9007199254740992,,,".

(** [n] zeros. *)
Definition zeros (n : nat) : string :=
  String.concat EmptyString (repeat "0" n).

(** A single-line order whose line subtotal and order subtotal are both
    10^309, beyond the largest binary64 number; the tax is 1. *)
Definition rowHuge : string :=
  "5,Eli,e@x.org,555,Completed,Ebony Fit Weekend - DC,2025-01-01,10:00,SPIN CLASS,1,1,1"
  +:+ zeros 309 +:+ ",1" +:+ zeros 309 +:+ ",1,1".

(** An order of two lines of 2.5e-324 each, with order subtotal 5e-324
    and tax 1. *)
Definition rowTinyA : string :=
  "6,Fay,f@x.org,555,Completed,Ebony Fit Weekend - DC,2025-01-01,10:00,SPIN CLASS,1,1,0."
  +:+ zeros 323 +:+ "25,0." +:+ zeros 323 +:+ "5,1,1".

Definition rowTinyB : string :=
  "6,,,,,,,,YOGA,1,1,0." +:+ zeros 323 +:+ "25,,,".

(** An order of ten lines of 1 each, with order subtotal 10 and tax 1. *)
Definition rowTenA : string :=
  "8,Gus,g@x.org,555,Completed,Ebony Fit Weekend - DC,2025-01-01,10:00,SPIN CLASS,1,1,1,10,1,11".

Definition rowTenB : string := "8,,,,,,,,YOGA,1,1,1,,,".

(** The records the parser emits for [rowTenA] and for each [rowTenB]
    that follows it. *)
Definition tenRecordA : ParsedOrder :=
  {| orderId := "8";
     customerName := "Gus";
     customerEmail := "g@x.org";
     customerPhone := "555";
     status := "Completed";
     sourceName := "Ebony Fit Weekend - DC";
     orderDate := "2025-01-01";
     orderTime := "10:00";
     className := "SPIN CLASS";
     quantity := Num (inject_Z 1);
     price := Num (1 # 1);
     lineItemSubtotal := Num (1 # 1);
     orderSubTotal := Num (10 # 1);
     orderTaxAmount := Num (1 # 1);
     orderTotalAmount := Num (11 # 1) |}.

Definition tenRecordB : ParsedOrder :=
  {| orderId := "8";
     customerName := "Gus";
     customerEmail := "g@x.org";
     customerPhone := "555";
     status := "Completed";
     sourceName := "Ebony Fit Weekend - DC";
     orderDate := "2025-01-01";
     orderTime := "10:00";
     className := "YOGA";
     quantity := Num (inject_Z 1);
     price := Num (1 # 1);
     lineItemSubtotal := Num (1 # 1);
     orderSubTotal := Num (10 # 1);
     orderTaxAmount := Num (1 # 1);
     orderTotalAmount := Num (11 # 1) |}.


(** ** Encodings used to state tokenizer round trips *)

(** [parts.join(sep)] *)
Fixpoint join (sep : string) (parts : list string) : string :=
  match parts with
  | [] => EmptyString
  | [p] => p
  | p :: rest => p +:+ sep +:+ join sep rest
  end.

(** Every quote character doubled. *)
Fixpoint escapeQuotes (s : string) : string :=
  match s with
  | EmptyString => EmptyString
  | String c r =>
      if isQuote c then String quoteChar (String quoteChar (escapeQuotes r))
      else String c (escapeQuotes r)
  end.

(** A field written between quotes, with its own quotes doubled. *)
Definition quoteField (f : string) : string :=
  String quoteChar (escapeQuotes f +:+ quote1).

(** No comma occurs in [s]. *)
Definition noComma (s : string) : bool :=
  Str.all (fun c => negb (Ascii.eqb c commaChar)) s.

Fixpoint countCommas (s : string) : nat :=
  match s with
  | EmptyString => 0
  | String c r => (if Ascii.eqb c commaChar then 1 else 0) + countCommas r
  end.

(** A data line both loops pass over: too short, or without order id. *)
Definition ignorable (ix : ColumnIndices) (line : string) : bool :=
  isShort ix (parseCSVLine line)
  || Str.isEmpty (rowOrderId ix (parseCSVLine line)).

(** The tests of the second loop that do not depend on the first pass. *)
Definition emittable (ix : ColumnIndices) (dataLines : list string)
  (line : string) : Prop :=
  let values := parseCSVLine line in
  let who := resolveIdentity ix dataLines (rowOrderId ix values) values in
  isShort ix values = false
  /\ rowOrderId ix values <> EmptyString
  /\ cell values (iClassName ix) <> EmptyString
  /\ idName who <> EmptyString
  /\ idEmail who <> EmptyString.

(** The customer and line-item fields of a record, that is all fields but
    the four copied from the order snapshot. *)
Definition ownFields (o : ParsedOrder)
  : string * string * string * string * string * string * string * string
    * number * number * number :=
  (orderId o, customerName o, customerEmail o, customerPhone o, status o,
   orderDate o, orderTime o, className o, quantity o, price o,
   lineItemSubtotal o).

(** ** The upload check of [useOrderData]

    The part of [uploadData] that runs before the database is touched:
    the guard on the selected city, the parse, and the check that some
    record carries the expected source.  An exception thrown there is
    caught and returned as [{ success: false, error: message }]. *)

(** [`Ebony Fit Weekend - ${city === 'dc' ? 'DC' : 'Atlanta'}`] *)
Definition expectedSource (city : City) : string :=
  "Ebony Fit Weekend - " +:+ match city with dc => "DC" | atlanta => "Atlanta" end.

(** [parsedData.some(order => order.sourceName === expectedSource)] *)
Definition hasValidData (city : City) (parsedData : list ParsedOrder) : bool :=
  existsb (fun order => String.eqb (sourceName order) (expectedSource city))
    parsedData.

(** [city.toUpperCase()] on the two city keys. *)
Definition cityUpper (city : City) : string :=
  match city with dc => "DC" | atlanta => "ATLANTA" end.

Inductive UploadCheck : Type :=
| UploadRejected (error : string)
| UploadChecked (parsedData : list ParsedOrder).

Definition uploadCheck (city : option City) (csvText : string) : UploadCheck :=
  match city with
  | None => UploadRejected "No city selected"
  | Some c =>
      match parseCSVData csvText (Some c) with
      | inl e => UploadRejected (errorMessage e)
      | inr parsedData =>
          if hasValidData c parsedData then UploadChecked parsedData
          else UploadRejected
                 ("No data found for " +:+ cityUpper c +:+
                  " in this CSV file. Please check that you've uploaded the correct file.")
      end
  end.

(** ** The statistics of [DashboardStats] *)

(** [Map<string, number>]: the entries in insertion order. *)
Fixpoint mapHas (key : string) (m : list (string * number)) : bool :=
  match m with
  | [] => false
  | (k, _) :: rest => String.eqb k key || mapHas key rest
  end.

(** One call of the [forEach] callback that fills [uniqueOrders]. *)
Definition uniqueOrdersStep (m : list (string * number)) (order : ParsedOrder)
  : list (string * number) :=
  if mapHas (orderId order) m then m
  else m ++ [(orderId order, orderTotalAmount order)].

Definition uniqueOrders (data : list ParsedOrder) : list (string * number) :=
  fold_left uniqueOrdersStep data [].

(** [Array.from(uniqueOrders.values()).reduce((sum, amount) => sum + amount, 0)] *)
Definition totalRevenue (data : list ParsedOrder) : number :=
  fold_left Number.add (snd <$> uniqueOrders data) Number.zero.

(** [data.reduce((sum, order) => sum + order.quantity, 0)] *)
Definition totalQuantity (data : list ParsedOrder) : number :=
  fold_left (fun sum order => Number.add sum (quantity order))
    data Number.zero.

(** ** The class seeding of [ClassBreakdown] *)

Definition ATLANTA_CLASSES : list string :=
  [ "GO GET IT CALESTHITICS"; "FOU BRUNCH BOOTCAMP"; "NEXT LEVEL BOOT CAMP";
    "SUNDAY SERVICE"; "TRAP YOGA"; "EBONY FIT DEADLIFT PARTY"; "POWER HOUR";
    "BODY BLAST DRIP CHECK"; "BOXING MITT CAMP"; "PEACH CAMP";
    "BANDS & BADDIES"; "KEDDLESTHENICS"; "CLIMATE CONTROL";
    "ONLY YAMS GLUTE CAMP"; "SPIN CLASS"; "TRAP MOBILITY"; "HYPE HIIT";
    "TRAP BOXING"; "BRICK FIT"; "TWERK FIT, GIRLS NIGHT OUT"; "VIP LOUNGE";
    "CLASS TICKET BUNDLES - 2 Class Ticket Bundle";
    "CLASS TICKET BUNDLES - 3 Class Ticket Bundle";
    "CLASS TICKET BUNDLES - 4 Class Ticket Bundle" ].

Definition HOUSTON_CLASSES : list string :=
  [ "CLASS TICKET BUNDLES - 2 Class Ticket Bundle";
    "CLASS TICKET BUNDLES - 3 Class Ticket Bundle";
    "CLASS TICKET BUNDLES - 4 Class Ticket Bundle";
    "VIP LOUNGE"; "FAMILY & FRIENDS LIFT PARTY"; "AFRO BEAT BOOTCAMP";
    "TRAP SCULPT & MOBILITY"; "GLUTE CAMP"; "HTX - NORTHSIDE VS SOUTHSIDE";
    "ONLY YAMS"; "STEP WITH MARSHE"; "POWER HOUR"; "BRICK WIT RINA";
    "EBONY FIT DEADLIFT PARTY"; "TRAP YOGA"; "RECOMP BOOTCAMP";
    "LINE DANCE LAB"; "BEAT BOXING BOOTCAMP"; "EBONY FIT CLOSE OUT" ].

(** [data.some(order => order.sourceName === 'Ebony Fit Weekend - Atlanta')] *)
Definition isAtlantaData (data : list ParsedOrder) : bool :=
  existsb (fun order =>
             String.eqb (sourceName order) "Ebony Fit Weekend - Atlanta") data.

(** [data.some(order => order.sourceName === 'Ebony Fit Weekend - Houston')] *)
Definition isHoustonData (data : list ParsedOrder) : bool :=
  existsb (fun order =>
             String.eqb (sourceName order) "Ebony Fit Weekend - Houston") data.

(** The class names [initialStats] is seeded with before the records are
    folded in, in the order they are assigned. *)
Definition seededClasses (data : list ParsedOrder) : list string :=
  if isAtlantaData data then ATLANTA_CLASSES
  else if isHoustonData data then HOUSTON_CLASSES
  else [].

(** ** Binary64 arithmetic

    The arithmetic operators of JavaScript work on binary64 numbers.  The
    Standard Library specifies the format in [SpecFloat]: a [spec_float]
    is a binary64 datum (a signed zero, a signed infinity, the NaN, or a
    sign, a mantissa and an exponent), and [SFadd], [SFmul] and [SFdiv]
    are the IEEE 754 operations, rounding to nearest with ties to even.
    [prec] and [emax] below select binary64. *)

Module F64.

Definition prec : Z := 53.
Definition emax : Z := 1024.

(** [x + y], [x * y], [x / y] *)
Definition add : spec_float -> spec_float -> spec_float := SFadd prec emax.
Definition mul : spec_float -> spec_float -> spec_float := SFmul prec emax.
Definition div : spec_float -> spec_float -> spec_float := SFdiv prec emax.

(** [x < y]; a comparison with the NaN is false. *)
Definition ltb : spec_float -> spec_float -> bool := SFltb.

Definition zero : spec_float := S754_zero false.

(** The binary64 number nearest to [n / d], ties to even, with the given
    sign: the quotient is developed far enough for 53 digits, together
    with the exact position of the remainder, and rounded once. *)
Definition ofPos (neg : bool) (n d : positive) : spec_float :=
  let '(m, e, l) := SFdiv_core_binary prec emax (Zpos n) 0 (Zpos d) 0 in
  binary_round_aux prec emax neg m e l.

(** The binary64 number read from a decimal text whose exact value is
    [q]: the nearest one, as the engines compute it (ECMAScript allows a
    coarser result only beyond twenty significant digits).  The sign of a
    zero is not recorded in [q]: a text such as [-0] is read as the
    positive zero, which is equal to the negative one for [<], and gives
    the same values under [+], [*] and [/] by a non-zero number. *)
Definition ofQ (q : Q) : spec_float :=
  match Qnum q with
  | Z0 => S754_zero false
  | Zpos n => ofPos false n (Qden q)
  | Zneg n => ofPos true n (Qden q)
  end.

(** The binary64 number a field of a record holds. *)
Definition ofNumber (x : number) : spec_float :=
  match x with
  | NaN => S754_nan
  | Num q => ofQ q
  end.

(** The rational a finite binary64 number stands for (and zero for the
    others). *)
Definition toQ (x : spec_float) : Q :=
  match x with
  | S754_finite s m e =>
      ((if s then -1 else 1) * inject_Z (Zpos m) * 2 ^ e)%Q
  | _ => 0%Q
  end.

End F64.

(** ** Revenue allocation *)

(** The expression bound to [lineItemRevenueContribution] in the
    statistics components:
    [order.orderSubTotal > 0
       ? order.lineItemSubtotal
         + (order.lineItemSubtotal / order.orderSubTotal)
           * order.orderTaxAmount
       : order.lineItemSubtotal]. *)
Definition lineItemRevenueContribution (order : ParsedOrder) : spec_float :=
  let lineItemSubtotal := F64.ofNumber (lineItemSubtotal order) in
  let orderSubTotal := F64.ofNumber (orderSubTotal order) in
  let orderTaxAmount := F64.ofNumber (orderTaxAmount order) in
  if F64.ltb F64.zero orderSubTotal
  then F64.add lineItemSubtotal
         (F64.mul (F64.div lineItemSubtotal orderSubTotal) orderTaxAmount)
  else lineItemSubtotal.

(** [revenue += lineItemRevenueContribution] over a list of records, from
    [revenue: 0], in the order of the list. *)
Definition totalContribution (orders : list ParsedOrder) : spec_float :=
  fold_left
    (fun revenue order => F64.add revenue (lineItemRevenueContribution order))
    orders F64.zero.

(** ** Predicates on binary64 numbers used in the statements *)

(** The unit roundoff of binary64, 2^-53. *)
Definition u64 : Q := 1 # 9007199254740992.

(** Zero or a positive normal number. *)
Definition regular (x : spec_float) : Prop :=
  x = S754_zero false
  \/ exists (m : positive) (e : Z),
       x = S754_finite false m e
       /\ Zpos (digits2_pos m) = 53%Z /\ (-1074 <= e <= 971)%Z.

(** [x] lies in the unit interval that starts at the mantissa of [mrs], at
    the place told by its round and sticky bits. *)
Definition locates (mrs : shr_record) (x : Q) : Prop :=
  let m := inject_Z (shr_m mrs) in
  match shr_r mrs, shr_s mrs with
  | false, false => (x == m)%Q
  | false, true => (m < x /\ x < m + (1 # 2))%Q
  | true, false => (x == m + (1 # 2))%Q
  | true, true => (m + (1 # 2) < x /\ x < m + 1)%Q
  end.

(** [(1 - u64) ^ k] *)
Fixpoint shrink (k : nat) : Q :=
  match k with
  | O => 1%Q
  | S k => ((1 - u64) * shrink k)%Q
  end.

(** [v] is [V] up to [k] roundings:
    [V (1 - u64)^k <= v <= V / (1 - u64)^k]. *)
Definition rel (k : nat) (v V : Q) : Prop :=
  (V * shrink k <= v /\ v * shrink k <= V)%Q.

(** Zero, or of a magnitude between [2^-r] and [2^r]. *)
Definition ord (r : Z) (v : Q) : Prop :=
  (v == 0 \/ (2 ^ (- r) <= v /\ v <= 2 ^ r))%Q.

(** An amount that is zero or lies between 2^-200 and 2^200 (about 6e-61
    and 1.6e60): far from the overflow and underflow thresholds of
    binary64. *)
Definition ordinaryAmount (x : number) : bool :=
  match x with
  | NaN => false
  | Num q =>
      Qeq_bool q 0
      || (Qle_bool (2 ^ (-200)) q && Qle_bool q (2 ^ 200))
  end.

(** * Properties *)

(** ** Strings *)

Lemma append_cons (x : ascii) (a b : string) :
  String x a +:+ b = String x (a +:+ b).
Proof. reflexivity. Qed.

Lemma append_nil_l (b : string) : EmptyString +:+ b = b.
Proof. reflexivity. Qed.

Lemma append_nil_r (a : string) : a +:+ EmptyString = a.
Proof.
  induction a as [|x a IH]; [reflexivity|].
  rewrite append_cons. now rewrite IH.
Qed.

Lemma append_assoc (a b c : string) : (a +:+ b) +:+ c = a +:+ (b +:+ c).
Proof.
  induction a as [|x a IH]; [reflexivity|].
  rewrite !append_cons. now rewrite IH.
Qed.

Lemma append_snoc_cons (a : string) (c : ascii) (b : string) :
  (a +:+ String c EmptyString) +:+ b = a +:+ String c b.
Proof. now rewrite append_assoc. Qed.

Lemma isEmpty_true (s : string) : Str.isEmpty s = true <-> s = EmptyString.
Proof. destruct s; simpl; split; congruence. Qed.

Lemma isEmpty_false (s : string) : Str.isEmpty s = false <-> s <> EmptyString.
Proof. destruct s; simpl; split; congruence. Qed.

Lemma all_app (p : ascii -> bool) (a b : string) :
  Str.all p (a +:+ b) = Str.all p a && Str.all p b.
Proof.
  induction a as [|x a IH]; [reflexivity|].
  rewrite append_cons. simpl. rewrite IH. now rewrite andb_assoc.
Qed.

(** *** Character classes *)

Lemma white_not_digit (c : ascii) :
  Char.isWhite c = true -> Char.isDigit c = false.
Proof. destruct c as [[] [] [] [] [] [] [] []]; vm_compute; congruence. Qed.

Lemma white_not_at (c : ascii) :
  Char.isWhite c = true -> Ascii.eqb c atChar = false.
Proof. destruct c as [[] [] [] [] [] [] [] []]; vm_compute; congruence. Qed.

Lemma digit_not_at (c : ascii) :
  Char.isDigit c = true -> Ascii.eqb c atChar = false.
Proof. destruct c as [[] [] [] [] [] [] [] []]; vm_compute; congruence. Qed.

(** *** [trim] *)

Lemma trimStart_head (s : string) :
  match Str.trimStart s with
  | EmptyString => True
  | String c _ => Char.isWhite c = false
  end.
Proof.
  induction s as [|c r IH]; simpl; [exact I|].
  destruct (Char.isWhite c) eqn:E; [exact IH | exact E].
Qed.

Lemma trimStart_fixed (s : string) :
  match s with
  | EmptyString => True
  | String c _ => Char.isWhite c = false
  end ->
  Str.trimStart s = s.
Proof. destruct s as [|c r]; simpl; [reflexivity|]. now intros ->. Qed.

Lemma trimEnd_head (s : string) :
  match s with
  | EmptyString => True
  | String c _ => Char.isWhite c = false
  end ->
  match Str.trimEnd s with
  | EmptyString => True
  | String c _ => Char.isWhite c = false
  end.
Proof.
  destruct s as [|c r]; simpl; [exact id|].
  intros E. rewrite E. simpl. exact E.
Qed.

Lemma trimEnd_idem (s : string) : Str.trimEnd (Str.trimEnd s) = Str.trimEnd s.
Proof.
  induction s as [|c r IH]; simpl; [reflexivity|].
  destruct (Char.isWhite c && Str.isEmpty (Str.trimEnd r)) eqn:E.
  - reflexivity.
  - simpl. rewrite IH, E. reflexivity.
Qed.

Lemma trim_idem (s : string) : Str.trim (Str.trim s) = Str.trim s.
Proof.
  unfold Str.trim.
  rewrite (trimStart_fixed (Str.trimEnd (Str.trimStart s))).
  - apply trimEnd_idem.
  - apply trimEnd_head, trimStart_head.
Qed.

Lemma trimEnd_all_white (s : string) :
  Str.all Char.isWhite s = true -> Str.trimEnd s = EmptyString.
Proof.
  induction s as [|c r IH]; simpl; [reflexivity|].
  intros H. apply andb_prop in H as [Hc Hr].
  now rewrite Hc, IH.
Qed.

Lemma trimEnd_empty_all_white (s : string) :
  Str.trimEnd s = EmptyString -> Str.all Char.isWhite s = true.
Proof.
  induction s as [|c r IH]; simpl; [reflexivity|].
  destruct (Char.isWhite c) eqn:Hc; simpl; [|discriminate].
  destruct (Str.trimEnd r) eqn:Hr; simpl; [|discriminate].
  intros _. now apply IH.
Qed.

(** *** [split] *)

Lemma splitGo_nil (sep cur : string) (k : nat) :
  Str.splitGo sep k cur EmptyString = [cur].
Proof. reflexivity. Qed.

Lemma splitGo_cons (sep cur : string) (c : ascii) (r : string) :
  Str.splitGo sep 0 cur (String c r)
  = if Str.startsWith (String c r) sep
    then cur :: Str.splitGo sep (String.length sep - 1) EmptyString r
    else Str.splitGo sep 0 (cur +:+ String c EmptyString) r.
Proof. reflexivity. Qed.

Lemma splitGo_skip (sep cur u s : string) :
  Str.splitGo sep (String.length u) cur (u +:+ s) = Str.splitGo sep 0 cur s.
Proof.
  induction u as [|x u IH]; [reflexivity|].
  rewrite append_cons. simpl. exact IH.
Qed.

Lemma startsWith_app (p s : string) : Str.startsWith (p +:+ s) p = true.
Proof.
  induction p as [|x p IH]; [now destruct s|].
  rewrite append_cons. simpl. now rewrite Ascii.eqb_refl, IH.
Qed.

Lemma startsWith_inv (p s : string) :
  Str.startsWith s p = true -> exists r, s = p +:+ r.
Proof.
  revert s. induction p as [|x p IH]; intros s H.
  - exists s. reflexivity.
  - destruct s as [|y s]; [discriminate|]. simpl in H.
    apply andb_prop in H as [Hx Hp]. apply Ascii.eqb_eq in Hx. subst y.
    destruct (IH s Hp) as [r ->]. exists r. reflexivity.
Qed.

(** Splitting at an occurrence of the separator closes the current part. *)
Lemma splitGo_sep (x : ascii) (sep cur s : string) :
  Str.splitGo (String x sep) 0 cur (String x sep +:+ s)
  = cur :: Str.splitGo (String x sep) 0 EmptyString s.
Proof.
  rewrite append_cons, splitGo_cons, <- append_cons, startsWith_app.
  replace (String.length (String x sep) - 1) with (String.length sep)
    by (simpl; lia).
  now rewrite splitGo_skip.
Qed.

Lemma startsWith_single (c d : ascii) (r : string) :
  Str.startsWith (String c r) (String d EmptyString) = Ascii.eqb d c.
Proof.
  change (Ascii.eqb d c && Str.startsWith r EmptyString = Ascii.eqb d c).
  destruct r; apply andb_true_r.
Qed.

(** ** The line tokenizer *)

Lemma parseCSVLine_loop_cons (c : ascii) (rest : string)
  (result : list string) (current : string) (inQuotes : bool) :
  parseCSVLine_loop (String c rest) result current inQuotes
  = if Ascii.eqb c quoteChar then
      match inQuotes, rest with
      | true, String nextChar rest' =>
          if Ascii.eqb nextChar quoteChar
          then parseCSVLine_loop rest' result
                 (current +:+ String quoteChar EmptyString) inQuotes
          else parseCSVLine_loop rest result current (negb inQuotes)
      | _, _ => parseCSVLine_loop rest result current (negb inQuotes)
      end
    else if Ascii.eqb c commaChar && negb inQuotes then
      parseCSVLine_loop rest (result ++ [current]) EmptyString inQuotes
    else
      parseCSVLine_loop rest result
        (current +:+ String c EmptyString) inQuotes.
Proof. reflexivity. Qed.

(** The tokenizer only ever extends [result]. *)
Lemma parseCSVLine_loop_grows (n : nat) : forall line result current inQuotes,
  String.length line < n ->
  length result < length (parseCSVLine_loop line result current inQuotes).
Proof.
  induction n as [|n IH]; intros line result current inQuotes Hn; [lia|].
  destruct line as [|c rest].
  - simpl. rewrite length_app. simpl. lia.
  - rewrite parseCSVLine_loop_cons. simpl in Hn.
    destruct (Ascii.eqb c quoteChar).
    + destruct inQuotes; [destruct rest as [|c' rest']|].
      * apply IH. simpl. lia.
      * destruct (Ascii.eqb c' quoteChar); apply IH; simpl in *; lia.
      * apply IH. lia.
    + destruct (Ascii.eqb c commaChar && negb inQuotes).
      * etransitivity; [|apply IH; lia]. rewrite length_app. simpl. lia.
      * apply IH. lia.
Qed.

Lemma noQuote_cons (c : ascii) (r : string) :
  noQuote (String c r) = true ->
  Ascii.eqb c quoteChar = false /\ noQuote r = true.
Proof.
  intros H. apply andb_prop in H as [Hc Hr]. split; [|exact Hr].
  now apply negb_true_iff in Hc.
Qed.

Lemma parseCSVLine_loop_unquoted line : forall result current,
  noQuote line = true ->
  parseCSVLine_loop line result current false
  = result ++ Str.splitGo comma1 0 current line.
Proof.
  induction line as [|c rest IH]; intros result current Hq.
  - reflexivity.
  - apply noQuote_cons in Hq as [Hc Hr].
    rewrite parseCSVLine_loop_cons, Hc, splitGo_cons.
    unfold comma1 at 1. rewrite startsWith_single, andb_true_r.
    rewrite (Ascii.eqb_sym commaChar c).
    destruct (Ascii.eqb c commaChar) eqn:Ec.
    + rewrite IH by assumption. now rewrite <- app_assoc.
    + now apply IH.
Qed.

(** Inside a quoted region every character other than a quote is
    literal: an unterminated region runs to the end of the line. *)
Lemma parseCSVLine_loop_inside q : forall result current,
  noQuote q = true ->
  parseCSVLine_loop q result current true = result ++ [current +:+ q].
Proof.
  induction q as [|c rest IH]; intros result current Hq.
  - simpl. now rewrite append_nil_r.
  - apply noQuote_cons in Hq as [Hc Hr].
    rewrite parseCSVLine_loop_cons, Hc, andb_false_r.
    rewrite IH by assumption. now rewrite append_snoc_cons.
Qed.

Lemma parseCSVLine_loop_region q : forall rest result current,
  noQuote q = true -> startsWithQuote rest = false ->
  parseCSVLine_loop (q +:+ String quoteChar rest) result current true
  = parseCSVLine_loop rest result (current +:+ q) false.
Proof.
  induction q as [|c q IH]; intros rest result current Hq Hrest.
  - rewrite append_nil_l, append_nil_r, parseCSVLine_loop_cons.
    rewrite Ascii.eqb_refl.
    destruct rest as [|c' rest']; [reflexivity|].
    simpl in Hrest. unfold isQuote in Hrest. now rewrite Hrest.
  - rewrite append_cons.
    apply noQuote_cons in Hq as [Hc Hr].
    rewrite parseCSVLine_loop_cons, Hc, andb_false_r.
    rewrite IH by assumption. now rewrite append_snoc_cons.
Qed.

(** C9.  Writing Q for the quote character, the tokenizer maps the line
    [a,Qb,cQ,d] to the fields [a], [b,c], [d] and the line [a,QbQQcQ,d] to
    [a], [bQc], [d]; every line yields at least one field; a line without
    quotes is split at its commas; a quoted region closed by a quote keeps
    its commas and ends the region; a doubled quote inside a region adds
    one quote character and stays inside; an unterminated region runs to
    the end of the line. *)
Theorem parseCSVLine_tokenizes :
  parseCSVLine ("a," +:+ quote1 +:+ "b,c" +:+ quote1 +:+ ",d")
    = ["a"; "b,c"; "d"]
  /\ parseCSVLine
       ("a," +:+ quote1 +:+ "b" +:+ quote1 +:+ quote1 +:+ "c" +:+ quote1 +:+ ",d")
    = ["a"; "b" +:+ quote1 +:+ "c"; "d"]
  /\ (forall line, 1 <= length (parseCSVLine line))
  /\ (forall line, noQuote line = true ->
        parseCSVLine line = Str.split comma1 line)
  /\ (forall q rest result current,
        noQuote q = true -> startsWithQuote rest = false ->
        parseCSVLine_loop (quote1 +:+ q +:+ quote1 +:+ rest) result current false
        = parseCSVLine_loop rest result (current +:+ q) false)
  /\ (forall rest result current,
        parseCSVLine_loop (quote1 +:+ quote1 +:+ rest) result current true
        = parseCSVLine_loop rest result (current +:+ quote1) true)
  /\ (forall q result current,
        noQuote q = true ->
        parseCSVLine_loop (quote1 +:+ q) result current false
        = result ++ [current +:+ q]).
Proof.
  split; [|split; [|split; [|split; [|split; [|split]]]]].
  - vm_compute. reflexivity.
  - vm_compute. reflexivity.
  - intros line. unfold parseCSVLine.
    pose proof (parseCSVLine_loop_grows (S (String.length line)) line []
                  EmptyString false (Nat.lt_succ_diag_r _)) as H.
    simpl in H. lia.
  - intros line Hq. unfold parseCSVLine, Str.split.
    now rewrite parseCSVLine_loop_unquoted.
  - intros q rest result current Hq Hrest. unfold quote1.
    rewrite !append_cons, !append_nil_l.
    rewrite parseCSVLine_loop_cons, Ascii.eqb_refl.
    now apply parseCSVLine_loop_region.
  - intros rest result current. reflexivity.
  - intros q result current Hq. unfold quote1.
    rewrite append_cons, append_nil_l.
    rewrite parseCSVLine_loop_cons, Ascii.eqb_refl.
    now apply parseCSVLine_loop_inside.
Qed.

Lemma parseCSVLine_tokenizes_witness :
  parseCSVLine "x,y z," = Str.split comma1 "x,y z,"
  /\ parseCSVLine (quote1 +:+ "p,q") = ["p,q"]
  /\ parseCSVLine (quote1 +:+ "p,q" +:+ quote1 +:+ ",r") = ["p,q"; "r"].
Proof.
  destruct parseCSVLine_tokenizes as (_ & _ & _ & Hplain & Hregion & _ & Hopen).
  split; [|split].
  - apply (Hplain "x,y z,"). reflexivity.
  - apply (Hopen "p,q" [] EmptyString). reflexivity.
  - unfold parseCSVLine.
    rewrite (Hregion "p,q" ",r" [] EmptyString); reflexivity.
Defined.

(** ** The class-name canonicalizer *)

Lemma span_spec (p : ascii -> bool) (s : string) :
  let '(a, b) := Str.span p s in
  s = a +:+ b
  /\ Str.all p a = true
  /\ match b with
     | EmptyString => True
     | String c _ => p c = false
     end.
Proof.
  induction s as [|c r IH]; simpl.
  - repeat split.
  - destruct (p c) eqn:Hc.
    + destruct (Str.span p r) as [a b]. destruct IH as (-> & Ha & Hb).
      repeat split; [simpl; now rewrite Hc, Ha | exact Hb].
    + repeat split. exact Hc.
Qed.

Lemma dropWhile_spec (p : ascii -> bool) (s : string) :
  exists w, s = w +:+ Str.dropWhile p s
    /\ Str.all p w = true
    /\ match Str.dropWhile p s with
       | EmptyString => True
       | String c _ => p c = false
       end.
Proof.
  induction s as [|c r IH]; simpl.
  - exists EmptyString. repeat split.
  - destruct (p c) eqn:Hc.
    + destruct IH as (w & Hw & Ha & Hd). exists (String c w).
      repeat split; [rewrite append_cons; congruence | simpl; now rewrite Hc | exact Hd].
    + exists EmptyString. repeat split. exact Hc.
Qed.

Lemma dropWhile_app (p : ascii -> bool) (w s : string) :
  Str.all p w = true ->
  Str.dropWhile p (w +:+ s) = Str.dropWhile p s.
Proof.
  induction w as [|c w IH]; intros H; [reflexivity|].
  simpl in H. apply andb_prop in H as [Hc Hw].
  rewrite append_cons. simpl. rewrite Hc. now apply IH.
Qed.

Lemma dropWhile_stop (p : ascii -> bool) (c : ascii) (s : string) :
  p c = false -> Str.dropWhile p (String c s) = String c s.
Proof. intros H. simpl. now rewrite H. Qed.

Lemma dropWhile_all (p : ascii -> bool) (s : string) :
  Str.all p s = true -> Str.dropWhile p s = EmptyString.
Proof.
  intros H. rewrite <- (append_nil_r s). now rewrite dropWhile_app.
Qed.

Lemma span_app (p : ascii -> bool) (a s : string) :
  Str.all p a = true ->
  match s with
  | EmptyString => True
  | String c _ => p c = false
  end ->
  Str.span p (a +:+ s) = (a, s).
Proof.
  induction a as [|c a IH]; intros Ha Hs.
  - rewrite append_nil_l. destruct s as [|c r]; simpl; [reflexivity|].
    now rewrite Hs.
  - simpl in Ha. apply andb_prop in Ha as [Hc Ha].
    rewrite append_cons. simpl. rewrite Hc, IH by assumption. reflexivity.
Qed.

Lemma all_white_noAt (s : string) :
  Str.all Char.isWhite s = true -> noAt s = true.
Proof.
  induction s as [|c r IH]; simpl; [reflexivity|].
  intros H. apply andb_prop in H as [Hc Hr].
  unfold noAt in *. simpl. now rewrite (white_not_at c Hc), IH.
Qed.

Lemma all_digit_noAt (s : string) :
  Str.all Char.isDigit s = true -> noAt s = true.
Proof.
  induction s as [|c r IH]; simpl; [reflexivity|].
  intros H. apply andb_prop in H as [Hc Hr].
  unfold noAt in *. simpl. now rewrite (digit_not_at c Hc), IH.
Qed.

Lemma noAt_app (a b : string) : noAt (a +:+ b) = noAt a && noAt b.
Proof. apply all_app. Qed.

(** What [annotationTail] accepts: white space, digits, white space. *)
Lemma annotationTail_inv (r : string) :
  annotationTail r = true ->
  exists w2 ds w3, r = w2 +:+ ds +:+ w3
    /\ Str.all Char.isWhite w2 = true
    /\ Str.all Char.isDigit ds = true
    /\ ds <> EmptyString
    /\ Str.all Char.isWhite w3 = true.
Proof.
  unfold annotationTail. intros H.
  destruct (dropWhile_spec Char.isWhite r) as (w2 & Hr & Hw2 & _).
  pose proof (span_spec Char.isDigit (Str.dropWhile Char.isWhite r)) as Hs.
  destruct (Str.span Char.isDigit (Str.dropWhile Char.isWhite r)) as [ds r'].
  destruct Hs as (Hd & Hds & _).
  apply andb_prop in H as [Hne Hw3].
  apply negb_true_iff, isEmpty_false in Hne.
  apply isEmpty_true in Hw3.
  destruct (dropWhile_spec Char.isWhite r') as (w3 & Hr' & Hw3' & _).
  rewrite Hw3, append_nil_r in Hr'. subst w3.
  exists w2, ds, r'. repeat split; try assumption. congruence.
Qed.

Lemma annotationTail_intro (w2 ds w3 : string) :
  Str.all Char.isWhite w2 = true ->
  Str.all Char.isDigit ds = true ->
  ds <> EmptyString ->
  Str.all Char.isWhite w3 = true ->
  annotationTail (w2 +:+ ds +:+ w3) = true.
Proof.
  intros Hw2 Hds Hne Hw3. unfold annotationTail.
  rewrite dropWhile_app by assumption.
  destruct ds as [|d ds]; [congruence|].
  simpl in Hds. apply andb_prop in Hds as [Hd Hds].
  assert (Hnw : Char.isWhite d = false).
  { destruct (Char.isWhite d) eqn:E; [|reflexivity].
    apply white_not_digit in E. congruence. }
  rewrite append_cons, dropWhile_stop by assumption.
  rewrite <- append_cons, span_app.
  - simpl. now apply isEmpty_true, dropWhile_all.
  - simpl. now rewrite Hd, Hds.
  - destruct w3 as [|c w3]; [exact I|]. simpl in Hw3.
    apply andb_prop in Hw3 as [Hc _]. now apply white_not_digit.
Qed.

Lemma annotationTail_noAt (r : string) :
  annotationTail r = true -> noAt r = true.
Proof.
  intros H. apply annotationTail_inv in H
    as (w2 & ds & w3 & -> & Hw2 & Hds & _ & Hw3).
  rewrite !noAt_app, (all_white_noAt w2), (all_digit_noAt ds),
    (all_white_noAt w3); auto.
Qed.

Lemma annotationAt_white (c : ascii) (r : string) :
  Char.isWhite c = true -> annotationAt (String c r) = annotationAt r.
Proof. intros H. unfold annotationAt. simpl. now rewrite H. Qed.

Lemma annotationAt_nonwhite (c : ascii) (r : string) :
  Char.isWhite c = false ->
  annotationAt (String c r) = Ascii.eqb c atChar && annotationTail r.
Proof. intros H. unfold annotationAt. simpl. now rewrite H. Qed.

Lemma annotationAt_app_white (w s : string) :
  Str.all Char.isWhite w = true -> annotationAt (w +:+ s) = annotationAt s.
Proof.
  intros H. unfold annotationAt. now rewrite dropWhile_app.
Qed.

Lemma annotationAt_hasAt (t : string) :
  annotationAt t = true -> noAt t = false.
Proof.
  unfold annotationAt. intros H.
  destruct (dropWhile_spec Char.isWhite t) as (w & Ht & _ & _).
  destruct (Str.dropWhile Char.isWhite t) as [|c r]; [discriminate|].
  apply andb_prop in H as [Hc _].
  rewrite Ht, noAt_app. unfold noAt at 2. simpl. rewrite Hc. simpl.
  apply andb_false_r.
Qed.

(** The regular expression and the declarative pattern agree. *)
Lemma annotationAt_Annotation (t : string) :
  annotationAt t = true <-> Annotation t.
Proof.
  split.
  - unfold annotationAt. intros H.
    destruct (dropWhile_spec Char.isWhite t) as (w1 & Ht & Hw1 & _).
    destruct (Str.dropWhile Char.isWhite t) as [|c r]; [discriminate|].
    apply andb_prop in H as [Hc Hr]. apply Ascii.eqb_eq in Hc. subst c.
    apply annotationTail_inv in Hr as (w2 & ds & w3 & -> & Hw2 & Hds & Hne & Hw3).
    exists w1, w2, ds, w3. repeat split; assumption.
  - intros (w1 & w2 & ds & w3 & -> & Hw1 & Hw2 & Hds & Hne & Hw3).
    rewrite annotationAt_app_white by assumption.
    unfold at1. rewrite append_cons, append_nil_l.
    rewrite annotationAt_nonwhite by reflexivity.
    rewrite Ascii.eqb_refl. simpl. now apply annotationTail_intro.
Qed.

(** A match that starts before a trailing annotation only adds white
    space in front of it. *)
Lemma annotationAt_prefix_white (a t : string) :
  annotationAt t = true ->
  annotationAt (a +:+ t) = true ->
  Str.all Char.isWhite a = true.
Proof.
  intros Ht. induction a as [|c a IH]; intros H; [reflexivity|].
  rewrite append_cons in H. simpl.
  destruct (Char.isWhite c) eqn:Hc.
  - rewrite annotationAt_white in H by assumption. now apply IH.
  - rewrite annotationAt_nonwhite in H by assumption.
    apply andb_prop in H as [_ Htail].
    apply annotationTail_noAt in Htail. rewrite noAt_app in Htail.
    apply andb_prop in Htail as [_ Hno].
    apply annotationAt_hasAt in Ht. congruence.
Qed.

Lemma stripAnnotation_unfold (s : string) :
  stripAnnotation s
  = if annotationAt s then EmptyString
    else match s with
         | EmptyString => EmptyString
         | String c r => String c (stripAnnotation r)
         end.
Proof. destruct s; reflexivity. Qed.

(** A trailing annotation is removed, with the white space before it. *)
Lemma stripAnnotation_trailing (p t : string) :
  annotationAt t = true ->
  stripAnnotation (p +:+ t) = Str.trimEnd p.
Proof.
  intros Ht. induction p as [|c p IH].
  - rewrite append_nil_l, stripAnnotation_unfold, Ht. reflexivity.
  - rewrite stripAnnotation_unfold.
    destruct (annotationAt (String c p +:+ t)) eqn:E.
    + apply (annotationAt_prefix_white _ _ Ht) in E.
      symmetry. now apply trimEnd_all_white.
    + rewrite append_cons, IH. simpl.
      destruct (Char.isWhite c && Str.isEmpty (Str.trimEnd p)) eqn:E'; [|reflexivity].
      apply andb_prop in E' as [Hc Hp]. apply isEmpty_true in Hp.
      apply trimEnd_empty_all_white in Hp.
      rewrite append_cons, annotationAt_white, annotationAt_app_white in E
        by assumption.
      congruence.
Qed.

(** Only a trailing annotation is removed. *)
Lemma stripAnnotation_removes (s : string) :
  exists t, s = stripAnnotation s +:+ t
    /\ (t = EmptyString \/ annotationAt t = true).
Proof.
  induction s as [|c r IH].
  - exists EmptyString. split; [reflexivity | now left].
  - rewrite stripAnnotation_unfold.
    destruct (annotationAt (String c r)) eqn:E.
    + exists (String c r). split; [reflexivity | now right].
    + destruct IH as (t & Hr & Ht). exists t. split; [|exact Ht].
      rewrite append_cons. congruence.
Qed.

Lemma append_length (a b : string) :
  String.length (a +:+ b) = String.length a + String.length b.
Proof.
  induction a as [|x a IH]; [reflexivity|].
  rewrite append_cons. simpl. now rewrite IH.
Qed.

Lemma trimEnd_length (p : string) :
  String.length (Str.trimEnd p) <= String.length p.
Proof.
  induction p as [|c p IH]; simpl; [lia|].
  destruct (Char.isWhite c && Str.isEmpty (Str.trimEnd p)); simpl; lia.
Qed.

(** [stripAnnotation] leaves a string alone exactly when none of its
    suffixes is an annotation. *)
Lemma stripAnnotation_fixed_iff (s : string) :
  stripAnnotation s = s <->
  forall p t : string, s = p +:+ t -> ~ Annotation t.
Proof.
  split.
  - intros Hfix p t Hs Hann. apply annotationAt_Annotation in Hann.
    pose proof (stripAnnotation_trailing p t Hann) as Hcut.
    rewrite <- Hs, Hfix in Hcut.
    assert (Hlen : String.length s = String.length p + String.length t)
      by (rewrite Hs at 1; apply append_length).
    rewrite Hcut in Hlen at 1. pose proof (trimEnd_length p) as Hle.
    destruct t as [|c t]; [discriminate Hann|]. simpl in Hlen. lia.
  - intros Hnone. destruct (stripAnnotation_removes s) as (t & Hs & [-> | Ht]).
    + rewrite append_nil_r in Hs. congruence.
    + apply annotationAt_Annotation in Ht.
      destruct (Hnone _ _ Hs Ht).
Qed.

(** *** Lower-casing and trimming commute *)

Lemma isWhite_toLowerCase (c : ascii) :
  Char.isWhite (Char.toLowerCase c) = Char.isWhite c.
Proof. destruct c as [[] [] [] [] [] [] [] []]; vm_compute; reflexivity. Qed.

Lemma isEmpty_toLowerCase (s : string) :
  Str.isEmpty (Str.toLowerCase s) = Str.isEmpty s.
Proof. destruct s; reflexivity. Qed.

Lemma toLowerCase_app (a b : string) :
  Str.toLowerCase (a +:+ b) = Str.toLowerCase a +:+ Str.toLowerCase b.
Proof.
  induction a as [|x a IH]; [reflexivity|].
  rewrite append_cons. simpl. rewrite IH. reflexivity.
Qed.

Lemma toLowerCase_trimStart (s : string) :
  Str.toLowerCase (Str.trimStart s) = Str.trimStart (Str.toLowerCase s).
Proof.
  induction s as [|c r IH]; simpl; [reflexivity|].
  rewrite isWhite_toLowerCase. destruct (Char.isWhite c); [exact IH | reflexivity].
Qed.

Lemma toLowerCase_trimEnd (s : string) :
  Str.toLowerCase (Str.trimEnd s) = Str.trimEnd (Str.toLowerCase s).
Proof.
  induction s as [|c r IH]; simpl; [reflexivity|].
  rewrite <- IH, isEmpty_toLowerCase, isWhite_toLowerCase.
  destruct (Char.isWhite c && Str.isEmpty (Str.trimEnd r)); reflexivity.
Qed.

Lemma toLowerCase_trim (s : string) :
  Str.toLowerCase (Str.trim s) = Str.trim (Str.toLowerCase s).
Proof.
  unfold Str.trim. now rewrite toLowerCase_trimEnd, toLowerCase_trimStart.
Qed.

Lemma eqIgnoreCase_trim (a b : string) :
  eqIgnoreCase a b = true -> eqIgnoreCase (Str.trim a) (Str.trim b) = true.
Proof.
  unfold eqIgnoreCase. rewrite !String.eqb_eq, !toLowerCase_trim.
  now intros ->.
Qed.

Lemma eqIgnoreCase_halves (p0 p1 p2 p3 : string) :
  eqIgnoreCase p0 p2 = true -> eqIgnoreCase p1 p3 = true ->
  eqIgnoreCase (Str.trim p0 +:+ dashSep +:+ Str.trim p1)
               (Str.trim p2 +:+ dashSep +:+ Str.trim p3) = true.
Proof.
  intros H02 H13. apply eqIgnoreCase_trim in H02, H13.
  unfold eqIgnoreCase in *. rewrite String.eqb_eq in *.
  rewrite !toLowerCase_app. now rewrite H02, H13.
Qed.

Lemma cleanClassName_unfold (s : string) :
  cleanClassName s
  = Str.trim
      match Str.split dashSep (stripAnnotation s) with
      | [p0; p1] =>
          if eqIgnoreCase (Str.trim p0) (Str.trim p1)
          then Str.trim p0
          else stripAnnotation s
      | [p0; p1; p2; p3] =>
          if eqIgnoreCase (Str.trim p0 +:+ dashSep +:+ Str.trim p1)
                          (Str.trim p2 +:+ dashSep +:+ Str.trim p3)
          then Str.trim p0 +:+ dashSep +:+ Str.trim p1
          else stripAnnotation s
      | _ => stripAnnotation s
      end.
Proof. reflexivity. Qed.

Lemma cleanClassName_not_collapsible (s : string) :
  collapsible (Str.split dashSep (stripAnnotation s)) = false ->
  cleanClassName s = Str.trim (stripAnnotation s).
Proof.
  rewrite cleanClassName_unfold. unfold collapsible.
  destruct (Str.split dashSep (stripAnnotation s)) as [|p0 [|p1 [|p2 [|p3 [|p4 l]]]]];
    try reflexivity; now intros ->.
Qed.

Lemma cleanClassName_trimmed (s : string) :
  Str.trim (cleanClassName s) = cleanClassName s.
Proof. rewrite cleanClassName_unfold. apply trim_idem. Qed.

(** C7, as stated, fails.  The string below splits into two parts that
    are not equal up to case (the first ends in a space), so the claim has
    it returned unchanged but for trimming; the code compares the parts
    after trimming them and returns the first one.  Likewise for four
    parts: the halves are compared after each part is trimmed. *)
Lemma cleanClassName_compares_trimmed_parts :
  (Str.split dashSep (stripAnnotation "YOGA  - Yoga") = ["YOGA "; "Yoga"]
   /\ eqIgnoreCase "YOGA " "Yoga" = false
   /\ Str.trim (stripAnnotation "YOGA  - Yoga") = "YOGA  - Yoga"
   /\ cleanClassName "YOGA  - Yoga" = "YOGA")
  /\ (Str.split dashSep (stripAnnotation "A  - B - A - B")
      = ["A "; "B"; "A"; "B"]
      /\ eqIgnoreCase ("A " +:+ dashSep +:+ "B") ("A" +:+ dashSep +:+ "B")
         = false
      /\ Str.trim (stripAnnotation "A  - B - A - B") = "A  - B - A - B"
      /\ cleanClassName "A  - B - A - B" = "A - B").
Proof. repeat split; vm_compute; reflexivity. Qed.

(** C7, amended.  The canonicalizer maps ONLY YAMS - ONLY YAMS to ONLY
    YAMS, TRAP MOBILITY @ 24 to TRAP MOBILITY, the doubled PILATES - TIGHT
    & TONE to a single PILATES - TIGHT & TONE and SPIN CLASS to itself.  In
    general: a trailing capacity annotation is removed together with the
    white space before it, and nothing but such an annotation is removed;
    a two-part split whose parts are equal up to case once each is trimmed
    (in particular when they are equal up to case as they stand) collapses
    to the trimmed first part; a four-part split whose halves, built from
    the trimmed parts, are equal up to case collapses to the first half so
    built, trimmed; any other string is returned as it is after the
    removal, trimmed. *)
Theorem cleanClassName_canonical :
  cleanClassName "ONLY YAMS - ONLY YAMS" = "ONLY YAMS"
  /\ cleanClassName "TRAP MOBILITY @ 24" = "TRAP MOBILITY"
  /\ cleanClassName "PILATES - TIGHT & TONE - PILATES - TIGHT & TONE"
     = "PILATES - TIGHT & TONE"
  /\ cleanClassName "SPIN CLASS" = "SPIN CLASS"
  /\ (forall p t : string,
        Annotation t -> stripAnnotation (p +:+ t) = Str.trimEnd p)
  /\ (forall s : string, exists t : string,
        s = stripAnnotation s +:+ t /\ (t = EmptyString \/ Annotation t))
  /\ (forall s p0 p1 : string,
        Str.split dashSep (stripAnnotation s) = [p0; p1] ->
        eqIgnoreCase (Str.trim p0) (Str.trim p1) = true ->
        cleanClassName s = Str.trim p0)
  /\ (forall s p0 p1 p2 p3 : string,
        Str.split dashSep (stripAnnotation s) = [p0; p1; p2; p3] ->
        eqIgnoreCase (Str.trim p0 +:+ dashSep +:+ Str.trim p1)
                     (Str.trim p2 +:+ dashSep +:+ Str.trim p3) = true ->
        cleanClassName s
        = Str.trim (Str.trim p0 +:+ dashSep +:+ Str.trim p1))
  /\ (forall s p0 p1 : string,
        Str.split dashSep (stripAnnotation s) = [p0; p1] ->
        eqIgnoreCase p0 p1 = true ->
        cleanClassName s = Str.trim p0)
  /\ (forall s p0 p1 p2 p3 : string,
        Str.split dashSep (stripAnnotation s) = [p0; p1; p2; p3] ->
        eqIgnoreCase p0 p2 = true -> eqIgnoreCase p1 p3 = true ->
        cleanClassName s
        = Str.trim (Str.trim p0 +:+ dashSep +:+ Str.trim p1))
  /\ (forall s : string,
        match Str.split dashSep (stripAnnotation s) with
        | [p0; p1] => eqIgnoreCase (Str.trim p0) (Str.trim p1) = false
        | [p0; p1; p2; p3] =>
            eqIgnoreCase (Str.trim p0 +:+ dashSep +:+ Str.trim p1)
                         (Str.trim p2 +:+ dashSep +:+ Str.trim p3) = false
        | _ => True
        end ->
        cleanClassName s = Str.trim (stripAnnotation s)).
Proof.
  split; [vm_compute; reflexivity|].
  split; [vm_compute; reflexivity|].
  split; [vm_compute; reflexivity|].
  split; [vm_compute; reflexivity|].
  assert (Htwo : forall s p0 p1 : string,
             Str.split dashSep (stripAnnotation s) = [p0; p1] ->
             eqIgnoreCase (Str.trim p0) (Str.trim p1) = true ->
             cleanClassName s = Str.trim p0).
  { intros s p0 p1 Hsplit Heq.
    rewrite cleanClassName_unfold, Hsplit, Heq. apply trim_idem. }
  assert (Hfour : forall s p0 p1 p2 p3 : string,
             Str.split dashSep (stripAnnotation s) = [p0; p1; p2; p3] ->
             eqIgnoreCase (Str.trim p0 +:+ dashSep +:+ Str.trim p1)
                          (Str.trim p2 +:+ dashSep +:+ Str.trim p3) = true ->
             cleanClassName s
             = Str.trim (Str.trim p0 +:+ dashSep +:+ Str.trim p1)).
  { intros s p0 p1 p2 p3 Hsplit Heq.
    rewrite cleanClassName_unfold, Hsplit, Heq. reflexivity. }
  split; [|split; [|split; [|split; [|split; [|split]]]]].
  - intros p t Ht. apply stripAnnotation_trailing.
    now apply annotationAt_Annotation.
  - intros s. destruct (stripAnnotation_removes s) as (t & Hs & Ht).
    exists t. split; [exact Hs|].
    destruct Ht as [Ht | Ht]; [now left | right].
    now apply annotationAt_Annotation.
  - exact Htwo.
  - exact Hfour.
  - intros s p0 p1 Hsplit Heq. apply (Htwo s p0 p1 Hsplit).
    now apply eqIgnoreCase_trim.
  - intros s p0 p1 p2 p3 Hsplit H02 H13. apply (Hfour s p0 p1 p2 p3 Hsplit).
    now apply eqIgnoreCase_halves.
  - intros s H. apply cleanClassName_not_collapsible. unfold collapsible.
    destruct (Str.split dashSep (stripAnnotation s))
      as [|p0 [|p1 [|p2 [|p3 [|p4 l]]]]]; try reflexivity; exact H.
Qed.

Lemma cleanClassName_canonical_witness :
  stripAnnotation ("YOGA" +:+ " @ 12") = "YOGA"
  /\ cleanClassName "Barre - BARRE" = "Barre"
  /\ cleanClassName "HIIT - Core - hiit - core" = "HIIT - Core"
  /\ cleanClassName "  Cycle - Row " = "Cycle - Row".
Proof.
  destruct cleanClassName_canonical
    as (_ & _ & _ & _ & Hstrip & _ & Htwo & Hfour & _ & _ & Hother).
  split; [|split; [|split]].
  - apply (Hstrip "YOGA" " @ 12").
    exists " ", " ", "12", EmptyString. vm_compute.
    repeat split; congruence.
  - apply (Htwo "Barre - BARRE" "Barre" "BARRE"); reflexivity.
  - apply (Hfour "HIIT - Core - hiit - core" "HIIT" "Core" "hiit" "core");
      reflexivity.
  - apply (Hother "  Cycle - Row "). reflexivity.
Defined.

(** C8, as stated, fails: a second annotation, or a doubled name that is
    itself a collapsed pair, survives one application and is removed by
    the next. *)
Lemma cleanClassName_not_idempotent :
  cleanClassName (cleanClassName "X @ 1 @ 2") <> cleanClassName "X @ 1 @ 2"
  /\ cleanClassName (cleanClassName "A - A - A - A")
     <> cleanClassName "A - A - A - A".
Proof. split; vm_compute; discriminate. Qed.

(** C8, amended.  When the canonical form of a name carries no trailing
    capacity annotation (the removal leaves it alone, see
    [stripAnnotation_fixed_iff]) and is not itself one of the two
    collapsible shapes, canonicalizing it again returns it unchanged. *)
Theorem cleanClassName_idempotent_settled (s : string) :
  stripAnnotation (cleanClassName s) = cleanClassName s ->
  collapsible (Str.split dashSep (cleanClassName s)) = false ->
  cleanClassName (cleanClassName s) = cleanClassName s.
Proof.
  intros Hstrip Hcol.
  rewrite cleanClassName_not_collapsible; rewrite Hstrip; [|exact Hcol].
  apply cleanClassName_trimmed.
Qed.

Lemma cleanClassName_idempotent_settled_witness :
  cleanClassName
    (cleanClassName "PILATES - TIGHT & TONE - PILATES - TIGHT & TONE @ 24")
  = cleanClassName "PILATES - TIGHT & TONE - PILATES - TIGHT & TONE @ 24".
Proof.
  apply (cleanClassName_idempotent_settled
           "PILATES - TIGHT & TONE - PILATES - TIGHT & TONE @ 24");
    vm_compute; reflexivity.
Defined.

(** ** Schema resolution *)

Lemma includes_unfold (s sub : string) :
  Str.includes s sub
  = Str.startsWith s sub
    || match s with
       | EmptyString => false
       | String _ r => Str.includes r sub
       end.
Proof. destruct s; reflexivity. Qed.

(** [includes] is the substring relation. *)
Lemma includes_substring (s sub : string) :
  Str.includes s sub = true <-> exists a b, s = a +:+ sub +:+ b.
Proof.
  split.
  - induction s as [|c r IH]; rewrite includes_unfold; intros H.
    + rewrite orb_false_r in H. apply startsWith_inv in H as [b Hb].
      exists EmptyString, b. exact Hb.
    + apply orb_prop in H as [H | H].
      * apply startsWith_inv in H as [b Hb]. exists EmptyString, b. exact Hb.
      * destruct (IH H) as (a & b & ->). exists (String c a), b. reflexivity.
  - intros (a & b & ->). induction a as [|c a IH].
    + rewrite append_nil_l, includes_unfold, startsWith_app. reflexivity.
    + rewrite append_cons, includes_unfold, IH. apply orb_true_r.
Qed.

Lemma findIndex_None {A : Type} (p : A -> bool) (l : list A) :
  findIndex p l = None <-> forall x, x ∈ l -> p x = false.
Proof.
  induction l as [|x l IH]; simpl.
  - split; [intros _ y Hy; inversion Hy | reflexivity].
  - destruct (p x) eqn:Hx.
    + split; [discriminate|]. intros H. specialize (H x (list_elem_of_here _ _)).
      congruence.
    + destruct (findIndex p l) as [i|]; simpl.
      * split; [discriminate|]. intros H.
        assert (Some i = None) as E; [|discriminate E].
        apply IH. intros y Hy. apply H. now apply list_elem_of_further.
      * split; [|reflexivity]. intros _ y Hy.
        apply elem_of_cons in Hy as [-> | Hy]; [exact Hx|].
        now apply IH.
Qed.

(** [findIndex] returns the first position that satisfies the predicate. *)
Lemma findIndex_Some {A : Type} (p : A -> bool) (l : list A) (i : nat) :
  findIndex p l = Some i <->
  (exists x, l !! i = Some x /\ p x = true)
  /\ (forall j y, j < i -> l !! j = Some y -> p y = false).
Proof.
  revert i. induction l as [|x l IH]; intros i; simpl.
  - split; [discriminate|]. intros [(y & Hy & _) _]. discriminate.
  - destruct (p x) eqn:Hx.
    + split.
      * intros [= <-]. split; [exists x; auto|]. intros j y Hj. lia.
      * intros [(y & Hy & Hpy) Hmin]. destruct i as [|i]; [reflexivity|].
        specialize (Hmin 0 x (Nat.lt_0_succ _) eq_refl). congruence.
    + split.
      * intros H. destruct (findIndex p l) as [k|] eqn:Hk; [|discriminate].
        injection H as <-.
        destruct (proj1 (IH k) eq_refl) as [(y & Hy & Hpy) Hmin]. split.
        -- exists y. auto.
        -- intros [|j] z Hj Hz; simpl in Hz; [congruence|].
           apply (Hmin j); [lia | exact Hz].
      * intros [(y & Hy & Hpy) Hmin]. destruct i as [|i].
        -- simpl in Hy. congruence.
        -- simpl in Hy.
           assert (findIndex p l = Some i) as ->; [|reflexivity].
           apply IH. split; [exists y; auto|].
           intros j z Hj Hz. apply (Hmin (S j)); [lia | exact Hz].
Qed.

Lemma missing_true (headers : list string) (label : string) :
  missing headers label = true <->
  forall h, h ∈ headers -> headerMatches label h = false.
Proof.
  unfold missing. rewrite negb_true_iff. split.
  - intros H h Hh. destruct (headerMatches label h) eqn:E; [|reflexivity].
    assert (existsb (headerMatches label) headers = true) as E'; [|congruence].
    apply existsb_exists. exists h. split; [now apply list_elem_of_In | exact E].
  - intros H. destruct (existsb (headerMatches label) headers) eqn:E; [|reflexivity].
    apply existsb_exists in E as (h & Hh & Hm).
    apply list_elem_of_In in Hh. rewrite (H h Hh) in Hm. discriminate.
Qed.

Lemma getColumnIndex_cases (headers : list string) (label : string) :
  (missing headers label = true
   /\ getColumnIndex headers label = inl (ColumnNotFound label))
  \/ (missing headers label = false
      /\ exists i, getColumnIndex headers label = inr i).
Proof.
  unfold getColumnIndex.
  destruct (findIndex (headerMatches label) headers) as [i|] eqn:E.
  - right. split; [|now exists i].
    apply findIndex_Some in E as [(h & Hh & Hm) _].
    destruct (missing headers label) eqn:M; [|reflexivity].
    rewrite missing_true in M.
    rewrite (M h) in Hm; [discriminate|]. apply list_elem_of_lookup. now exists i.
  - left. split; [|reflexivity]. apply missing_true. now apply findIndex_None.
Qed.

Ltac step_label headers label :=
  let Hm := fresh "Hm" in
  let He := fresh "He" in
  let i := fresh "i" in
  destruct (getColumnIndex_cases headers label) as [[Hm He] | [Hm [i He]]];
  rewrite He, Hm; simpl;
  [ reflexivity | ].

(** The outcome of [resolveIndices]: the first missing label is reported;
    with none missing every field is the position [getColumnIndex] finds
    for its label. *)
Lemma resolveIndices_outcome (headers : list string) :
  match firstMissing headers with
  | Some label => resolveIndices headers = inl (ColumnNotFound label)
  | None =>
      exists ix, resolveIndices headers = inr ix
        /\ getColumnIndex headers "Internal order id" = inr (iOrderId ix)
        /\ getColumnIndex headers "Customer name" = inr (iCustomerName ix)
        /\ getColumnIndex headers "Customer email" = inr (iCustomerEmail ix)
        /\ getColumnIndex headers "Customer phone" = inr (iCustomerPhone ix)
        /\ getColumnIndex headers "Status" = inr (iStatus ix)
        /\ getColumnIndex headers "Source name" = inr (iSourceName ix)
        /\ getColumnIndex headers "Order date" = inr (iOrderDate ix)
        /\ getColumnIndex headers "Order time" = inr (iOrderTime ix)
        /\ getColumnIndex headers "Line item Name" = inr (iClassName ix)
        /\ getColumnIndex headers "Line item Quantity" = inr (iQuantity ix)
        /\ getColumnIndex headers "Line item Price" = inr (iPrice ix)
        /\ getColumnIndex headers "Line item Subtotal"
           = inr (iLineItemSubtotal ix)
        /\ getColumnIndex headers "Sub total" = inr (iOrderSubTotal ix)
        /\ getColumnIndex headers "Tax Amount" = inr (iOrderTaxAmount ix)
        /\ getColumnIndex headers "Total Amount" = inr (iOrderTotalAmount ix)
  end.
Proof.
  unfold firstMissing, requiredLabels, resolveIndices. simpl.
  step_label headers "Internal order id".
  step_label headers "Customer name".
  step_label headers "Customer email".
  step_label headers "Customer phone".
  step_label headers "Status".
  step_label headers "Source name".
  step_label headers "Order date".
  step_label headers "Order time".
  step_label headers "Line item Name".
  step_label headers "Line item Quantity".
  step_label headers "Line item Price".
  step_label headers "Line item Subtotal".
  step_label headers "Sub total".
  step_label headers "Tax Amount".
  step_label headers "Total Amount".
  eexists. split; [reflexivity|]. simpl. repeat split.
Qed.

Lemma parseCSVData_unfold (csvText : string) (filterCity : option City) :
  parseCSVData csvText filterCity
  = match resolveIndices (headersOf csvText) with
    | inl e => inl e
    | inr ix =>
        inr (pass2 ix
               (pass1 ix (targetSourceOf filterCity) (dataLinesOf csvText))
               (dataLinesOf csvText))
    end.
Proof.
  unfold parseCSVData. destruct (resolveIndices (headersOf csvText)); reflexivity.
Qed.

Lemma resolveIndices_error (headers : list string) (e : ParseError) :
  resolveIndices headers = inl e <->
  exists label, firstMissing headers = Some label /\ e = ColumnNotFound label.
Proof.
  pose proof (resolveIndices_outcome headers) as H.
  destruct (firstMissing headers) as [label|].
  - rewrite H. split.
    + intros [= <-]. now exists label.
    + intros (l & [= <-] & ->). reflexivity.
  - destruct H as (ix & -> & _). split; [discriminate|].
    intros (l & Hl & _). discriminate.
Qed.

Lemma firstMissing_Some (headers : list string) (label : string) :
  firstMissing headers = Some label ->
  label ∈ requiredLabels
  /\ forall h, h ∈ headers -> headerMatches label h = false.
Proof.
  unfold firstMissing. intros H. apply find_some in H as [Hin Hm].
  split; [now apply list_elem_of_In | now apply missing_true].
Qed.

Lemma firstMissing_exists (headers : list string) (label : string) :
  label ∈ requiredLabels ->
  (forall h, h ∈ headers -> headerMatches label h = false) ->
  exists l, firstMissing headers = Some l.
Proof.
  intros Hin Hm. unfold firstMissing.
  destruct (List.find (missing headers) requiredLabels) as [l|] eqn:E;
    [now exists l|].
  apply list_elem_of_In in Hin.
  pose proof (find_none _ _ E label Hin) as Hn.
  apply missing_true in Hm. congruence.
Qed.


(** ** Pass 1 *)

Lemma isValidSource_sourceOk (targetSource : option string) (source : string) :
  isValidSource targetSource source = true <-> sourceOk targetSource source.
Proof.
  unfold isValidSource, sourceOk. destruct targetSource as [t|].
  - apply String.eqb_eq.
  - rewrite orb_true_iff, !String.eqb_eq. reflexivity.
Qed.

Section Pass1.

Context (ix : ColumnIndices) (targetSource : option string).

Lemma pass1Step_qualifies (st : Pass1State) (line : string) :
  pass1Step ix targetSource st line
  = if qualifies ix targetSource (parseCSVLine line) then
      let oid := rowOrderId ix (parseCSVLine line) in
      {| validOrderIds := {[ oid ]} ∪ validOrderIds st;
         orderTotals :=
           match orderTotals st !! oid with
           | Some _ => orderTotals st
           | None => <[ oid := snapshotOfLine ix line ]> (orderTotals st)
           end |}
    else st.
Proof.
  unfold pass1Step, qualifies, snapshotOfLine, rowOrderId, rowSource, rowStatus.
  destruct (isShort ix (parseCSVLine line)); [reflexivity|].
  destruct (Str.isEmpty (cell (parseCSVLine line) (iOrderId ix))
            || Str.isEmpty (cell (parseCSVLine line) (iSourceName ix)));
    [reflexivity|].
  simpl.
  destruct (isValidSource targetSource (cell (parseCSVLine line) (iSourceName ix))
            && String.eqb
                 (Str.toLowerCase (cell (parseCSVLine line) (iStatus ix)))
                 "completed"
            && negb (Str.isEmpty (cell (parseCSVLine line) (iOrderId ix))));
    reflexivity.
Qed.

(** An existing snapshot is never replaced. *)
Lemma pass1Step_keeps (st : Pass1State) (line : string) (oid : string) (snap : OrderSnapshot) :
  orderTotals st !! oid = Some snap ->
  orderTotals (pass1Step ix targetSource st line) !! oid = Some snap.
Proof.
  intros H. rewrite pass1Step_qualifies.
  destruct (qualifies ix targetSource (parseCSVLine line)); [|exact H].
  simpl.
  destruct (orderTotals st !! rowOrderId ix (parseCSVLine line)) eqn:E;
    [exact H|].
  rewrite lookup_insert_ne; [exact H|]. congruence.
Qed.

Lemma pass1_valid (dataLines : list string) : forall (st : Pass1State) (oid : string),
  oid ∈ validOrderIds (fold_left (pass1Step ix targetSource) dataLines st)
  <-> oid ∈ validOrderIds st
      \/ exists line, line ∈ dataLines
           /\ qualifiesFor ix targetSource oid line = true.
Proof.
  induction dataLines as [|line rest IH]; intros st oid; simpl.
  - split; [now left|]. intros [H | (l & Hl & _)]; [exact H|].
    now apply elem_of_nil in Hl.
  - rewrite IH, pass1Step_qualifies. unfold qualifiesFor.
    destruct (qualifies ix targetSource (parseCSVLine line)) eqn:Q; simpl.
    + rewrite elem_of_union, elem_of_singleton. split.
      * intros [[-> | H] | (l & Hl & Hq)].
        -- right. exists line. split; [apply list_elem_of_here|].
           rewrite Q. simpl. apply String.eqb_refl.
        -- now left.
        -- right. exists l. split; [now apply list_elem_of_further | exact Hq].
      * intros [H | (l & Hl & Hq)]; [now left; right|].
        apply elem_of_cons in Hl as [-> | Hl].
        -- rewrite Q in Hq. simpl in Hq. apply String.eqb_eq in Hq.
           left; left. now symmetry.
        -- right. now exists l.
    + split.
      * intros [H | (l & Hl & Hq)]; [now left|].
        right. exists l. split; [now apply list_elem_of_further | exact Hq].
      * intros [H | (l & Hl & Hq)]; [now left|].
        apply elem_of_cons in Hl as [-> | Hl].
        -- rewrite Q in Hq. discriminate.
        -- right. now exists l.
Qed.

Lemma pass1_totals (dataLines : list string) : forall (st : Pass1State) (oid : string),
  orderTotals (fold_left (pass1Step ix targetSource) dataLines st) !! oid
  = match orderTotals st !! oid with
    | Some snap => Some snap
    | None => firstQualifying ix targetSource oid dataLines
    end.
Proof.
  induction dataLines as [|line rest IH]; intros st oid; simpl.
  - now destruct (orderTotals st !! oid).
  - rewrite IH. unfold firstQualifying. simpl.
    destruct (orderTotals st !! oid) as [snap|] eqn:E.
    + now rewrite (pass1Step_keeps _ _ _ _ E).
    + rewrite pass1Step_qualifies. unfold qualifiesFor at 2.
      destruct (qualifies ix targetSource (parseCSVLine line)) eqn:Q; simpl.
      * destruct (String.eqb_spec (rowOrderId ix (parseCSVLine line)) oid)
          as [Heq | Hne].
        -- rewrite Heq, E. now rewrite lookup_insert_eq.
        -- destruct (orderTotals st !! rowOrderId ix (parseCSVLine line));
             [now rewrite E|].
           rewrite lookup_insert_ne by exact Hne. now rewrite E.
      * now rewrite E.
Qed.

Lemma pass1_valid_iff (dataLines : list string) (oid : string) :
  oid ∈ validOrderIds (pass1 ix targetSource dataLines)
  <-> exists line, line ∈ dataLines
        /\ qualifiesFor ix targetSource oid line = true.
Proof.
  unfold pass1. rewrite pass1_valid. simpl. split.
  - intros [H | H]; [|exact H]. now apply elem_of_empty in H.
  - intros H. now right.
Qed.

Lemma pass1_totals_first (dataLines : list string) (oid : string) :
  orderTotals (pass1 ix targetSource dataLines) !! oid
  = firstQualifying ix targetSource oid dataLines.
Proof. unfold pass1. rewrite pass1_totals. simpl. now rewrite lookup_empty. Qed.

Lemma qualifiesFor_source (oid line : string) :
  qualifiesFor ix targetSource oid line = true ->
  isValidSource targetSource (rowSource ix (parseCSVLine line)) = true.
Proof.
  unfold qualifiesFor, qualifies. intros H.
  apply andb_prop in H as [H _]. apply andb_prop in H as [_ H].
  apply andb_prop in H as [H _]. apply andb_prop in H as [H _]. exact H.
Qed.

(** The snapshot of an order carries the source of a qualifying line. *)
Lemma firstQualifying_Some (oid : string) (dataLines : list string) (snap : OrderSnapshot) :
  firstQualifying ix targetSource oid dataLines = Some snap ->
  exists line, line ∈ dataLines
    /\ qualifiesFor ix targetSource oid line = true
    /\ snap = snapshotOfLine ix line
    /\ sourceOk targetSource (snapSourceName snap).
Proof.
  unfold firstQualifying. intros H.
  destruct (List.find (qualifiesFor ix targetSource oid) dataLines)
    as [line|] eqn:E; [|discriminate].
  injection H as <-. apply find_some in E as [Hin Hq].
  exists line. split; [now apply list_elem_of_In|].
  split; [exact Hq|]. split; [reflexivity|].
  apply isValidSource_sourceOk. simpl.
  exact (qualifiesFor_source _ _ Hq).
Qed.

End Pass1.

(** ** Pass 2 *)

Lemma targetSourceOf_Some (c : City) :
  targetSourceOf (Some c) = Some (cityLabel c).
Proof. destruct c; reflexivity. Qed.

(** What an iteration of the second loop that pushes a record has
    established. *)
Lemma pass2Row_Some (ix : ColumnIndices) (st : Pass1State)
  (dataLines : list string) (line : string) (o : ParsedOrder) :
  pass2Row ix st dataLines line = Some o ->
  let values := parseCSVLine line in
  let who := resolveIdentity ix dataLines (rowOrderId ix values) values in
  isShort ix values = false
  /\ rowOrderId ix values <> EmptyString
  /\ rowOrderId ix values ∈ validOrderIds st
  /\ cell values (iClassName ix) <> EmptyString
  /\ idName who <> EmptyString
  /\ idEmail who <> EmptyString
  /\ exists orderData,
       orderTotals st !! rowOrderId ix values = Some orderData
       /\ o = recordOf ix values orderData who.
Proof.
  unfold pass2Row, rowOrderId. intros H. cbv zeta.
  destruct (isShort ix (parseCSVLine line)); [discriminate|].
  destruct (Str.isEmpty (cell (parseCSVLine line) (iOrderId ix))) eqn:Eo;
    [discriminate|].
  simpl in H. case_bool_decide as Hv; [|discriminate]. simpl in H.
  destruct (Str.isEmpty (cell (parseCSVLine line) (iClassName ix))) eqn:Ec;
    [discriminate|].
  destruct (orderTotals st !! cell (parseCSVLine line) (iOrderId ix))
    as [orderData|] eqn:Et; [|discriminate].
  destruct (Str.isEmpty
              (idName (resolveIdentity ix dataLines
                         (cell (parseCSVLine line) (iOrderId ix))
                         (parseCSVLine line)))) eqn:En; [discriminate|].
  destruct (Str.isEmpty
              (idEmail (resolveIdentity ix dataLines
                          (cell (parseCSVLine line) (iOrderId ix))
                          (parseCSVLine line)))) eqn:Ee; [discriminate|].
  simpl in H. injection H as <-.
  apply isEmpty_false in Eo, Ec, En, Ee.
  repeat split; try assumption.
  exists orderData. split; reflexivity.
Qed.


Lemma pass2_elem (ix : ColumnIndices) (st : Pass1State)
  (dataLines : list string) (o : ParsedOrder) :
  o ∈ pass2 ix st dataLines <->
  exists line, line ∈ dataLines /\ pass2Row ix st dataLines line = Some o.
Proof. unfold pass2. apply list_elem_of_omap. Qed.

(** Every record pushed by the second loop copies the snapshot of its
    order, which is that of the first qualifying line. *)
Lemma pass2_snapshot (ix : ColumnIndices) (targetSource : option string)
  (dataLines : list string) (o : ParsedOrder) :
  o ∈ pass2 ix (pass1 ix targetSource dataLines) dataLines ->
  orderId o ∈ validOrderIds (pass1 ix targetSource dataLines)
  /\ exists snap,
       orderTotals (pass1 ix targetSource dataLines) !! orderId o = Some snap
       /\ firstQualifying ix targetSource (orderId o) dataLines = Some snap
       /\ orderSubTotal o = snapSubTotal snap
       /\ orderTaxAmount o = snapTaxAmount snap
       /\ orderTotalAmount o = snapTotalAmount snap
       /\ sourceName o = snapSourceName snap.
Proof.
  intros H. apply pass2_elem in H as (line & Hin & Hrow).
  apply pass2Row_Some in Hrow as (_ & _ & Hv & _ & _ & _ & snap & Ht & ->).
  simpl. split; [exact Hv|]. exists snap.
  split; [exact Ht|]. rewrite pass1_totals_first in Ht.
  repeat split; try reflexivity. exact Ht.
Qed.

(** C2.  After the first pass the snapshot stored for an order id is
    built from the cells of the first line, in input order, that qualifies
    with that order id: its three amounts are read from the order
    subtotal, tax amount and total amount cells of that line and its
    source name is the trimmed source cell of that line; a stored snapshot
    is never replaced by a later step; and every emitted record carries the
    subtotal, tax amount, total amount and source name read from the first
    qualifying line of its order id, whatever its own row holds. *)
Theorem snapshot_first_seen_wins (csvText : string) (filterCity : option City)
  (ix : ColumnIndices) :
  resolveIndices (headersOf csvText) = inr ix ->
  let target := targetSourceOf filterCity in
  let dataLines := dataLinesOf csvText in
  (forall oid : string,
      orderTotals (pass1 ix target dataLines) !! oid
      = match List.find (qualifiesFor ix target oid) dataLines with
        | Some line =>
            let values := parseCSVLine line in
            Some {| snapSubTotal := money values (iOrderSubTotal ix);
                    snapTaxAmount := money values (iOrderTaxAmount ix);
                    snapTotalAmount := money values (iOrderTotalAmount ix);
                    snapSourceName := cell values (iSourceName ix) |}
        | None => None
        end)
  /\ (forall (st : Pass1State) (line oid : string) (snap : OrderSnapshot),
        orderTotals st !! oid = Some snap ->
        orderTotals (pass1Step ix target st line) !! oid = Some snap)
  /\ exists orders : list ParsedOrder,
       parseCSVData csvText filterCity = inr orders
       /\ forall o : ParsedOrder, o ∈ orders ->
            exists line : string,
              List.find (qualifiesFor ix target (orderId o)) dataLines
              = Some line
              /\ orderSubTotal o
                 = money (parseCSVLine line) (iOrderSubTotal ix)
              /\ orderTaxAmount o
                 = money (parseCSVLine line) (iOrderTaxAmount ix)
              /\ orderTotalAmount o
                 = money (parseCSVLine line) (iOrderTotalAmount ix)
              /\ sourceName o = cell (parseCSVLine line) (iSourceName ix).
Proof.
  intros Hix target dataLines. split; [|split].
  - intros oid. rewrite pass1_totals_first. unfold firstQualifying.
    destruct (List.find (qualifiesFor ix target oid) dataLines);
      reflexivity.
  - intros st line oid snap. apply pass1Step_keeps.
  - eexists. split.
    + rewrite parseCSVData_unfold, Hix. reflexivity.
    + intros o Ho.
      apply pass2_snapshot in Ho as (_ & snap & _ & Hfirst & -> & -> & -> & ->).
      unfold firstQualifying in Hfirst. fold target dataLines in Hfirst.
      destruct (List.find (qualifiesFor ix target (orderId o)) dataLines)
        as [line|]; [|discriminate].
      injection Hfirst as <-. exists line. repeat split.
Qed.

Lemma snapshot_first_seen_wins_witness :
  resolveIndices (headersOf (csvOf [rowDC; rowDCAgain])) = inr sampleIndices
  /\ money (parseCSVLine rowDCAgain) (iOrderSubTotal sampleIndices)
     = Num (9900 # 100)
  /\ orderTotals
       (pass1 sampleIndices (targetSourceOf (Some dc))
          (dataLinesOf (csvOf [rowDC; rowDCAgain]))) !! "1"
     = Some {| snapSubTotal := Num (2000 # 100);
               snapTaxAmount := Num (200 # 100);
               snapTotalAmount := Num (2200 # 100);
               snapSourceName := "Ebony Fit Weekend - DC" |}
  /\ parseCSVData (csvOf [rowDC; rowDCAgain]) (Some dc)
     = inr [dcRecord; dcAgainRecord]
  /\ orderSubTotal dcAgainRecord = Num (2000 # 100)
  /\ orderTaxAmount dcAgainRecord = Num (200 # 100)
  /\ orderTotalAmount dcAgainRecord = Num (2200 # 100)
  /\ sourceName dcAgainRecord = "Ebony Fit Weekend - DC".
Proof.
  assert (H : resolveIndices (headersOf (csvOf [rowDC; rowDCAgain]))
              = inr sampleIndices) by (vm_compute; reflexivity).
  assert (E : parseCSVData (csvOf [rowDC; rowDCAgain]) (Some dc)
              = inr [dcRecord; dcAgainRecord]) by (vm_compute; reflexivity).
  split; [exact H|]. split; [vm_compute; reflexivity|].
  destruct (snapshot_first_seen_wins (csvOf [rowDC; rowDCAgain]) (Some dc)
              sampleIndices H) as (Hsnap & _ & orders & Hparse & Hrec).
  split; [rewrite (Hsnap "1"); vm_compute; reflexivity|].
  split; [exact E|].
  assert (Hin : dcAgainRecord ∈ orders).
  { rewrite E in Hparse. injection Hparse as <-.
    apply list_elem_of_further, list_elem_of_here. }
  destruct (Hrec dcAgainRecord Hin) as (line & Hfind & -> & -> & -> & ->).
  vm_compute in Hfind. injection Hfind as <-.
  repeat split; vm_compute; reflexivity.
Defined.

(** ** The qualification rule *)

Lemma qualifies_iff (ix : ColumnIndices) (targetSource : option string)
  (values : list string) :
  qualifies ix targetSource values = true <->
  isShort ix values = false
  /\ rowOrderId ix values <> EmptyString
  /\ rowSource ix values <> EmptyString
  /\ isValidSource targetSource (rowSource ix values) = true
  /\ eqIgnoreCase (rowStatus ix values) "completed" = true.
Proof.
  unfold qualifies, eqIgnoreCase.
  change (Str.toLowerCase "completed") with "completed".
  rewrite !andb_true_iff, !negb_true_iff, orb_false_iff, !isEmpty_false.
  tauto.
Qed.

Lemma isValidSource_nonempty (filterCity : option City) (source : string) :
  isValidSource (targetSourceOf filterCity) source = true ->
  source <> EmptyString.
Proof.
  intros H ->. destruct filterCity as [[]|]; vm_compute in H; discriminate.
Qed.

(** C3.  The first loop skips a data row that has too few cells, an empty
    order id or an empty source name: such a row does not qualify and
    leaves the state unchanged.  A row that is not skipped qualifies if and
    only if its source name is the requested city's label (with a filter)
    or one of the two known labels (without one), and its status equals
    completed up to case.  The loop records the order id of a row exactly
    when the row qualifies and otherwise leaves its state unchanged.
    Completed, completed and COMPLETED are all accepted, two statuses with
    the same lower-casing are treated alike, and a status whose
    lower-casing is not completed disqualifies the row. *)
Theorem qualification_rule (ix : ColumnIndices) (filterCity : option City)
  (line : string) :
  let values := parseCSVLine line in
  let target := targetSourceOf filterCity in
  (isShort ix values = true
   \/ rowOrderId ix values = EmptyString
   \/ rowSource ix values = EmptyString ->
   qualifies ix target values = false
   /\ forall st : Pass1State, pass1Step ix target st line = st)
  /\ (isShort ix values = false ->
      rowOrderId ix values <> EmptyString ->
      (qualifies ix target values = true <->
         match filterCity with
         | Some c => rowSource ix values = cityLabel c
         | None => rowSource ix values = labelDC
                   \/ rowSource ix values = labelAtlanta
         end
         /\ eqIgnoreCase (rowStatus ix values) "completed" = true))
  /\ (forall st : Pass1State,
        pass1Step ix target st line
        = if qualifies ix target values then
            {| validOrderIds := {[ rowOrderId ix values ]} ∪ validOrderIds st;
               orderTotals :=
                 match orderTotals st !! rowOrderId ix values with
                 | Some _ => orderTotals st
                 | None =>
                     <[ rowOrderId ix values := snapshotOfLine ix line ]>
                       (orderTotals st)
                 end |}
          else st)
  /\ (forall s : string, s ∈ ["Completed"; "completed"; "COMPLETED"] ->
        eqIgnoreCase s "completed" = true)
  /\ (forall s s' : string, Str.toLowerCase s = Str.toLowerCase s' ->
        eqIgnoreCase s "completed" = eqIgnoreCase s' "completed")
  /\ (Str.toLowerCase (rowStatus ix values) <> "completed" ->
      qualifies ix target values = false).
Proof.
  intros values target.
  assert (Hskip : isShort ix values = true
                  \/ rowOrderId ix values = EmptyString
                  \/ rowSource ix values = EmptyString ->
                  qualifies ix target values = false).
  { intros H. destruct (qualifies ix target values) eqn:Hq; [|reflexivity].
    apply qualifies_iff in Hq as (Hlong & Hid & Hsrc & _).
    destruct H as [H | [H | H]]; congruence. }
  split; [|split; [|split; [|split; [|split]]]].
  - intros H. split; [exact (Hskip H)|].
    intros st. rewrite pass1Step_qualifies. fold values.
    now rewrite (Hskip H).
  - intros Hlong Hid. rewrite qualifies_iff. split.
    + intros (_ & _ & _ & Hsrc & Hst). split; [|exact Hst].
      apply isValidSource_sourceOk in Hsrc.
      destruct filterCity as [c|]; [|exact Hsrc].
      unfold target in Hsrc. rewrite targetSourceOf_Some in Hsrc. exact Hsrc.
    + intros [Hsrc Hst].
      assert (Hv : isValidSource target (rowSource ix values) = true).
      { apply isValidSource_sourceOk. destruct filterCity as [c|]; [|exact Hsrc].
        unfold target. rewrite targetSourceOf_Some. exact Hsrc. }
      repeat split; try assumption.
      exact (isValidSource_nonempty _ _ Hv).
  - intros st. apply pass1Step_qualifies.
  - intros s Hs.
    repeat (apply elem_of_cons in Hs as [-> | Hs]; [reflexivity|]).
    now apply elem_of_nil in Hs.
  - intros s s' E. unfold eqIgnoreCase. now rewrite E.
  - intros Hst. destruct (qualifies ix target values) eqn:Hq; [|reflexivity].
    apply qualifies_iff in Hq as (_ & _ & _ & _ & Hc).
    unfold eqIgnoreCase in Hc. apply String.eqb_eq in Hc.
    exfalso. apply Hst. exact Hc.
Qed.

Lemma qualification_rule_witness :
  qualifies sampleIndices (targetSourceOf (Some dc)) (parseCSVLine rowDC)
  = true
  /\ pass1Step sampleIndices (targetSourceOf (Some dc)) pass1Init rowShort
     = pass1Init
  /\ pass1Step sampleIndices (targetSourceOf (Some dc)) pass1Init rowNoId
     = pass1Init.
Proof.
  split; [|split].
  - apply (proj1 (proj2 (qualification_rule sampleIndices (Some dc) rowDC)));
      [reflexivity | discriminate | split; reflexivity].
  - apply (proj1 (qualification_rule sampleIndices (Some dc) rowShort)).
    left. reflexivity.
  - apply (proj1 (qualification_rule sampleIndices (Some dc) rowNoId)).
    right. left. reflexivity.
Defined.

(** ** Scoping of the output *)




(** C10.  Without a filter the accepted source names are exactly the two
    labels Ebony Fit Weekend - DC and Ebony Fit Weekend - Atlanta; every
    record emitted without a filter carries one of them as its source
    name; and an input none of whose data rows carries one of them, such
    as one labelled Ebony Fit Weekend - Houston, parses to the empty
    list. *)
Theorem unfiltered_labels :
  (forall source : string,
      isValidSource (targetSourceOf None) source = true <->
      source = "Ebony Fit Weekend - DC"
      \/ source = "Ebony Fit Weekend - Atlanta")
  /\ (forall (csvText : string) (orders : list ParsedOrder) (o : ParsedOrder),
        parseCSVData csvText None = inr orders ->
        o ∈ orders ->
        sourceName o = "Ebony Fit Weekend - DC"
        \/ sourceName o = "Ebony Fit Weekend - Atlanta")
  /\ (forall (csvText : string) (ix : ColumnIndices),
        resolveIndices (headersOf csvText) = inr ix ->
        forallb
          (fun line =>
             negb (isValidSource None (rowSource ix (parseCSVLine line))))
          (dataLinesOf csvText) = true ->
        parseCSVData csvText None = inr [])
  /\ parseCSVData (csvOf [rowHouston]) None = inr [].
Proof.
  split; [|split; [|split]].
  - intros source. apply (isValidSource_sourceOk None).
  - intros csvText orders o Hparse Ho.
    rewrite parseCSVData_unfold in Hparse.
    destruct (resolveIndices (headersOf csvText)) as [e|ix]; [discriminate|].
    injection Hparse as <-.
    apply pass2_snapshot in Ho as (_ & snap & _ & Hfirst & _ & _ & _ & ->).
    apply firstQualifying_Some in Hfirst as (_ & _ & _ & _ & Hok).
    exact Hok.
  - intros csvText ix Hix Hall.
    rewrite parseCSVData_unfold, Hix. f_equal.
    apply elem_of_nil_inv. intros o Ho.
    apply pass2_snapshot in Ho as (Hv & _).
    apply pass1_valid_iff in Hv as (l & Hl & Hq).
    apply qualifiesFor_source in Hq.
    rewrite forallb_forall in Hall.
    apply list_elem_of_In in Hl. apply Hall in Hl.
    change (targetSourceOf None) with (@None string) in Hq.
    rewrite Hq in Hl. discriminate.
  - vm_compute. reflexivity.
Qed.

Lemma unfiltered_labels_witness :
  parseCSVData (csvOf [rowHouston; rowHouston]) None = inr [].
Proof.
  destruct unfiltered_labels as (_ & _ & Hempty & _).
  apply (Hempty (csvOf [rowHouston; rowHouston]) sampleIndices);
    vm_compute; reflexivity.
Defined.

(** ** The customer fallback *)

(** The inner loop returns the first line that passes its test. *)
Lemma findMainRow_find (ix : ColumnIndices) (oid : string)
  (dataLines : list string) :
  findMainRow ix oid dataLines
  = parseCSVLine <$> List.find (isMainRowFor ix oid) dataLines.
Proof.
  induction dataLines as [|line rest IH]; simpl; [reflexivity|].
  unfold isMainRowFor at 1, rowOrderId.
  destruct (isShort ix (parseCSVLine line)); simpl; [exact IH|].
  destruct (String.eqb (cell (parseCSVLine line) (iOrderId ix)) oid
            && negb (Str.isEmpty (cell (parseCSVLine line) (iCustomerName ix))));
    [reflexivity | exact IH].
Qed.

Lemma pass2Row_identity_blank (ix : ColumnIndices) (st : Pass1State)
  (dataLines : list string) (line : string) :
  let values := parseCSVLine line in
  let who := resolveIdentity ix dataLines (rowOrderId ix values) values in
  idName who = EmptyString \/ idEmail who = EmptyString ->
  pass2Row ix st dataLines line = None.
Proof.
  intros values who Hblank.
  destruct (pass2Row ix st dataLines line) as [o|] eqn:E; [|reflexivity].
  apply pass2Row_Some in E as (_ & _ & _ & _ & Hn & He & _).
  destruct Hblank; contradiction.
Qed.

(** C4, as stated, fails: the row below has no customer name, the first
    row of its order with a name has no email, and still the row is
    emitted, with that row's name and its own email. *)
Lemma fallback_keeps_own_email :
  exists o : ParsedOrder,
    parseCSVData (csvOf [rowNameOnly; rowEmailOnly]) (Some dc) = inr [o]
    /\ pass2Row sampleIndices
         (pass1 sampleIndices (targetSourceOf (Some dc))
            (dataLinesOf (csvOf [rowNameOnly; rowEmailOnly])))
         (dataLinesOf (csvOf [rowNameOnly; rowEmailOnly])) rowEmailOnly
       = Some o
    /\ cell (parseCSVLine rowEmailOnly) (iCustomerName sampleIndices)
       = EmptyString
    /\ List.find (isMainRowFor sampleIndices "1")
         (dataLinesOf (csvOf [rowNameOnly; rowEmailOnly]))
       = Some rowNameOnly
    /\ cell (parseCSVLine rowNameOnly) (iCustomerEmail sampleIndices)
       = EmptyString
    /\ customerName o = "Bob"
    /\ customerEmail o = "b@x.org".
Proof.
  eexists. split; [vm_compute; reflexivity|].
  repeat split; vm_compute; reflexivity.
Qed.

(** C4, amended.  For a row whose own customer name or email is blank:
    when some data line that is long enough carries the row's order id
    and a non-blank customer name, the name, phone, status, order date
    and order time are those of the first such line, and the email is
    that line's email when it is non-blank and the row's own email
    otherwise; when there is no such line the row keeps its own fields.
    An emitted record carries the fields so resolved, and a row whose
    resolved name or email is blank is dropped. *)
Theorem customer_fallback (ix : ColumnIndices) (st : Pass1State)
  (dataLines : list string) (line : string) :
  let values := parseCSVLine line in
  let own := ownIdentity ix values in
  let who := resolveIdentity ix dataLines (rowOrderId ix values) values in
  idName own = EmptyString \/ idEmail own = EmptyString ->
  (forall mainLine : string,
      List.find (isMainRowFor ix (rowOrderId ix values)) dataLines
      = Some mainLine ->
      let m := parseCSVLine mainLine in
      idName who = cell m (iCustomerName ix)
      /\ idEmail who = Str.orElse (cell m (iCustomerEmail ix)) (idEmail own)
      /\ idPhone who = cell m (iCustomerPhone ix)
      /\ idStatus who = cell m (iStatus ix)
      /\ idDate who = cell m (iOrderDate ix)
      /\ idTime who = cell m (iOrderTime ix))
  /\ (List.find (isMainRowFor ix (rowOrderId ix values)) dataLines = None ->
      who = own)
  /\ (forall o : ParsedOrder,
        pass2Row ix st dataLines line = Some o ->
        customerName o = idName who
        /\ customerEmail o = idEmail who
        /\ customerPhone o = idPhone who
        /\ status o = idStatus who
        /\ orderDate o = idDate who
        /\ orderTime o = idTime who)
  /\ (idName who = EmptyString \/ idEmail who = EmptyString ->
      pass2Row ix st dataLines line = None).
Proof.
  intros values own who Hblank.
  assert (Hb : Str.isEmpty (idName own) || Str.isEmpty (idEmail own) = true).
  { apply orb_true_iff. destruct Hblank as [H | H]; [left | right];
      now apply isEmpty_true. }
  split; [|split; [|split]].
  - intros mainLine Hfind m. unfold who, resolveIdentity.
    fold values. fold own. rewrite Hb, findMainRow_find, Hfind. simpl.
    repeat split.
  - intros Hfind. unfold who, resolveIdentity.
    fold values. fold own. rewrite Hb, findMainRow_find, Hfind. reflexivity.
  - intros o Ho.
    apply pass2Row_Some in Ho as (_ & _ & _ & _ & _ & _ & snap & _ & ->).
    repeat split.
  - apply pass2Row_identity_blank.
Qed.

Lemma customer_fallback_witness :
  idName
    (resolveIdentity sampleIndices [rowNameOnly; rowEmailOnly]
       (rowOrderId sampleIndices (parseCSVLine rowEmailOnly))
       (parseCSVLine rowEmailOnly))
  = cell (parseCSVLine rowNameOnly) (iCustomerName sampleIndices).
Proof.
  assert (Hblank : idName (ownIdentity sampleIndices (parseCSVLine rowEmailOnly))
                   = EmptyString
                   \/ idEmail (ownIdentity sampleIndices
                                 (parseCSVLine rowEmailOnly)) = EmptyString)
    by (left; vm_compute; reflexivity).
  apply (proj1 (customer_fallback sampleIndices pass1Init
                  [rowNameOnly; rowEmailOnly] rowEmailOnly Hblank)
           rowNameOnly).
  vm_compute. reflexivity.
Defined.

(** ** Binary64: rounding *)

Section PowersOfTwo.
Local Open Scope Q_scope.

Lemma pow2_pos (e : Z) : 0 < 2 ^ e.
Proof. apply Qpower_0_lt. reflexivity. Qed.

Lemma pow2_add (a b : Z) : 2 ^ (a + b) == 2 ^ a * 2 ^ b.
Proof. apply Qpower_plus. discriminate. Qed.

Lemma pow2_succ (a : Z) : 2 ^ (a + 1) == 2 * 2 ^ a.
Proof. rewrite pow2_add. change (2 ^ 1) with 2. ring. Qed.

Lemma pow2_pred (a : Z) : 2 ^ (a - 1) == 2 ^ a / 2.
Proof.
  assert (H : 2 ^ a == 2 * 2 ^ (a - 1)).
  { rewrite <- pow2_succ. now replace (a - 1 + 1)%Z with a by lia. }
  rewrite H. field.
Qed.

Lemma pow2_le (a b : Z) : (a <= b)%Z -> 2 ^ a <= 2 ^ b.
Proof. intros H. apply Qpower_le_compat_l; [exact H | discriminate]. Qed.

Lemma pow2_lt (a b : Z) : (a < b)%Z -> 2 ^ a < 2 ^ b.
Proof. intros H. apply Qpower_lt_compat_l; [exact H | reflexivity]. Qed.

Lemma pow2_lt_inv (a b : Z) : 2 ^ a < 2 ^ b -> (a < b)%Z.
Proof. intros H. apply (Qpower_lt_compat_l_inv 2); [exact H | reflexivity]. Qed.

Lemma pow2_inject (n : Z) : (0 <= n)%Z -> inject_Z (2 ^ n) == 2 ^ n.
Proof. intros H. now rewrite Zpower_Qpower. Qed.

Lemma inject_Z_le (a b : Z) : (a <= b)%Z -> inject_Z a <= inject_Z b.
Proof. intros H. now rewrite <- Zle_Qle. Qed.

Lemma inject_Z_lt (a b : Z) : (a < b)%Z -> inject_Z a < inject_Z b.
Proof. intros H. now rewrite <- Zlt_Qlt. Qed.

End PowersOfTwo.

Section DigitCount.
Local Open Scope Z_scope.

Lemma digits2_pos_bounds (m : positive) :
  2 ^ (Zpos (digits2_pos m) - 1) <= Zpos m < 2 ^ Zpos (digits2_pos m).
Proof.
  induction m as [m IH|m IH|]; cbn [digits2_pos].
  - rewrite Pos2Z.inj_succ, (Pos2Z.inj_xI m).
    replace (Z.succ (Zpos (digits2_pos m)) - 1)
      with (Z.succ (Zpos (digits2_pos m) - 1)) by lia.
    rewrite !Z.pow_succ_r by lia.
    generalize dependent (2 ^ (Zpos (digits2_pos m) - 1)).
    generalize dependent (2 ^ Zpos (digits2_pos m)). intros; lia.
  - rewrite Pos2Z.inj_succ, (Pos2Z.inj_xO m).
    replace (Z.succ (Zpos (digits2_pos m)) - 1)
      with (Z.succ (Zpos (digits2_pos m) - 1)) by lia.
    rewrite !Z.pow_succ_r by lia.
    generalize dependent (2 ^ (Zpos (digits2_pos m) - 1)).
    generalize dependent (2 ^ Zpos (digits2_pos m)). intros; lia.
  - vm_compute. split; [discriminate | reflexivity].
Qed.

(** The number of binary digits is determined by the enclosing powers of
    two. *)
Lemma digits2_pos_unique (m : positive) (d : Z) :
  2 ^ (d - 1) <= Zpos m < 2 ^ d -> 0 < d -> Zpos (digits2_pos m) = d.
Proof.
  intros [Hlo Hhi] Hd. pose proof (digits2_pos_bounds m) as [Hlo' Hhi'].
  destruct (Z.lt_trichotomy (Zpos (digits2_pos m)) d) as [H | [H | H]];
    [exfalso | exact H | exfalso].
  - assert (2 ^ Zpos (digits2_pos m) <= 2 ^ (d - 1))
      by (apply Z.pow_le_mono_r; lia).
    lia.
  - assert (2 ^ d <= 2 ^ (Zpos (digits2_pos m) - 1))
      by (apply Z.pow_le_mono_r; lia).
    lia.
Qed.

End DigitCount.

Section ShiftRight.
Local Open Scope Q_scope.

Lemma inject_Z_xO (p : positive) :
  inject_Z (Zpos p~0) == 2 * inject_Z (Zpos p).
Proof. unfold Qeq. cbn. lia. Qed.

Lemma inject_Z_xI (p : positive) :
  inject_Z (Zpos p~1) == 2 * inject_Z (Zpos p) + 1.
Proof. unfold Qeq. cbn. lia. Qed.

Lemma locates_ext (mrs : shr_record) (x y : Q) :
  x == y -> locates mrs x -> locates mrs y.
Proof.
  intros E. unfold locates. destruct (shr_r mrs), (shr_s mrs); cbv zeta;
    intros H; lra.
Qed.

Lemma locates_range (mrs : shr_record) (x : Q) :
  locates mrs x ->
  inject_Z (shr_m mrs) <= x /\ x < inject_Z (shr_m mrs) + 1.
Proof.
  unfold locates. destruct (shr_r mrs), (shr_s mrs); cbv zeta; intros H; lra.
Qed.

Lemma shr_1_locates (mrs : shr_record) (x : Q) :
  (0 <= shr_m mrs)%Z -> locates mrs x ->
  locates (shr_1 mrs) (x * (1 # 2)) /\ (0 <= shr_m (shr_1 mrs))%Z.
Proof.
  destruct mrs as [m r s]. cbn [shr_m]. intros Hm H.
  destruct m as [|p|p]; [| |lia].
  - destruct r, s; unfold locates in *;
      cbn [shr_1 shr_m shr_r shr_s orb] in *;
      change (inject_Z 0) with 0 in *; (split; [lra | lia]).
  - pose proof (inject_Z_xO) as HO. pose proof (inject_Z_xI) as HI.
    destruct p as [p|p|]; destruct r, s; unfold locates in *;
      cbn [shr_1 shr_m shr_r shr_s orb] in *;
      first [specialize (HI p) | idtac]; first [specialize (HO p) | idtac];
      (split; [|lia]);
      try (change (inject_Z 1) with 1 in *); try (change (inject_Z 0) with 0);
      lra.
Qed.

Lemma iter_shr_1_locates (p : positive) :
  forall (mrs : shr_record) (x : Q),
    (0 <= shr_m mrs)%Z -> locates mrs x ->
    locates (SpecFloat.iter_pos shr_1 p mrs) (x * 2 ^ (- Zpos p))
    /\ (0 <= shr_m (SpecFloat.iter_pos shr_1 p mrs))%Z.
Proof.
  induction p as [p IH|p IH|]; intros mrs x Hm H; cbn [SpecFloat.iter_pos].
  - destruct (shr_1_locates mrs x Hm H) as [H1 Hm1].
    destruct (IH _ _ Hm1 H1) as [H2 Hm2].
    destruct (IH _ _ Hm2 H2) as [H3 Hm3].
    split; [|exact Hm3]. revert H3. apply locates_ext.
    replace (- Zpos p~1)%Z with (-1 + (- Zpos p + - Zpos p))%Z by lia.
    rewrite !pow2_add. change (2 ^ (-1)) with (1 # 2). ring.
  - destruct (IH _ _ Hm H) as [H2 Hm2].
    destruct (IH _ _ Hm2 H2) as [H3 Hm3].
    split; [|exact Hm3]. revert H3. apply locates_ext.
    replace (- Zpos p~0)%Z with (- Zpos p + - Zpos p)%Z by lia.
    rewrite !pow2_add. ring.
  - destruct (shr_1_locates mrs x Hm H) as [H1 Hm1].
    split; [|exact Hm1]. revert H1. apply locates_ext.
    change (Z.opp (Zpos xH)) with (Zneg xH).
    change (2 ^ Zneg xH) with (1 # 2). ring.
Qed.

(** The shift of [shr]: by [n] places when [n] is positive, by none
    otherwise. *)
Lemma shr_locates (mrs : shr_record) (e n : Z) (x : Q) :
  (0 <= shr_m mrs)%Z -> locates mrs x ->
  exists mrs' : shr_record,
    shr mrs e n = (mrs', (e + Z.max n 0)%Z)
    /\ locates mrs' (x * 2 ^ (- Z.max n 0))
    /\ (0 <= shr_m mrs')%Z.
Proof.
  intros Hm H. destruct n as [|p|p]; cbn [shr].
  - exists mrs. rewrite Z.add_0_r. split; [reflexivity|]. split; [|exact Hm].
    revert H. apply locates_ext. change (2 ^ (- Z.max 0 0)) with 1. ring.
  - destruct (iter_shr_1_locates p mrs x Hm H) as [H1 Hm1].
    exists (SpecFloat.iter_pos shr_1 p mrs).
    replace (Z.max (Zpos p) 0) with (Zpos p) by lia.
    split; [reflexivity|]. split; [exact H1 | exact Hm1].
  - exists mrs. replace (Z.max (Zneg p) 0) with 0%Z by lia.
    rewrite Z.add_0_r. split; [reflexivity|]. split; [|exact Hm].
    revert H. apply locates_ext. change (2 ^ (- 0)) with 1. ring.
Qed.

Lemma locates_of_loc (m : Z) (l : location) :
  shr_m (shr_record_of_loc m l) = m.
Proof. destruct l as [|[]]; reflexivity. Qed.

Lemma loc_of_shr_record_of_loc (mrs : shr_record) (x : Q) :
  locates mrs x <->
  locates (shr_record_of_loc (shr_m mrs) (loc_of_shr_record mrs)) x.
Proof. destruct mrs as [m [] []]; reflexivity. Qed.

(** Rounding to nearest, ties to even, moves by at most one half. *)
Lemma round_nearest_even_close (mrs : shr_record) (x : Q) :
  locates mrs x ->
  let m1 := round_nearest_even (shr_m mrs) (loc_of_shr_record mrs) in
  x - (1 # 2) <= inject_Z m1 /\ inject_Z m1 <= x + (1 # 2)
  /\ (shr_m mrs <= m1 <= shr_m mrs + 1)%Z
  /\ (loc_of_shr_record mrs = loc_Exact -> x == inject_Z m1).
Proof.
  destruct mrs as [m r s]. unfold locates. cbn [shr_m shr_r shr_s].
  destruct r, s; cbn [loc_of_shr_record round_nearest_even]; intros H.
  - rewrite inject_Z_plus. change (inject_Z 1) with 1.
    repeat split; try lia; try lra. discriminate.
  - destruct (Z.even m); [|rewrite inject_Z_plus; change (inject_Z 1) with 1];
      repeat split; try lia; try lra; discriminate.
  - repeat split; try lia; try lra. discriminate.
  - repeat split; try lia; try lra.
Qed.

End ShiftRight.

Section RoundFinish.
Local Open Scope Z_scope.

Lemma fexp64 (z : Z) : fexp F64.prec F64.emax z = Z.max (z - 53) (-1074).
Proof. reflexivity. Qed.

Lemma Zdigits2_pos (p : positive) : Zdigits2 (Zpos p) = Zpos (digits2_pos p).
Proof. reflexivity. Qed.

Lemma digits_53 (m : Z) :
  2 ^ 52 <= m < 2 ^ 53 -> Zdigits2 m = 53.
Proof.
  intros H. destruct m as [|p|p]; [exfalso | | lia].
  { destruct H as [H _]. revert H. apply Z.lt_nge. reflexivity. }
  rewrite Zdigits2_pos. apply digits2_pos_unique; [exact H | lia].
Qed.

Lemma shr_fexp_unfold (m e : Z) (l : location) :
  shr_fexp F64.prec F64.emax m e l
  = shr (shr_record_of_loc m l) e (Z.max (Zdigits2 m + e - 53) (-1074) - e).
Proof. reflexivity. Qed.

(** The last step of [binary_round_aux] on a mantissa that has 53 digits
    or is 2^53. *)
Lemma round_finish (s : bool) (m1 e1 : Z) :
  2 ^ 52 <= m1 <= 2 ^ 53 -> -1074 <= e1 <= 970 ->
  exists (m2 : positive) (e2 : Z),
    (let '(mrs, e) := shr_fexp F64.prec F64.emax m1 e1 loc_Exact in
     match shr_m mrs with
     | Z0 => S754_zero s
     | Zpos m => if e <=? F64.emax - F64.prec then S754_finite s m e
                 else S754_infinity s
     | Zneg _ => S754_nan
     end) = S754_finite s m2 e2
    /\ Zpos (digits2_pos m2) = 53
    /\ -1074 <= e2 <= 971
    /\ (inject_Z (Zpos m2) * 2 ^ e2 == inject_Z m1 * 2 ^ e1)%Q.
Proof.
  intros Hm He.
  destruct (Z.eq_dec m1 (2 ^ 53)) as [-> | Hne].
  - exists (2 ^ 52)%positive, (e1 + 1).
    rewrite shr_fexp_unfold.
    change (Zdigits2 (2 ^ 53)) with 54.
    replace (Z.max (54 + e1 - 53) (-1074) - e1) with 1 by lia.
    cbn [shr shr_record_of_loc SpecFloat.iter_pos].
    change (shr_m (shr_1 {| shr_m := 2 ^ 53; shr_r := false; shr_s := false |}))
      with (Zpos (2 ^ 52)).
    unfold F64.emax, F64.prec.
    destruct (Z.leb_spec (e1 + 1) (1024 - 53)) as [_ | H]; [|lia].
    split; [reflexivity|]. split; [reflexivity|]. split; [lia|].
    rewrite pow2_add. change (2 ^ 1)%Q with 2%Q.
    change (inject_Z (2 ^ 53)) with (2 * inject_Z (Zpos (2 ^ 52)))%Q. ring.
  - assert (Hlt : 2 ^ 52 <= m1 < 2 ^ 53) by lia.
    destruct m1 as [|p|p]; [exfalso | | lia].
    { destruct Hlt as [H _]. revert H. apply Z.lt_nge. reflexivity. }
    exists p, e1. rewrite shr_fexp_unfold, (digits_53 _ Hlt).
    replace (Z.max (53 + e1 - 53) (-1074) - e1) with 0 by lia.
    cbn [shr shr_record_of_loc shr_m].
    unfold F64.emax, F64.prec.
    destruct (Z.leb_spec e1 (1024 - 53)) as [_ | H]; [|lia].
    split; [reflexivity|].
    split; [rewrite <- Zdigits2_pos; now apply digits_53|].
    split; [lia | reflexivity].
Qed.

End RoundFinish.

Section RoundNormal.
Local Open Scope Z_scope.

Lemma loc_of_record_of_loc (m : Z) (l : location) :
  loc_of_shr_record (shr_record_of_loc m l) = l.
Proof. destruct l as [|[]]; reflexivity. Qed.

Lemma binary_round_aux_unfold (s : bool) (m e : Z) (l : location) :
  binary_round_aux F64.prec F64.emax s m e l
  = let '(mrs', e') := shr_fexp F64.prec F64.emax m e l in
    let '(mrs, e) :=
      shr_fexp F64.prec F64.emax
        (round_nearest_even (shr_m mrs') (loc_of_shr_record mrs')) e'
        loc_Exact in
    match shr_m mrs with
    | Z0 => S754_zero s
    | Zpos m => if e <=? F64.emax - F64.prec then S754_finite s m e
                else S754_infinity s
    | Zneg _ => S754_nan
    end.
Proof. reflexivity. Qed.

Lemma Zdigits2_bounds (m : Z) :
  0 < m -> 2 ^ (Zdigits2 m - 1) <= m < 2 ^ Zdigits2 m.
Proof.
  intros H. destruct m as [|p|p]; [lia | | lia].
  rewrite Zdigits2_pos. apply digits2_pos_bounds.
Qed.

Lemma Zdigits2_positive (m : Z) : 0 < m -> 0 < Zdigits2 m.
Proof. intros H. destruct m as [|p|p]; [lia | | lia]. reflexivity. Qed.

(** A positive mantissa of at least 53 digits whose value lies in the
    range of the normal numbers is rounded to a normal number, with a
    relative error of at most the unit roundoff. *)
Lemma round_aux_normal (s : bool) (m e : Z) (l : location) (x : Q) :
  0 < m ->
  locates (shr_record_of_loc m l) x ->
  53 <= Zdigits2 m ->
  -1021 <= Zdigits2 m + e <= 1023 ->
  exists (m2 : positive) (e2 : Z),
    binary_round_aux F64.prec F64.emax s m e l = S754_finite s m2 e2
    /\ Zpos (digits2_pos m2) = 53
    /\ -1074 <= e2 <= 971
    /\ (x * 2 ^ e * (1 - u64) <= inject_Z (Zpos m2) * 2 ^ e2
        /\ inject_Z (Zpos m2) * 2 ^ e2 <= x * 2 ^ e * (1 + u64))%Q.
Proof.
  intros Hm Hloc Hd Hrange.
  set (d := Zdigits2 m) in *. set (n := d - 53).
  pose proof (Zdigits2_bounds m Hm) as [Hlo Hhi]. fold d in Hlo, Hhi.
  assert (Hm0 : 0 <= shr_m (shr_record_of_loc m l))
    by (rewrite locates_of_loc; lia).
  destruct (shr_locates _ e n x Hm0 Hloc) as (mrs' & Hshr & Hloc' & Hm').
  replace (Z.max n 0) with n in Hshr, Hloc' by lia.
  apply locates_range in Hloc as Hx. rewrite locates_of_loc in Hx.
  (* the scaled value lies between 2^52 and 2^53 *)
  assert (H52 : (2 ^ 52 <= x * 2 ^ (- n) /\ x * 2 ^ (- n) < 2 ^ 53)%Q).
  { pose proof (pow2_pos (- n)) as Hp.
    assert (E1 : (2 ^ 52 == inject_Z (2 ^ (d - 1)) * 2 ^ (- n))%Q).
    { rewrite pow2_inject by lia. rewrite <- pow2_add.
      now replace (d - 1 + - n) with 52 by lia. }
    assert (E2 : (2 ^ 53 == inject_Z (2 ^ d) * 2 ^ (- n))%Q).
    { rewrite pow2_inject by lia. rewrite <- pow2_add.
      now replace (d + - n) with 53 by lia. }
    rewrite E1, E2. split.
    - apply Qmult_le_compat_r; [|lra].
      apply Qle_trans with (inject_Z m); [now apply inject_Z_le | lra].
    - apply Qmult_lt_compat_r; [exact Hp|].
      apply Qlt_le_trans with (inject_Z m + 1)%Q; [lra|].
      change 1%Q with (inject_Z 1). rewrite <- inject_Z_plus.
      apply inject_Z_le. lia. }
  set (x' := (x * 2 ^ (- n))%Q) in *.
  pose proof (round_nearest_even_close mrs' x' Hloc') as (Hr1 & Hr2 & Hr3 & _).
  set (m1 := round_nearest_even (shr_m mrs') (loc_of_shr_record mrs')) in *.
  apply locates_range in Hloc' as Hx'.
  assert (C52 : (2 ^ 52 == inject_Z (2 ^ 52))%Q) by reflexivity.
  assert (C53 : (2 ^ 53 == inject_Z (2 ^ 53))%Q) by reflexivity.
  assert (Hm'52 : 2 ^ 52 <= shr_m mrs' < 2 ^ 53).
  { split.
    - apply Z.lt_succ_r. rewrite Zlt_Qlt. unfold Z.succ.
      rewrite inject_Z_plus. change (inject_Z 1) with 1%Q. lra.
    - rewrite Zlt_Qlt. lra. }
  assert (Hm1 : 2 ^ 52 <= m1 <= 2 ^ 53) by lia.
  assert (He1 : -1074 <= e + n <= 970) by lia.
  destruct (round_finish s m1 (e + n) Hm1 He1)
    as (m2 & e2 & Hfin & Hdig & He2 & Hval).
  exists m2, e2.
  split.
  { rewrite binary_round_aux_unfold, shr_fexp_unfold. fold d.
    replace (Z.max (d + e - 53) (-1074) - e) with n by lia.
    rewrite Hshr. exact Hfin. }
  split; [exact Hdig|]. split; [exact He2|].
  rewrite Hval.
  assert (EX : (x * 2 ^ e == x' * 2 ^ (e + n))%Q).
  { unfold x'. rewrite <- Qmult_assoc, <- pow2_add.
    now replace (- n + (e + n)) with e by lia. }
  rewrite EX.
  pose proof (pow2_pos (e + n)) as Hp.
  assert (Hu : (x' * u64 >= 1 # 2)%Q).
  { unfold u64. change (2 ^ 52)%Q with (4503599627370496 # 1)%Q in H52.
    lra. }
  split.
  - rewrite <- Qmult_assoc, (Qmult_comm (2 ^ (e + n))), Qmult_assoc.
    apply Qmult_le_compat_r; [|lra]. lra.
  - rewrite <- (Qmult_assoc x'), (Qmult_comm (2 ^ (e + n))), Qmult_assoc.
    apply Qmult_le_compat_r; [|lra]. lra.
Qed.

End RoundNormal.

Section Multiplication.
Local Open Scope Z_scope.

(** The position of a value among the powers of two gives the sum of the
    number of digits of its mantissa and its exponent. *)
Lemma value_range (m e lo hi : Z) (x : Q) :
  0 < m ->
  (inject_Z m <= x /\ x < inject_Z m + 1)%Q ->
  (2 ^ lo <= x * 2 ^ e)%Q -> (x * 2 ^ e < 2 ^ hi)%Q ->
  lo < Zdigits2 m + e <= hi.
Proof.
  intros Hm Hx Hlo Hhi.
  pose proof (Zdigits2_bounds m Hm) as [Hd1 Hd2].
  pose proof (Zdigits2_positive m Hm) as Hd.
  set (d := Zdigits2 m) in *.
  pose proof (pow2_pos e) as Hp.
  assert (H1 : (2 ^ (d - 1 + e) <= x * 2 ^ e)%Q).
  { rewrite pow2_add. apply Qmult_le_compat_r; [|lra].
    rewrite <- pow2_inject by lia.
    apply Qle_trans with (inject_Z m); [now apply inject_Z_le | lra]. }
  assert (H2 : (x * 2 ^ e < 2 ^ (d + e))%Q).
  { rewrite pow2_add. apply Qmult_lt_compat_r; [exact Hp|].
    rewrite <- pow2_inject by lia.
    apply Qlt_le_trans with (inject_Z m + 1)%Q; [lra|].
    change 1%Q with (inject_Z 1). rewrite <- inject_Z_plus.
    apply inject_Z_le. lia. }
  split.
  - apply pow2_lt_inv. lra.
  - assert (d - 1 + e < hi); [|lia]. apply pow2_lt_inv. lra.
Qed.

Lemma locates_exact (m : Z) :
  locates (shr_record_of_loc m loc_Exact) (inject_Z m).
Proof. unfold locates. cbn. reflexivity. Qed.

(** Rounding of an exact positive value with at least 53 digits. *)
Lemma round_exact (m e : Z) :
  0 < m -> 53 <= Zdigits2 m ->
  (2 ^ (-1022) <= inject_Z m * 2 ^ e)%Q ->
  (inject_Z m * 2 ^ e < 2 ^ 1023)%Q ->
  exists (m2 : positive) (e2 : Z),
    binary_round_aux F64.prec F64.emax false m e loc_Exact
    = S754_finite false m2 e2
    /\ Zpos (digits2_pos m2) = 53
    /\ -1074 <= e2 <= 971
    /\ (inject_Z m * 2 ^ e * (1 - u64) <= inject_Z (Zpos m2) * 2 ^ e2
        /\ inject_Z (Zpos m2) * 2 ^ e2 <= inject_Z m * 2 ^ e * (1 + u64))%Q.
Proof.
  intros Hm Hd Hlo Hhi.
  apply round_aux_normal; [exact Hm | apply locates_exact | exact Hd |].
  assert (Hx : (inject_Z m <= inject_Z m /\ inject_Z m < inject_Z m + 1)%Q)
    by lra.
  pose proof (value_range m e (-1022) 1023 _ Hm Hx Hlo Hhi). lia.
Qed.

Lemma toQ_finite (m : positive) (e : Z) :
  (F64.toQ (S754_finite false m e) == inject_Z (Zpos m) * 2 ^ e)%Q.
Proof. unfold F64.toQ. ring. Qed.

Lemma toQ_zero (s : bool) : F64.toQ (S754_zero s) = 0%Q.
Proof. reflexivity. Qed.

Lemma regular_nonneg (x : spec_float) : regular x -> (0 <= F64.toQ x)%Q.
Proof.
  intros [-> | (m & e & -> & _)]; [cbn; lra|].
  rewrite toQ_finite. pose proof (pow2_pos e).
  apply Qmult_le_0_compat; [|lra]. now apply (inject_Z_le 0).
Qed.

(** A normal number is at least 2^-1022 and below 2^1024. *)
Lemma normal_value (m : positive) (e : Z) :
  Zpos (digits2_pos m) = 53 -> -1074 <= e <= 971 ->
  (2 ^ (-1022) <= inject_Z (Zpos m) * 2 ^ e)%Q
  /\ (2 ^ (52 + e) <= inject_Z (Zpos m) * 2 ^ e)%Q
  /\ (inject_Z (Zpos m) * 2 ^ e < 2 ^ (53 + e))%Q.
Proof.
  intros Hd He. pose proof (digits2_pos_bounds m) as [H1 H2].
  rewrite Hd in H1, H2. pose proof (pow2_pos e) as Hp.
  assert (A : (2 ^ (52 + e) <= inject_Z (Zpos m) * 2 ^ e)%Q).
  { rewrite pow2_add. apply Qmult_le_compat_r; [|lra].
    rewrite <- pow2_inject by lia. now apply inject_Z_le. }
  split; [|split; [exact A|]].
  - apply Qle_trans with (2 ^ (52 + e))%Q; [|exact A]. apply pow2_le. lia.
  - rewrite pow2_add. apply Qmult_lt_compat_r; [exact Hp|].
    rewrite <- pow2_inject by lia. now apply inject_Z_lt.
Qed.

Lemma regular_finite (m : positive) (e : Z) :
  Zpos (digits2_pos m) = 53 -> -1074 <= e <= 971 ->
  regular (S754_finite false m e).
Proof. intros Hd He. right. now exists m, e. Qed.

(** Multiplication. *)
Lemma mul_regular (x y : spec_float) :
  regular x -> regular y ->
  ((F64.toQ x * F64.toQ y == 0
    \/ 2 ^ (-1022) <= F64.toQ x * F64.toQ y)
   /\ F64.toQ x * F64.toQ y < 2 ^ 1023)%Q ->
  regular (F64.mul x y)
  /\ (F64.toQ x * F64.toQ y * (1 - u64) <= F64.toQ (F64.mul x y)
      /\ F64.toQ (F64.mul x y) <= F64.toQ x * F64.toQ y * (1 + u64))%Q.
Proof.
  intros [-> | (mx & ex & -> & Hdx & Hex)] [-> | (my & ey & -> & Hdy & Hey)]
         [Hlo Hhi].
  - cbn. split; [now left | lra].
  - cbn [F64.mul SFmul xorb]. rewrite toQ_zero.
    split; [now left | cbn; lra].
  - cbn [F64.mul SFmul xorb]. rewrite !toQ_zero.
    split; [now left | cbn; lra].
  - unfold F64.mul. cbn [SFmul xorb]. rewrite !toQ_finite in *.
    pose proof (normal_value mx ex Hdx Hex) as (Hx0 & Hx1 & Hx2).
    pose proof (normal_value my ey Hdy Hey) as (Hy0 & Hy1 & Hy2).
    assert (EV : (inject_Z (Zpos mx) * 2 ^ ex * (inject_Z (Zpos my) * 2 ^ ey)
                  == inject_Z (Zpos (mx * my)) * 2 ^ (ex + ey))%Q).
    { rewrite Pos2Z.inj_mul, inject_Z_mult, pow2_add. ring. }
    rewrite EV in *.
    assert (Hlo' : (2 ^ (-1022)
                    <= inject_Z (Zpos (mx * my)) * 2 ^ (ex + ey))%Q).
    { destruct Hlo as [H0 | H]; [|exact H].
      pose proof (pow2_pos (52 + ex)). pose proof (pow2_pos (52 + ey)).
      rewrite <- EV in H0. exfalso.
      assert (0 < inject_Z (Zpos mx) * 2 ^ ex
                  * (inject_Z (Zpos my) * 2 ^ ey))%Q
        by (apply Qmult_lt_0_compat; lra).
      lra. }
    assert (Hd : 53 <= Zdigits2 (Zpos (mx * my))).
    { pose proof (digits2_pos_bounds mx) as [Ha _].
      pose proof (digits2_pos_bounds my) as [Hb _].
      pose proof (digits2_pos_bounds (mx * my)) as [_ Hc].
      rewrite Hdx in Ha. rewrite Hdy in Hb. rewrite Zdigits2_pos.
      rewrite Pos2Z.inj_mul in Hc.
      assert (2 ^ 52 * 2 ^ 52 <= Zpos mx * Zpos my)
        by (apply Z.mul_le_mono_nonneg; lia).
      destruct (Z.le_gt_cases 53 (Zpos (digits2_pos (mx * my))))
        as [H53 | H53]; [exact H53 | exfalso].
      assert (2 ^ Zpos (digits2_pos (mx * my)) <= 2 ^ 52)
        by (apply Z.pow_le_mono_r; lia).
      assert (2 ^ 52 <= 2 ^ 52 * 2 ^ 52) by (vm_compute; discriminate).
      lia. }
    destruct (round_exact (Zpos (mx * my)) (ex + ey) eq_refl Hd Hlo' Hhi)
      as (m2 & e2 & -> & Hd2 & He2 & Hb).
    split; [now apply regular_finite|]. rewrite toQ_finite. exact Hb.
Qed.

End Multiplication.

Section Addition.
Local Open Scope Z_scope.

Lemma iter_xO (d m : positive) :
  Zpos (Pos.iter xO m d) = Zpos m * 2 ^ Zpos d.
Proof.
  induction d as [|d IH] using Pos.peano_ind.
  - cbn [Pos.iter]. rewrite (Pos2Z.inj_xO m). change (2 ^ 1) with 2. lia.
  - rewrite Pos.iter_succ, (Pos2Z.inj_xO (Pos.iter xO m d)), IH.
    rewrite Pos2Z.inj_succ, Z.pow_succ_r by lia. ring.
Qed.

Lemma shl_align_spec (mx : positive) (ex ex' : Z) :
  exists m' : positive,
    shl_align mx ex ex' = (m', Z.min ex ex')
    /\ Zpos m' = Zpos mx * 2 ^ (ex - Z.min ex ex').
Proof.
  unfold shl_align. destruct (ex' - ex) as [|d|d] eqn:E.
  - exists mx. replace (Z.min ex ex') with ex by lia.
    split; [reflexivity|]. rewrite Z.sub_diag. change (2 ^ 0) with 1. lia.
  - exists mx. replace (Z.min ex ex') with ex by lia.
    split; [reflexivity|]. rewrite Z.sub_diag. change (2 ^ 0) with 1. lia.
  - exists (Pos.iter xO mx d). replace (Z.min ex ex') with ex' by lia.
    split; [reflexivity|]. rewrite iter_xO. f_equal. f_equal. lia.
Qed.

Lemma shifted_value (m m' : positive) (e e' : Z) :
  e' <= e -> Zpos m' = Zpos m * 2 ^ (e - e') ->
  (inject_Z (Zpos m') * 2 ^ e' == inject_Z (Zpos m) * 2 ^ e)%Q.
Proof.
  intros He ->. rewrite inject_Z_mult, pow2_inject by lia.
  rewrite <- Qmult_assoc, <- pow2_add. now replace (e - e' + e') with e by lia.
Qed.

Lemma digits_shifted (m m' : positive) (k : Z) :
  0 <= k -> Zpos m' = Zpos m * 2 ^ k ->
  Zpos (digits2_pos m') = Zpos (digits2_pos m) + k.
Proof.
  intros Hk E. pose proof (digits2_pos_bounds m) as [H1 H2].
  apply digits2_pos_unique; [|lia]. rewrite E.
  replace (Zpos (digits2_pos m) + k - 1)
    with (Zpos (digits2_pos m) - 1 + k) by lia.
  rewrite !Z.pow_add_r by lia.
  assert (0 < 2 ^ k) by (apply Z.pow_pos_nonneg; lia).
  split; [apply Z.mul_le_mono_nonneg_r; lia|].
  apply Z.mul_lt_mono_pos_r; lia.
Qed.

(** [binary_round] on a positive value in the normal range. *)
Lemma binary_round_normal (m : positive) (e : Z) :
  (2 ^ (-1022) <= inject_Z (Zpos m) * 2 ^ e)%Q ->
  (inject_Z (Zpos m) * 2 ^ e < 2 ^ 1023)%Q ->
  exists (m2 : positive) (e2 : Z),
    binary_round F64.prec F64.emax false m e = S754_finite false m2 e2
    /\ Zpos (digits2_pos m2) = 53
    /\ -1074 <= e2 <= 971
    /\ (inject_Z (Zpos m) * 2 ^ e * (1 - u64) <= inject_Z (Zpos m2) * 2 ^ e2
        /\ inject_Z (Zpos m2) * 2 ^ e2
           <= inject_Z (Zpos m) * 2 ^ e * (1 + u64))%Q.
Proof.
  intros Hlo Hhi. unfold binary_round. rewrite fexp64.
  assert (Hx : (inject_Z (Zpos m) <= inject_Z (Zpos m)
                /\ inject_Z (Zpos m) < inject_Z (Zpos m) + 1)%Q) by lra.
  pose proof (value_range (Zpos m) e (-1022) 1023 _ eq_refl Hx Hlo Hhi)
    as Hr.
  rewrite Zdigits2_pos in Hr.
  set (d := Zpos (digits2_pos m)) in *.
  replace (Z.max (d + e - 53) (-1074)) with (d + e - 53) by lia.
  destruct (shl_align_spec m e (d + e - 53)) as (m' & -> & Hm').
  set (e' := Z.min e (d + e - 53)) in *.
  assert (He' : e' <= e) by lia.
  pose proof (shifted_value m m' e e' He' Hm') as EV.
  pose proof (digits_shifted m m' (e - e') ltac:(lia) Hm') as Hd'.
  fold d in Hd'.
  assert (Hlo' : (2 ^ (-1022) <= inject_Z (Zpos m') * 2 ^ e')%Q) by lra.
  assert (Hhi' : (inject_Z (Zpos m') * 2 ^ e' < 2 ^ 1023)%Q) by lra.
  assert (Hd53 : 53 <= Zdigits2 (Zpos m')) by (rewrite Zdigits2_pos; lia).
  destruct (round_exact (Zpos m') e' eq_refl Hd53 Hlo' Hhi')
    as (m2 & e2 & Hr2 & Hd2 & He2 & Hb1 & Hb2).
  exists m2, e2. split; [exact Hr2|]. split; [exact Hd2|].
  split; [exact He2|]. rewrite <- EV. split; [exact Hb1 | exact Hb2].
Qed.

(** Addition. *)
Lemma add_regular (x y : spec_float) :
  regular x -> regular y ->
  (F64.toQ x + F64.toQ y < 2 ^ 1023)%Q ->
  regular (F64.add x y)
  /\ ((F64.toQ x + F64.toQ y) * (1 - u64) <= F64.toQ (F64.add x y)
      /\ F64.toQ (F64.add x y) <= (F64.toQ x + F64.toQ y) * (1 + u64))%Q.
Proof.
  intros Hx Hy Hhi.
  assert (Hu : (0 <= u64 /\ u64 <= 1)%Q) by (unfold u64; split; discriminate).
  pose proof (regular_nonneg x Hx) as Hx0.
  pose proof (regular_nonneg y Hy) as Hy0.
  destruct Hx as [-> | (mx & ex & -> & Hdx & Hex)].
  { destruct Hy as [-> | (my & ey & -> & Hdy & Hey)].
    - cbn. split; [now left | lra].
    - cbn [F64.add SFadd]. unfold F64.add. cbn [SFadd].
      split; [now apply regular_finite|]. rewrite toQ_zero.
      set (v := F64.toQ (S754_finite false my ey)) in *. split; nra. }
  destruct Hy as [-> | (my & ey & -> & Hdy & Hey)].
  { unfold F64.add. cbn [SFadd].
    split; [now apply regular_finite|]. rewrite toQ_zero.
    set (v := F64.toQ (S754_finite false mx ex)) in *. split; nra. }
  unfold F64.add. cbn [SFadd cond_Zopp].
  set (ez := Z.min ex ey).
  destruct (shl_align_spec mx ex ez) as (mx' & Ex & Hmx').
  destruct (shl_align_spec my ey ez) as (my' & Ey & Hmy').
  rewrite Ex, Ey. cbn [fst].
  replace (Z.min ex ez) with ez in * by lia.
  replace (Z.min ey ez) with ez in * by lia.
  rewrite <- Pos2Z.inj_add. cbn [binary_normalize].
  pose proof (shifted_value mx mx' ex ez ltac:(lia) Hmx') as EVx.
  pose proof (shifted_value my my' ey ez ltac:(lia) Hmy') as EVy.
  rewrite !toQ_finite in *.
  assert (EV : (inject_Z (Zpos mx) * 2 ^ ex + inject_Z (Zpos my) * 2 ^ ey
                == inject_Z (Zpos (mx' + my')) * 2 ^ ez)%Q).
  { rewrite Pos2Z.inj_add, inject_Z_plus, <- EVx, <- EVy. ring. }
  rewrite EV in *.
  pose proof (normal_value mx ex Hdx Hex) as (Hx1 & _).
  assert (Hlo : (2 ^ (-1022) <= inject_Z (Zpos (mx' + my')) * 2 ^ ez)%Q).
  { rewrite <- EV. lra. }
  destruct (binary_round_normal (mx' + my') ez Hlo Hhi)
    as (m2 & e2 & -> & Hd2 & He2 & Hb).
  split; [now apply regular_finite|]. rewrite toQ_finite. exact Hb.
Qed.

End Addition.

Section QuotientLocation.
Local Open Scope Z_scope.

Lemma new_location_locates (q m2 r : Z) :
  0 <= r < m2 ->
  locates (shr_record_of_loc q (new_location m2 r))
    (inject_Z q + inject_Z r / inject_Z m2)%Q.
Proof.
  intros Hr.
  assert (HM : (0 < inject_Z m2)%Q) by (apply (inject_Z_lt 0); lia).
  assert (HR : (0 <= inject_Z r)%Q) by (apply (inject_Z_le 0); lia).
  set (rho := (inject_Z r / inject_Z m2)%Q).
  assert (Erho : (rho * inject_Z m2 == inject_Z r)%Q).
  { unfold rho. field. lra. }
  assert (H2 : (inject_Z (2 * r) == 2 * inject_Z r)%Q)
    by (rewrite inject_Z_mult; reflexivity).
  assert (H21 : (inject_Z (2 * r + 1) == 2 * inject_Z r + 1)%Q)
    by (rewrite inject_Z_plus, inject_Z_mult; reflexivity).
  assert (Hzero : r = 0 -> (rho == 0)%Q).
  { intros E0. unfold rho. rewrite E0. change (inject_Z 0) with 0%Q.
    field. lra. }
  assert (Hpos : r <> 0 -> (0 < rho)%Q).
  { intros Hr0. unfold rho. apply Qlt_shift_div_l; [exact HM|].
    rewrite Qmult_0_l. apply (inject_Z_lt 0). lia. }
  assert (Hlt1 : (inject_Z r < inject_Z m2)%Q) by (apply inject_Z_lt; lia).
  unfold new_location.
  destruct (Z.even m2) eqn:Hev;
    [unfold new_location_even | unfold new_location_odd];
    destruct (Z.eqb_spec r 0) as [E0 | Hr0];
    try (specialize (Hzero E0); unfold locates;
         cbn [shr_record_of_loc shr_m shr_r shr_s]; lra);
    specialize (Hpos Hr0).
  - destruct (Z.compare_spec (2 * r) m2) as [E | L | G];
      unfold locates; cbn [shr_record_of_loc shr_m shr_r shr_s].
    + assert (2 * inject_Z r == inject_Z m2)%Q
        by (rewrite <- H2, E; reflexivity).
      nra.
    + apply inject_Z_lt in L. rewrite H2 in L. split; nra.
    + apply inject_Z_lt in G. rewrite H2 in G. split; nra.
  - assert (Hodd : 2 * r <> m2).
    { intros E. rewrite <- E, Z.even_mul in Hev. discriminate. }
    destruct (Z.compare_spec (2 * r + 1) m2) as [E | L | G];
      unfold locates; cbn [shr_record_of_loc shr_m shr_r shr_s].
    + assert (2 * inject_Z r + 1 == inject_Z m2)%Q
        by (rewrite <- H21, E; reflexivity).
      split; nra.
    + apply inject_Z_lt in L. rewrite H21 in L. split; nra.
    + assert (G' : m2 < 2 * r) by lia.
      apply inject_Z_lt in G'. rewrite H2 in G'. split; nra.
Qed.

End QuotientLocation.

Section Division.
Local Open Scope Z_scope.

Lemma digits_ge_53 (q : Z) : 2 ^ 52 <= q -> 0 < q /\ 53 <= Zdigits2 q.
Proof.
  intros H. assert (Hq : 0 < q).
  { apply Z.lt_le_trans with (2 ^ 52); [reflexivity | exact H]. }
  split; [exact Hq|]. pose proof (Zdigits2_bounds q Hq) as [_ Hhi].
  destruct (Z.le_gt_cases 53 (Zdigits2 q)) as [H53 | H53]; [exact H53|].
  exfalso. assert (2 ^ Zdigits2 q <= 2 ^ 52)
    by (apply Z.pow_le_mono_r; lia).
  lia.
Qed.

(** The quotient computed by [SFdiv_core_binary], for a quotient in the
    range of the normal numbers: it has at least 53 digits and comes with
    the exact position of the true quotient. *)
Lemma div_core_normal (m1 m2 : positive) (e1 e2 : Z) (X : Q) :
  (X * (inject_Z (Zpos m2) * 2 ^ e2) == inject_Z (Zpos m1) * 2 ^ e1)%Q ->
  (2 ^ (-1022) <= X)%Q ->
  exists (q e' : Z) (l : location) (x : Q),
    SFdiv_core_binary F64.prec F64.emax (Zpos m1) e1 (Zpos m2) e2
    = (q, e', l)
    /\ 2 ^ 52 <= q
    /\ locates (shr_record_of_loc q l) x
    /\ (x * 2 ^ e' == X)%Q.
Proof.
  intros EX Hlo. unfold SFdiv_core_binary. rewrite fexp64, !Zdigits2_pos.
  set (d1 := Zpos (digits2_pos m1)). set (d2 := Zpos (digits2_pos m2)).
  set (D := d1 + e1 - (d2 + e2)).
  set (e' := Z.min (Z.max (D - 53) (-1074)) (e1 - e2)).
  set (s := e1 - e2 - e').
  assert (Hs : 0 <= s) by (unfold s, e'; lia).
  set (m' := match s with
             | 0 => Zpos m1
             | Zpos _ => Z.shiftl (Zpos m1) s
             | Zneg _ => 0
             end).
  assert (Hm' : m' = Zpos m1 * 2 ^ s).
  { unfold m'. destruct s as [|p|p] eqn:Es; [| |lia].
    - change (2 ^ 0) with 1. lia.
    - apply Z.shiftl_mul_pow2. lia. }
  clearbody m'.
  pose proof (Z_div_mod m' (Zpos m2) eq_refl) as Hdiv.
  destruct (Z.div_eucl m' (Zpos m2)) as [q r]. destruct Hdiv as [Hqr Hr].
  set (x := (inject_Z q + inject_Z r / inject_Z (Zpos m2))%Q).
  pose proof (pow2_pos e1) as Hp1. pose proof (pow2_pos e2) as Hp2.
  pose proof (pow2_pos e') as Hpe. pose proof (pow2_pos s) as Hps.
  assert (HM1 : (0 < inject_Z (Zpos m1))%Q) by (now apply (inject_Z_lt 0)).
  assert (HM2 : (0 < inject_Z (Zpos m2))%Q) by (now apply (inject_Z_lt 0)).
  assert (Ex : (x * inject_Z (Zpos m2) == inject_Z (Zpos m1) * 2 ^ s)%Q).
  { unfold x. rewrite <- pow2_inject by exact Hs.
    rewrite <- inject_Z_mult, <- Hm', Hqr, inject_Z_plus, inject_Z_mult.
    field. lra. }
  assert (Epow : (2 ^ s * 2 ^ e' * 2 ^ e2 == 2 ^ e1)%Q).
  { rewrite <- !pow2_add. now replace (s + e' + e2) with e1 by (unfold s; lia). }
  assert (ExX : (x * 2 ^ e' == X)%Q).
  { apply (Qmult_inj_r _ _ (inject_Z (Zpos m2) * 2 ^ e2)).
    - intros E. assert (0 < inject_Z (Zpos m2) * 2 ^ e2)%Q
        by (apply Qmult_lt_0_compat; lra).
      lra.
    - rewrite EX, <- Epow.
      transitivity (x * inject_Z (Zpos m2) * (2 ^ e' * 2 ^ e2))%Q; [ring|].
      rewrite Ex. ring. }
  (* the true quotient is at least 2^(D-1) *)
  pose proof (digits2_pos_bounds m1) as [Hd1 _].
  pose proof (digits2_pos_bounds m2) as [_ Hd2]. fold d1 in Hd1. fold d2 in Hd2.
  assert (HXD : (2 ^ (D - 1) <= X)%Q).
  { assert (A : (2 ^ (d1 - 1 + e1) <= inject_Z (Zpos m1) * 2 ^ e1)%Q).
    { rewrite pow2_add. apply Qmult_le_compat_r; [|lra].
      rewrite <- pow2_inject by lia. now apply inject_Z_le. }
    assert (B : (inject_Z (Zpos m2) * 2 ^ e2 <= 2 ^ (d2 + e2))%Q).
    { rewrite pow2_add. apply Qmult_le_compat_r; [|lra].
      rewrite <- pow2_inject by lia. apply inject_Z_le. lia. }
    assert (C : (2 ^ (D - 1) * 2 ^ (d2 + e2) == 2 ^ (d1 - 1 + e1))%Q).
    { rewrite <- pow2_add. now replace (D - 1 + (d2 + e2)) with (d1 - 1 + e1)
        by (unfold D; lia). }
    pose proof (pow2_pos (d2 + e2)) as HpB. pose proof (pow2_pos (D - 1)) as HpD.
    assert (HX0 : (0 < X)%Q) by (pose proof (pow2_pos (-1022)); lra).
    apply Qnot_lt_le. intros Hlt.
    assert ((X * (inject_Z (Zpos m2) * 2 ^ e2) < 2 ^ (D - 1) * 2 ^ (d2 + e2))%Q).
    { apply Qle_lt_trans with (X * 2 ^ (d2 + e2))%Q.
      - rewrite !(Qmult_comm X). apply Qmult_le_compat_r; lra.
      - apply Qmult_lt_compat_r; lra. }
    lra. }
  assert (Hx52 : (2 ^ 52 <= x)%Q).
  { assert (Hk : exists k, (2 ^ k <= X)%Q /\ 52 <= k - e').
    { destruct (Z.le_gt_cases (-1074) (D - 53)) as [Hc | Hc].
      - exists (D - 1). split; [exact HXD | unfold e'; lia].
      - exists (-1022). split; [exact Hlo | unfold e'; lia]. }
    destruct Hk as (k & Hk1 & Hk2).
    assert (E52 : (2 ^ 52 <= 2 ^ (k - e'))%Q) by (now apply pow2_le).
    assert (Ek : (2 ^ (k - e') * 2 ^ e' == 2 ^ k)%Q).
    { rewrite <- pow2_add. now replace (k - e' + e') with k by lia. }
    apply Qnot_lt_le. intros Hlt.
    assert (x * 2 ^ e' < 2 ^ (k - e') * 2 ^ e')%Q
      by (apply Qmult_lt_compat_r; lra).
    lra. }
  pose proof (new_location_locates q (Zpos m2) r Hr) as Hloc. fold x in Hloc.
  exists q, e', (new_location (Zpos m2) r), x.
  split; [reflexivity|]. split; [|split; [exact Hloc | exact ExX]].
  apply locates_range in Hloc. rewrite locates_of_loc in Hloc.
  apply Z.lt_succ_r. rewrite Zlt_Qlt. unfold Z.succ.
  rewrite inject_Z_plus. change (inject_Z 1) with 1%Q.
  change (inject_Z (2 ^ 52)) with (2 ^ 52)%Q. lra.
Qed.

(** Rounding the quotient. *)
Lemma div_round_normal (m1 m2 : positive) (e1 e2 : Z) (X : Q) :
  (X * (inject_Z (Zpos m2) * 2 ^ e2) == inject_Z (Zpos m1) * 2 ^ e1)%Q ->
  (2 ^ (-1022) <= X)%Q -> (X < 2 ^ 1023)%Q ->
  exists (m : positive) (e : Z),
    (let '(mz, ez, lz) :=
       SFdiv_core_binary F64.prec F64.emax (Zpos m1) e1 (Zpos m2) e2 in
     binary_round_aux F64.prec F64.emax false mz ez lz)
    = S754_finite false m e
    /\ Zpos (digits2_pos m) = 53
    /\ -1074 <= e <= 971
    /\ (X * (1 - u64) <= inject_Z (Zpos m) * 2 ^ e
        /\ inject_Z (Zpos m) * 2 ^ e <= X * (1 + u64))%Q.
Proof.
  intros EX Hlo Hhi.
  destruct (div_core_normal m1 m2 e1 e2 X EX Hlo)
    as (q & e' & l & x & -> & Hq & Hloc & ExX).
  destruct (digits_ge_53 q Hq) as [Hq0 Hd].
  apply locates_range in Hloc as Hx. rewrite locates_of_loc in Hx.
  assert (Hlo' : (2 ^ (-1022) <= x * 2 ^ e')%Q) by lra.
  assert (Hhi' : (x * 2 ^ e' < 2 ^ 1023)%Q) by lra.
  pose proof (value_range q e' (-1022) 1023 x Hq0 Hx Hlo' Hhi') as Hr.
  destruct (round_aux_normal false q e' l x Hq0 Hloc Hd ltac:(lia))
    as (m & e & Hround & Hdm & He & Hb1 & Hb2).
  exists m, e. split; [exact Hround|]. split; [exact Hdm|].
  split; [exact He|]. rewrite <- ExX. split; [exact Hb1 | exact Hb2].
Qed.

Lemma div_regular (x y : spec_float) :
  regular x -> regular y -> (0 < F64.toQ y)%Q ->
  ((F64.toQ x == 0 \/ 2 ^ (-1022) <= F64.toQ x / F64.toQ y)
   /\ F64.toQ x / F64.toQ y < 2 ^ 1023)%Q ->
  regular (F64.div x y)
  /\ (F64.toQ x / F64.toQ y * (1 - u64) <= F64.toQ (F64.div x y)
      /\ F64.toQ (F64.div x y) <= F64.toQ x / F64.toQ y * (1 + u64))%Q.
Proof.
  intros Hx [-> | (my & ey & -> & Hdy & Hey)] Hy0 [Hlo Hhi];
    [cbn in Hy0; lra|].
  destruct Hx as [-> | (mx & ex & -> & Hdx & Hex)].
  - unfold F64.div. cbn [SFdiv xorb]. rewrite !toQ_zero.
    split; [now left|]. unfold Qdiv. rewrite Qmult_0_l. lra.
  - unfold F64.div. cbn [SFdiv xorb]. rewrite !toQ_finite in *.
    set (X := (inject_Z (Zpos mx) * 2 ^ ex / (inject_Z (Zpos my) * 2 ^ ey))%Q)
      in *.
    assert (EX : (X * (inject_Z (Zpos my) * 2 ^ ey)
                  == inject_Z (Zpos mx) * 2 ^ ex)%Q).
    { pose proof (pow2_pos ey).
      assert (0 < inject_Z (Zpos my))%Q by (now apply (inject_Z_lt 0)).
      unfold X. field. split; lra. }
    assert (Hlo' : (2 ^ (-1022) <= X)%Q).
    { destruct Hlo as [H0 | H]; [|exact H].
      pose proof (normal_value mx ex Hdx Hex) as (H1 & _).
      pose proof (pow2_pos (-1022)). lra. }
    destruct (div_round_normal mx my ex ey X EX Hlo' Hhi)
      as (m & e & -> & Hd & He & Hb).
    split; [now apply regular_finite|]. rewrite toQ_finite. exact Hb.
Qed.

(** Reading a non-negative rational. *)
Lemma ofQ_regular (q : Q) :
  ((q == 0 \/ 2 ^ (-1022) <= q) /\ q < 2 ^ 1023)%Q ->
  regular (F64.ofQ q)
  /\ (q * (1 - u64) <= F64.toQ (F64.ofQ q)
      /\ F64.toQ (F64.ofQ q) <= q * (1 + u64))%Q.
Proof.
  intros [Hlo Hhi]. destruct q as [n d]. unfold F64.ofQ. cbn [Qnum Qden].
  destruct n as [|n|n].
  - split; [now left|]. rewrite toQ_zero.
    assert (H0d : (0 # d == 0)%Q) by reflexivity. rewrite H0d. lra.
  - assert (Hpos : (0 < Zpos n # d)%Q) by reflexivity.
    assert (Hlo' : (2 ^ (-1022) <= Zpos n # d)%Q).
    { destruct Hlo as [H0 | H]; [lra | exact H]. }
    assert (EX : ((Zpos n # d) * (inject_Z (Zpos d) * 2 ^ 0)
                  == inject_Z (Zpos n) * 2 ^ 0)%Q).
    { change (2 ^ 0)%Q with 1%Q. rewrite (Qmake_Qdiv (Zpos n) d). field.
      intros E. discriminate E. }
    destruct (div_round_normal n d 0 0 _ EX Hlo' Hhi)
      as (m & e & Hr & Hd & He & Hb).
    unfold F64.ofPos. rewrite Hr.
    split; [now apply regular_finite|]. rewrite toQ_finite. exact Hb.
  - exfalso. assert (Hneg : (Zneg n # d < 0)%Q) by reflexivity.
    pose proof (pow2_pos (-1022)) as Hp. destruct Hlo as [H0 | H]; lra.
Qed.

End Division.

Section RelativeError.
Local Open Scope Q_scope.

Lemma u64_bounds : 0 < u64 /\ u64 < 1 # 2.
Proof. split; reflexivity. Qed.

Lemma shrink_pos (k : nat) : 0 < shrink k.
Proof.
  induction k as [|k IH]; cbn [shrink]; [reflexivity|].
  pose proof u64_bounds. apply Qmult_lt_0_compat; lra.
Qed.

Lemma shrink_le_1 (k : nat) : shrink k <= 1.
Proof.
  induction k as [|k IH]; cbn [shrink]; [discriminate|].
  pose proof u64_bounds. pose proof (shrink_pos k). nra.
Qed.

Lemma shrink_add (j k : nat) : shrink (j + k) == shrink j * shrink k.
Proof.
  induction j as [|j IH]; cbn [shrink Nat.add]; [ring|]. rewrite IH. ring.
Qed.

Lemma shrink_mono (j k : nat) : (j <= k)%nat -> shrink k <= shrink j.
Proof.
  intros H. replace k with (j + (k - j))%nat by lia. rewrite shrink_add.
  pose proof (shrink_pos j). pose proof (shrink_le_1 (k - j)).
  pose proof (shrink_pos (k - j)). nra.
Qed.

(** Bernoulli's inequality. *)
Lemma shrink_bernoulli (k : nat) :
  1 - inject_Z (Z.of_nat k) * u64 <= shrink k.
Proof.
  induction k as [|k IH]; cbn [shrink].
  - change (inject_Z (Z.of_nat 0)) with 0. lra.
  - rewrite Nat2Z.inj_succ. unfold Z.succ. rewrite inject_Z_plus.
    change (inject_Z 1) with 1. pose proof u64_bounds.
    assert (0 <= inject_Z (Z.of_nat k)) by (apply (inject_Z_le 0); lia).
    pose proof (shrink_pos k). nra.
Qed.

Lemma rel_zero (k : nat) : rel k 0 0.
Proof. unfold rel. lra. Qed.

Lemma rel_nonneg (k : nat) (v V : Q) : rel k v V -> 0 <= V -> 0 <= v.
Proof.
  intros [H _] HV. pose proof (shrink_pos k).
  apply Qle_trans with (V * shrink k); [|exact H].
  apply Qmult_le_0_compat; lra.
Qed.

Lemma rel_ext (k : nat) (v v' V V' : Q) :
  v == v' -> V == V' -> rel k v V -> rel k v' V'.
Proof. intros Ev EV [H1 H2]. unfold rel. rewrite <- Ev, <- EV. now split. Qed.

Lemma rel_weaken (j k : nat) (v V : Q) :
  (j <= k)%nat -> 0 <= V -> rel j v V -> rel k v V.
Proof.
  intros Hjk HV H. pose proof (rel_nonneg j v V H HV) as Hv.
  destruct H as [H1 H2]. pose proof (shrink_mono j k Hjk).
  pose proof (shrink_pos k). pose proof (shrink_pos j). split; nra.
Qed.

Lemma rel_round (k : nat) (v v' V : Q) :
  0 <= V -> rel k v V ->
  v * (1 - u64) <= v' -> v' <= v * (1 + u64) ->
  rel (S k) v' V.
Proof.
  intros HV H Hlo Hhi. pose proof (rel_nonneg k v V H HV) as Hv.
  destruct H as [H1 H2]. pose proof u64_bounds as [Hu1 Hu2].
  pose proof (shrink_pos k) as Hs. unfold rel. cbn [shrink]. split.
  - apply Qle_trans with (v * (1 - u64)); [|exact Hlo].
    setoid_replace (V * ((1 - u64) * shrink k))
      with (V * shrink k * (1 - u64)) using relation Qeq by ring.
    apply Qmult_le_compat_r; lra.
  - apply Qle_trans with (v * shrink k); [|exact H2].
    setoid_replace (v' * ((1 - u64) * shrink k))
      with (v' * (1 - u64) * shrink k) using relation Qeq by ring.
    apply Qmult_le_compat_r; [|lra].
    apply Qle_trans with (v * (1 + u64) * (1 - u64)).
    + apply Qmult_le_compat_r; lra.
    + nra.
Qed.

Lemma rel_add (k : nat) (a A b B : Q) :
  rel k a A -> rel k b B -> rel k (a + b) (A + B).
Proof. intros [H1 H2] [H3 H4]. unfold rel. split; lra. Qed.

Lemma rel_mul (j k : nat) (a A b B : Q) :
  0 <= A -> 0 <= B -> rel j a A -> rel k b B ->
  rel (j + k) (a * b) (A * B).
Proof.
  intros HA HB Ha Hb.
  pose proof (rel_nonneg j a A Ha HA) as Ha0.
  pose proof (rel_nonneg k b B Hb HB) as Hb0.
  destruct Ha as [H1 H2], Hb as [H3 H4].
  pose proof (shrink_pos j) as Hj. pose proof (shrink_pos k) as Hk.
  unfold rel. rewrite shrink_add. split.
  - setoid_replace (A * B * (shrink j * shrink k))
      with ((A * shrink j) * (B * shrink k)) using relation Qeq by ring.
    apply Qmult_le_compat_nonneg; split; try assumption;
      apply Qmult_le_0_compat; lra.
  - setoid_replace (a * b * (shrink j * shrink k))
      with ((a * shrink j) * (b * shrink k)) using relation Qeq by ring.
    apply Qmult_le_compat_nonneg; split; try assumption;
      apply Qmult_le_0_compat; lra.
Qed.

Lemma rel_div (j k : nat) (a A b B : Q) :
  0 <= A -> 0 < B -> 0 < b -> rel j a A -> rel k b B ->
  rel (j + k) (a / b) (A / B).
Proof.
  intros HA HB Hb0 Ha Hb.
  pose proof (rel_nonneg j a A Ha HA) as Ha0.
  destruct Ha as [H1 H2], Hb as [H3 H4].
  pose proof (shrink_pos j) as Hj. pose proof (shrink_pos k) as Hk.
  unfold rel. rewrite shrink_add. split.
  - (* A/B * sj * sk <= a / b *)
    apply Qle_shift_div_l; [exact Hb0|].
    setoid_replace (A / B * (shrink j * shrink k) * b)
      with ((A * shrink j) * (b * shrink k) / B) using relation Qeq by (field; lra).
    apply Qle_shift_div_r; [exact HB|].
    apply Qmult_le_compat_nonneg; split; try assumption;
      apply Qmult_le_0_compat; lra.
  - apply Qle_shift_div_l; [exact HB|].
    setoid_replace (a / b * (shrink j * shrink k) * B)
      with ((a * shrink j) * (B * shrink k) / b) using relation Qeq by (field; lra).
    apply Qle_shift_div_r; [exact Hb0|].
    apply Qmult_le_compat_nonneg; split; try assumption;
      apply Qmult_le_0_compat; lra.
Qed.

(** With few enough roundings, the value is within a factor two. *)
Lemma rel_crude (k : nat) (v V : Q) :
  1 # 2 <= shrink k -> 0 <= V -> rel k v V ->
  V * (1 # 2) <= v /\ v <= 2 * V.
Proof.
  intros Hs HV H. pose proof (rel_nonneg k v V H HV) as Hv.
  destruct H as [H1 H2]. split; nra.
Qed.

Lemma shrink_half (k : nat) :
  (Z.of_nat k <= 2 ^ 33)%Z -> 1 # 2 <= shrink k.
Proof.
  intros Hk. pose proof (shrink_bernoulli k) as HB.
  apply inject_Z_le in Hk.
  change (inject_Z (2 ^ 33)) with (8589934592 # 1) in Hk.
  unfold u64 in HB. lra.
Qed.

(** The explicit tolerance: [k] roundings stay within [2 k u]. *)
Lemma rel_tolerance (k : nat) (v V : Q) :
  (Z.of_nat k <= 2 ^ 33)%Z -> 0 <= V -> rel k v V ->
  V * (1 - inject_Z (Z.of_nat k) * (1 # 4503599627370496)) <= v
  /\ v <= V * (1 + inject_Z (Z.of_nat k) * (1 # 4503599627370496)).
Proof.
  intros Hk HV H. pose proof (rel_nonneg k v V H HV) as Hv.
  pose proof (shrink_bernoulli k) as HB.
  pose proof (shrink_half k Hk) as Hh. pose proof (shrink_le_1 k) as H1.
  destruct H as [Hlo Hhi].
  assert (Hk0 : 0 <= inject_Z (Z.of_nat k)) by (apply (inject_Z_le 0); lia).
  apply inject_Z_le in Hk.
  change (inject_Z (2 ^ 33)) with (8589934592 # 1) in Hk.
  set (n := inject_Z (Z.of_nat k)) in *. unfold u64 in HB.
  set (s := shrink k) in *. split.
  - apply Qle_trans with (V * s); [|exact Hlo]. nra.
  - (* v <= V / s <= V (1 + 2 k u) *)
    assert (Hs : s * (1 + n * (1 # 4503599627370496)) >= 1).
    { assert (s >= 1 - n * (1 # 9007199254740992)) by lra.
      assert ((1 - n * (1 # 9007199254740992))
              * (1 + n * (1 # 4503599627370496)) >= 1) by nra.
      nra. }
    nra.
Qed.

End RelativeError.
(** ** Binary64: the allocation up to rounding *)

Section Magnitudes.
Local Open Scope Q_scope.

Lemma ord_nonneg (r : Z) (v : Q) : ord r v -> 0 <= v.
Proof.
  intros [H | [H _]]; [lra|]. pose proof (pow2_pos (- r)). lra.
Qed.

Lemma ord_weaken (r r' : Z) (v : Q) : (r <= r')%Z -> ord r v -> ord r' v.
Proof.
  intros Hr [H | [H1 H2]]; [now left | right]. split.
  - apply Qle_trans with (2 ^ (- r)); [apply pow2_le; lia | exact H1].
  - apply Qle_trans with (2 ^ r); [exact H2 | apply pow2_le; lia].
Qed.

Lemma ord_mul (a b : Z) (x y : Q) : ord a x -> ord b y -> ord (a + b) (x * y).
Proof.
  intros [Hx | [Hx1 Hx2]] [Hy | [Hy1 Hy2]];
    try (left; first [rewrite Hx | rewrite Hy]; ring).
  right. pose proof (pow2_pos (- a)). pose proof (pow2_pos (- b)). split.
  - replace (- (a + b))%Z with (- a + - b)%Z by lia. rewrite pow2_add.
    apply Qmult_le_compat_nonneg; split; lra.
  - rewrite pow2_add. apply Qmult_le_compat_nonneg; split; lra.
Qed.

Lemma ord_div (a b : Z) (x y : Q) :
  ord a x -> 2 ^ (- b) <= y -> y <= 2 ^ b -> ord (a + b) (x / y).
Proof.
  intros Hx Hy1 Hy2. pose proof (pow2_pos (- b)) as Hb. pose proof (pow2_pos b).
  assert (Hy : ord b (/ y)).
  { right. assert (E : 2 ^ (- b) * 2 ^ b == 1).
    { rewrite <- pow2_add. now replace (- b + b)%Z with 0%Z by lia. }
    split.
    - apply Qle_shift_inv_l; [lra|].
      apply Qle_trans with (2 ^ (- b) * 2 ^ b); [|lra].
      rewrite !(Qmult_comm (2 ^ (- b))). apply Qmult_le_compat_r; lra.
    - apply Qle_shift_inv_r; [lra|].
      apply Qle_trans with (2 ^ b * 2 ^ (- b)); [lra|].
      rewrite !(Qmult_comm (2 ^ b)). apply Qmult_le_compat_r; lra. }
  apply (ord_mul a b x (/ y) Hx Hy).
Qed.

Lemma pow2_half (a : Z) : 2 ^ (a - 1) == 2 ^ a * (1 # 2).
Proof. rewrite pow2_pred. field. Qed.

(** A value within a factor two of an ordinary one. *)
Lemma ord_crude (r : Z) (v V : Q) :
  ord r V -> V * (1 # 2) <= v -> v <= 2 * V -> ord (r + 1) v.
Proof.
  intros [HV | [H1 H2]] Hlo Hhi; [left; lra | right].
  pose proof (pow2_pos (- r)). split.
  - replace (- (r + 1))%Z with (- r - 1)%Z by lia. rewrite pow2_half. lra.
  - rewrite pow2_succ. lra.
Qed.

(** The side conditions of the operations. *)
Lemma ord_side (r : Z) (X : Q) :
  (r <= 1022)%Z -> ord r X ->
  (X == 0 \/ 2 ^ (-1022) <= X) /\ X < 2 ^ 1023.
Proof.
  intros Hr [H | [H1 H2]].
  - split; [now left|]. pose proof (pow2_pos 1023). lra.
  - split.
    + right. apply Qle_trans with (2 ^ (- r)); [apply pow2_le; lia | exact H1].
    + apply Qle_lt_trans with (2 ^ r); [exact H2 | apply pow2_lt; lia].
Qed.

End Magnitudes.

Section Approximations.
Local Open Scope Q_scope.

Lemma ord_add (a b : Z) (x y : Q) :
  ord a x -> ord b y -> ord (Z.max a b + 1) (x + y).
Proof.
  intros Hx Hy.
  apply (ord_weaken a (Z.max a b)) in Hx; [|lia].
  apply (ord_weaken b (Z.max a b)) in Hy; [|lia].
  set (r := Z.max a b) in *.
  pose proof (pow2_pos (- r)). pose proof (pow2_pos r).
  assert (E1 : 2 ^ (- (r + 1)) <= 2 ^ (- r)) by (apply pow2_le; lia).
  pose proof (pow2_succ r) as E2.
  destruct Hx as [Hx | [Hx1 Hx2]], Hy as [Hy | [Hy1 Hy2]];
    [left; lra | right; split; lra ..].
Qed.

Lemma shrink_half_small (k : nat) : (k <= 8)%nat -> 1 # 2 <= shrink k.
Proof.
  intros Hk. apply shrink_half.
  apply Z.le_trans with 8%Z; [lia | discriminate].
Qed.

(** Reading an ordinary amount. *)
Lemma read_rel (r : Z) (q : Q) :
  (r <= 1022)%Z -> ord r q ->
  regular (F64.ofQ q) /\ rel 1 (F64.toQ (F64.ofQ q)) q.
Proof.
  intros Hr Hq. pose proof (ord_nonneg r q Hq) as Hq0.
  destruct (ofQ_regular q (ord_side r q Hr Hq)) as (Hreg & Hlo & Hhi).
  split; [exact Hreg|].
  apply (rel_round 0 q); [exact Hq0 | | exact Hlo | exact Hhi].
  unfold rel. cbn [shrink]. lra.
Qed.

(** The three operations on approximations of non-negative values. *)
Lemma add_rel (k : nat) (r : Z) (x y : spec_float) (A B : Q) :
  regular x -> regular y ->
  rel k (F64.toQ x) A -> rel k (F64.toQ y) B ->
  0 <= A -> 0 <= B -> ord r (A + B) -> (r <= 1021)%Z ->
  1 # 2 <= shrink k ->
  regular (F64.add x y) /\ rel (S k) (F64.toQ (F64.add x y)) (A + B).
Proof.
  intros Hx Hy Rx Ry HA HB Hord Hr Hs.
  pose proof (rel_add k _ _ _ _ Rx Ry) as Rsum.
  assert (HAB : 0 <= A + B) by lra.
  destruct (rel_crude k _ _ Hs HAB Rsum) as [Hc1 Hc2].
  pose proof (ord_crude r _ _ Hord Hc1 Hc2) as HX.
  destruct (ord_side (r + 1) _ ltac:(lia) HX) as [_ Hhi].
  destruct (add_regular x y Hx Hy Hhi) as (Hreg & Hlo & Hup).
  split; [exact Hreg|]. now apply (rel_round k (F64.toQ x + F64.toQ y)).
Qed.

Lemma mul_rel (j k : nat) (r : Z) (x y : spec_float) (A B : Q) :
  regular x -> regular y ->
  rel j (F64.toQ x) A -> rel k (F64.toQ y) B ->
  0 <= A -> 0 <= B -> ord r (A * B) -> (r <= 1021)%Z ->
  1 # 2 <= shrink (j + k) ->
  regular (F64.mul x y) /\ rel (S (j + k)) (F64.toQ (F64.mul x y)) (A * B).
Proof.
  intros Hx Hy Rx Ry HA HB Hord Hr Hs.
  pose proof (rel_mul j k _ _ _ _ HA HB Rx Ry) as Rprod.
  assert (HAB : 0 <= A * B) by (now apply Qmult_le_0_compat).
  destruct (rel_crude (j + k) _ _ Hs HAB Rprod) as [Hc1 Hc2].
  pose proof (ord_crude r _ _ Hord Hc1 Hc2) as HX.
  pose proof (ord_side (r + 1) _ ltac:(lia) HX) as Hside.
  destruct (mul_regular x y Hx Hy Hside) as (Hreg & Hlo & Hup).
  split; [exact Hreg|].
  now apply (rel_round (j + k) (F64.toQ x * F64.toQ y)).
Qed.

Lemma div_rel (j k : nat) (r : Z) (x y : spec_float) (A B : Q) :
  regular x -> regular y ->
  rel j (F64.toQ x) A -> rel k (F64.toQ y) B ->
  0 <= A -> 0 < B -> ord r (A / B) -> (r <= 1021)%Z ->
  1 # 2 <= shrink (j + k) ->
  regular (F64.div x y) /\ rel (S (j + k)) (F64.toQ (F64.div x y)) (A / B).
Proof.
  intros Hx Hy Rx Ry HA HB Hord Hr Hs.
  assert (Hy0 : 0 < F64.toQ y).
  { destruct Ry as [H _]. pose proof (shrink_pos k).
    apply Qlt_le_trans with (B * shrink k); [|exact H].
    apply Qmult_lt_0_compat; lra. }
  pose proof (rel_div j k _ _ _ _ HA HB Hy0 Rx Ry) as Rquot.
  assert (HAB : 0 <= A / B).
  { apply Qle_shift_div_l; [exact HB | lra]. }
  destruct (rel_crude (j + k) _ _ Hs HAB Rquot) as [Hc1 Hc2].
  pose proof (ord_crude r _ _ Hord Hc1 Hc2) as HX.
  destruct (ord_side (r + 1) _ ltac:(lia) HX) as [Hlo Hhi].
  assert (Hside : (F64.toQ x == 0 \/ 2 ^ (-1022) <= F64.toQ x / F64.toQ y)
                  /\ F64.toQ x / F64.toQ y < 2 ^ 1023).
  { split; [|exact Hhi]. destruct Hlo as [H0 | H]; [left | now right].
    assert (E : F64.toQ x == F64.toQ x / F64.toQ y * F64.toQ y)
      by (field; lra).
    rewrite E, H0. ring. }
  destruct (div_regular x y Hx Hy Hy0 Hside) as (Hreg & Hl & Hu).
  split; [exact Hreg|].
  now apply (rel_round (j + k) (F64.toQ x / F64.toQ y)).
Qed.

Lemma ltb_zero_regular (x : spec_float) :
  regular x -> 0 < F64.toQ x -> F64.ltb F64.zero x = true.
Proof.
  intros [-> | (m & e & -> & _)] H; [cbn in H; lra | reflexivity].
Qed.

Lemma ordinaryAmount_ord (x : number) :
  ordinaryAmount x = true <-> exists q, x = Num q /\ ord 200 q.
Proof.
  unfold ordinaryAmount, ord. destruct x as [|q].
  - split; [discriminate | intros (q & H & _); discriminate].
  - rewrite orb_true_iff, andb_true_iff, Qeq_bool_iff, !Qle_bool_iff.
    split.
    + intros H. exists q. split; [reflexivity | exact H].
    + intros (q' & E & H). injection E as ->. exact H.
Qed.

End Approximations.

Section AllocationUpToRounding.
Local Open Scope Q_scope.

Lemma ord_positive (r : Z) (q : Q) :
  ord r q -> 0 < q -> 2 ^ (- r) <= q /\ q <= 2 ^ r.
Proof. intros [H | H] Hq; [lra | exact H]. Qed.

(** The contribution of one line item, computed in binary64, is the exact
    share up to six roundings. *)
Lemma contribution_rel (o : ParsedOrder) (l sub tax : Q) :
  lineItemSubtotal o = Num l ->
  orderSubTotal o = Num sub ->
  orderTaxAmount o = Num tax ->
  ord 200 l -> ord 200 sub -> ord 200 tax -> 0 < sub ->
  regular (lineItemRevenueContribution o)
  /\ rel 6 (F64.toQ (lineItemRevenueContribution o)) (l + l / sub * tax).
Proof.
  intros El Es Et Hl Hs Ht Hpos.
  unfold lineItemRevenueContribution. rewrite El, Es, Et.
  cbn [F64.ofNumber].
  destruct (read_rel 200 l ltac:(lia) Hl) as [RL HL].
  destruct (read_rel 200 sub ltac:(lia) Hs) as [RS HS].
  destruct (read_rel 200 tax ltac:(lia) Ht) as [RT HT].
  pose proof (ord_nonneg _ _ Hl) as Hl0.
  pose proof (ord_nonneg _ _ Ht) as Ht0.
  destruct (ord_positive _ _ Hs Hpos) as [Hs1 Hs2].
  assert (HS0 : 0 < F64.toQ (F64.ofQ sub)).
  { destruct HS as [H _]. pose proof (shrink_pos 1).
    apply Qlt_le_trans with (sub * shrink 1); [|exact H].
    apply Qmult_lt_0_compat; lra. }
  rewrite (ltb_zero_regular _ RS HS0).
  pose proof (ord_div 200 200 l sub Hl Hs1 Hs2) as Hq.
  assert (Hq0 : 0 <= l / sub) by (apply Qle_shift_div_l; lra).
  destruct (div_rel 1 1 400 _ _ l sub RL RS HL HS Hl0 Hpos Hq ltac:(lia)
              (shrink_half_small 2 ltac:(lia))) as [RD HD].
  pose proof (ord_mul 400 200 _ _ Hq Ht) as Hm.
  destruct (mul_rel 3 1 600 _ _ (l / sub) tax RD RT HD HT Hq0 Ht0 Hm
              ltac:(lia) (shrink_half_small 4 ltac:(lia))) as [RM HM].
  assert (Hm0 : 0 <= l / sub * tax) by (now apply Qmult_le_0_compat).
  pose proof (ord_add 200 600 _ _ Hl Hm) as Ha.
  apply (rel_weaken 1 5) in HL; [|lia | exact Hl0].
  exact (add_rel 5 601 _ _ l (l / sub * tax) RL RM HL HM Hl0 Hm0 Ha
           ltac:(lia) (shrink_half_small 5 ltac:(lia))).
Qed.

Lemma fold_add_from_NaN (items : list ParsedOrder) :
  fold_left (fun acc o => Number.add acc (lineItemSubtotal o)) items NaN
  = NaN.
Proof. induction items as [|o rest IH]; [reflexivity | exact IH]. Qed.

(** The exact sum of ordinary line subtotals only grows, and stays
    ordinary as long as it is at most 2^200. *)
Lemma line_sum_grows (items : list ParsedOrder) :
  (forall o, o ∈ items -> ordinaryAmount (lineItemSubtotal o) = true) ->
  forall a a' : Q,
    fold_left (fun acc o => Number.add acc (lineItemSubtotal o)) items (Num a)
    = Num a' ->
    a <= a'.
Proof.
  induction items as [|o rest IH]; intros Hall a a' Hsum.
  - cbn in Hsum. injection Hsum as <-. lra.
  - cbn [fold_left] in Hsum.
    destruct (proj1 (ordinaryAmount_ord _) (Hall o (list_elem_of_here _ _)))
      as (l & El & Hl).
    rewrite El in Hsum. cbn [Number.add] in Hsum.
    pose proof (ord_nonneg _ _ Hl).
    pose proof (IH (fun o' Ho' => Hall o' (list_elem_of_further _ _ _ Ho'))
                  _ _ Hsum).
    lra.
Qed.

Lemma ord_sum (a l : Q) :
  ord 200 a -> ord 200 l -> a + l <= 2 ^ 200 -> ord 200 (a + l).
Proof.
  intros Ha Hl Hle. pose proof (pow2_pos (Z.opp 200)).
  destruct Ha as [Ha | [Ha1 Ha2]], Hl as [Hl | [Hl1 Hl2]];
    [left; lra | right; split; lra ..].
Qed.

(** The running total of the contributions of the items of one order. *)
Lemma fold_contribution_rel (sub tax : Q) (items : list ParsedOrder) :
  ord 200 sub -> ord 200 tax -> 0 < sub ->
  (forall o, o ∈ items ->
     orderSubTotal o = Num sub /\ orderTaxAmount o = Num tax
     /\ ordinaryAmount (lineItemSubtotal o) = true) ->
  forall (revenue : spec_float) (j : nat) (a a' : Q),
    regular revenue ->
    rel (6 + j) (F64.toQ revenue) (a * (1 + tax / sub)) ->
    ord 200 a ->
    fold_left (fun acc o => Number.add acc (lineItemSubtotal o)) items (Num a)
    = Num a' ->
    a' <= sub ->
    (Z.of_nat (6 + j + length items) <= 2 ^ 33)%Z ->
    regular
      (fold_left
         (fun revenue order =>
            F64.add revenue (lineItemRevenueContribution order))
         items revenue)
    /\ rel (6 + j + length items)
         (F64.toQ
            (fold_left
               (fun revenue order =>
                  F64.add revenue (lineItemRevenueContribution order))
               items revenue))
         (a' * (1 + tax / sub)).
Proof.
  intros Hs Ht Hpos.
  pose proof (ord_nonneg _ _ Ht) as Ht0.
  destruct (ord_positive _ _ Hs Hpos) as [Hs1 Hs2].
  assert (HA : 1 <= 1 + tax / sub).
  { assert (0 <= tax / sub) by (apply Qle_shift_div_l; lra). lra. }
  assert (Htot : sub * (1 + tax / sub) == sub + tax) by (field; lra).
  induction items as [|o rest IH];
    intros Hall revenue j a a' Hreg Hrel Ha Hsum Hle Hlen.
  - cbn [fold_left] in *. injection Hsum as <-.
    rewrite Nat.add_0_r. now split.
  - cbn [fold_left] in *.
    destruct (Hall o (list_elem_of_here _ _)) as (Es & Et & Hord).
    destruct (proj1 (ordinaryAmount_ord _) Hord) as (l & El & Hl).
    rewrite El in Hsum. cbn [Number.add] in Hsum.
    assert (Hall' : forall o', o' ∈ rest ->
               orderSubTotal o' = Num sub /\ orderTaxAmount o' = Num tax
               /\ ordinaryAmount (lineItemSubtotal o') = true)
      by (intros o' Ho'; apply Hall; now apply list_elem_of_further).
    pose proof (line_sum_grows rest (fun o' Ho' => proj2 (proj2 (Hall' o' Ho')))
                  _ _ Hsum) as Hgrow.
    pose proof (ord_nonneg _ _ Ha) as Ha0.
    pose proof (ord_nonneg _ _ Hl) as Hl0.
    assert (Hal : ord 200 (a + l)) by (apply ord_sum; try assumption; lra).
    destruct (contribution_rel o l sub tax El Es Et Hl Hs Ht Hpos)
      as [Rc Hc].
    assert (Ec : l + l / sub * tax == l * (1 + tax / sub)) by (field; lra).
    apply (rel_ext 6 _ _ _ _ (Qeq_refl _) Ec) in Hc.
    assert (HlA : 0 <= l * (1 + tax / sub))
      by (apply Qmult_le_0_compat; lra).
    assert (HaA : 0 <= a * (1 + tax / sub))
      by (apply Qmult_le_0_compat; lra).
    apply (rel_weaken 6 (6 + j)) in Hc; [|lia | exact HlA].
    assert (Hsh : 1 # 2 <= shrink (6 + j)).
    { apply shrink_half. cbn [length] in Hlen. lia. }
    assert (Hord' : ord 201 (a * (1 + tax / sub) + l * (1 + tax / sub))).
    { pose proof (pow2_pos (Z.opp 200)). pose proof (pow2_pos (Z.opp 201)).
      assert (2 ^ (Z.opp 201) <= 2 ^ (Z.opp 200)) by (apply pow2_le; lia).
      pose proof (pow2_succ 200) as E201.
      change (200 + 1)%Z with 201%Z in E201.
      assert (Eal : a * (1 + tax / sub) + l * (1 + tax / sub)
                    == (a + l) * (1 + tax / sub)) by ring.
      assert (Htax : tax <= 2 ^ 200).
      { destruct Ht as [Hz | [_ Hz]]; [|exact Hz].
        pose proof (pow2_pos 200). lra. }
      assert (Hup : (a + l) * (1 + tax / sub) <= sub * (1 + tax / sub)).
      { apply Qmult_le_compat_r; lra. }
      destruct Hal as [Hz | [Hz1 Hz2]].
      - left. rewrite Eal, Hz. ring.
      - right. rewrite Eal. split; [|lra].
        apply Qle_trans with (a + l); [lra|].
        rewrite <- (Qmult_1_r (a + l)) at 1.
        rewrite !(Qmult_comm (a + l)). apply Qmult_le_compat_r; lra. }
    destruct (add_rel (6 + j) 201 revenue (lineItemRevenueContribution o)
                _ _ Hreg Rc Hrel Hc HaA HlA Hord' ltac:(lia) Hsh)
      as [Rnew Hnew].
    assert (Enew : a * (1 + tax / sub) + l * (1 + tax / sub)
                   == (a + l) * (1 + tax / sub)) by ring.
    apply (rel_ext _ _ _ _ _ (Qeq_refl _) Enew) in Hnew.
    change (S (6 + j)) with (6 + S j)%nat in Hnew.
    destruct (IH Hall' _ (S j) (a + l) a' Rnew Hnew Hal Hsum Hle) as [R H].
    { cbn [length] in Hlen. lia. }
    cbn [length]. replace (6 + j + S (length rest))%nat
      with (6 + S j + length rest)%nat by lia.
    now split.
Qed.

End AllocationUpToRounding.

(** ** Revenue allocation *)

Lemma fold_add_NaN {A : Type} (f : A -> number) (items : list A) :
  fold_left (fun acc o => Number.add acc (f o)) items NaN = NaN.
Proof. induction items as [|o rest IH]; simpl; [reflexivity | exact IH]. Qed.

Lemma itemsOf_elem (oid : string) (orders : list ParsedOrder)
  (o : ParsedOrder) :
  o ∈ itemsOf oid orders <-> o ∈ orders /\ orderId o = oid.
Proof.
  unfold itemsOf. rewrite !list_elem_of_In, filter_In, String.eqb_eq.
  reflexivity.
Qed.

(** Records of one order share the order-level amounts. *)
Lemma parseCSVData_same_order (csvText : string) (filterCity : option City)
  (orders : list ParsedOrder) (o1 o2 : ParsedOrder) :
  parseCSVData csvText filterCity = inr orders ->
  o1 ∈ orders -> o2 ∈ orders -> orderId o1 = orderId o2 ->
  orderSubTotal o1 = orderSubTotal o2
  /\ orderTaxAmount o1 = orderTaxAmount o2
  /\ orderTotalAmount o1 = orderTotalAmount o2
  /\ sourceName o1 = sourceName o2.
Proof.
  intros Hparse H1 H2 Hid. rewrite parseCSVData_unfold in Hparse.
  destruct (resolveIndices (headersOf csvText)) as [e|ix]; [discriminate|].
  injection Hparse as <-.
  apply pass2_snapshot in H1 as (_ & s1 & Ht1 & _ & -> & -> & -> & ->).
  apply pass2_snapshot in H2 as (_ & s2 & Ht2 & _ & -> & -> & -> & ->).
  rewrite Hid, Ht2 in Ht1. injection Ht1 as ->. repeat split.
Qed.

Lemma totalLineSubtotal_Num (items : list ParsedOrder) (sub : Q) :
  Number.eqv (totalLineSubtotal items) (Num sub) ->
  exists a' : Q,
    fold_left (fun acc o => Number.add acc (lineItemSubtotal o)) items
      (Num 0%Q) = Num a'
    /\ (a' == sub)%Q.
Proof.
  unfold totalLineSubtotal, Number.zero.
  destruct (fold_left (fun acc o => Number.add acc (lineItemSubtotal o))
              items (Num 0%Q)) as [|a']; [contradiction|].
  intros H. now exists a'.
Qed.

(** C1, as stated, fails, and by more than rounding, on orders all of whose
    line items are in the output.
    - Order 1 has one line with subtotal 10 against an order subtotal of
      20 and a tax of 2: the contributions add up to 11, the order
      subtotal plus tax is 22.
    - Order 2 has line subtotal 0, order subtotal 0 and tax 5: the sum is
      0, not 5.
    - Order 4 has line subtotals 9007199254740993 and -9007199254740992,
      which add up to its order subtotal 1, and tax 1: the sum is 0, not
      2.
    - Order 5 has line subtotal and order subtotal 10^309: both are read
      as the infinity, the contribution is the NaN, the order subtotal
      plus tax is the infinity.
    - Order 6 has two lines of 2.5e-324, order subtotal 5e-324 and tax 1:
      the sum is 2, the order subtotal plus tax is 1. *)
Lemma allocation_sum_mismatch :
  (exists o : ParsedOrder,
      parseCSVData (csvOf [rowDC]) (Some dc) = inr [o]
      /\ itemsOf "1" [o] = [o]
      /\ totalContribution (itemsOf "1" [o]) = F64.ofQ 11
      /\ F64.add (F64.ofNumber (orderSubTotal o))
           (F64.ofNumber (orderTaxAmount o)) = F64.ofQ 22)
  /\ (exists o : ParsedOrder,
        parseCSVData (csvOf [rowZeroSub]) (Some dc) = inr [o]
        /\ itemsOf "2" [o] = [o]
        /\ Number.eqv (totalLineSubtotal (itemsOf "2" [o])) (orderSubTotal o)
        /\ totalContribution (itemsOf "2" [o]) = F64.zero
        /\ F64.add (F64.ofNumber (orderSubTotal o))
             (F64.ofNumber (orderTaxAmount o)) = F64.ofQ 5)
  /\ (exists a b : ParsedOrder,
        parseCSVData (csvOf [rowCancelA; rowCancelB]) (Some dc) = inr [a; b]
        /\ itemsOf "4" [a; b] = [a; b]
        /\ orderSubTotal a = Num 1
        /\ Number.eqv (totalLineSubtotal (itemsOf "4" [a; b]))
             (orderSubTotal a)
        /\ totalContribution (itemsOf "4" [a; b]) = F64.zero
        /\ F64.add (F64.ofNumber (orderSubTotal a))
             (F64.ofNumber (orderTaxAmount a)) = F64.ofQ 2)
  /\ (exists o : ParsedOrder,
        parseCSVData (csvOf [rowHuge]) (Some dc) = inr [o]
        /\ itemsOf "5" [o] = [o]
        /\ Number.eqv (totalLineSubtotal (itemsOf "5" [o])) (orderSubTotal o)
        /\ totalContribution (itemsOf "5" [o]) = S754_nan
        /\ F64.add (F64.ofNumber (orderSubTotal o))
             (F64.ofNumber (orderTaxAmount o)) = S754_infinity false)
  /\ (exists a b : ParsedOrder,
        parseCSVData (csvOf [rowTinyA; rowTinyB]) (Some dc) = inr [a; b]
        /\ itemsOf "6" [a; b] = [a; b]
        /\ Number.eqv (totalLineSubtotal (itemsOf "6" [a; b]))
             (orderSubTotal a)
        /\ totalContribution (itemsOf "6" [a; b]) = F64.ofQ 2
        /\ F64.add (F64.ofNumber (orderSubTotal a))
             (F64.ofNumber (orderTaxAmount a)) = F64.ofQ 1).
Proof.
  split; [|split; [|split; [|split]]].
  - eexists. split; [vm_compute; reflexivity|].
    repeat split; vm_compute; reflexivity.
  - eexists. split; [vm_compute; reflexivity|].
    repeat split; vm_compute; reflexivity.
  - eexists _, _. split; [vm_compute; reflexivity|].
    repeat split; vm_compute; reflexivity.
  - eexists. split; [vm_compute; reflexivity|].
    repeat split; vm_compute; reflexivity.
  - eexists _, _. split; [vm_compute; reflexivity|].
    repeat split; vm_compute; reflexivity.
Qed.

(** C1, amended.  Take an order present in the parser's output whose order
    subtotal is positive, whose order subtotal, tax and line subtotals are
    ordinary amounts (zero, or between 2^-200 and 2^200; in particular not
    negative), and whose emitted line items have subtotals that, as
    written in their cells, add up to the order subtotal; a JavaScript
    array has fewer than 2^32 elements.  Then the contributions of those
    line items, each computed and then added up in binary64, give a
    finite number that differs from the order subtotal plus tax by at most
    (n + 6) 2^-52 times that amount, where n is the number of line items;
    and the binary64 sum of the order subtotal and the tax differs from it
    by at most 2 * 2^-52 times that amount. *)
Theorem allocation_sums_to_order_total (csvText : string)
  (filterCity : option City) (orders : list ParsedOrder) (o0 : ParsedOrder)
  (sub tax : Q) :
  parseCSVData csvText filterCity = inr orders ->
  o0 ∈ orders ->
  let items := itemsOf (orderId o0) orders in
  orderSubTotal o0 = Num sub ->
  orderTaxAmount o0 = Num tax ->
  (0 < sub)%Q ->
  ordinaryAmount (orderSubTotal o0) = true ->
  ordinaryAmount (orderTaxAmount o0) = true ->
  forallb (fun o => ordinaryAmount (lineItemSubtotal o)) items = true ->
  Number.eqv (totalLineSubtotal items) (Num sub) ->
  (Z.of_nat (length items) < 2 ^ 32)%Z ->
  let tolerance :=
    (inject_Z (Z.of_nat (length items) + 6) * (1 # 4503599627370496))%Q in
  let orderSum :=
    F64.add (F64.ofNumber (orderSubTotal o0))
            (F64.ofNumber (orderTaxAmount o0)) in
  regular (totalContribution items)
  /\ ((sub + tax) * (1 - tolerance) <= F64.toQ (totalContribution items)
      /\ F64.toQ (totalContribution items) <= (sub + tax) * (1 + tolerance))%Q
  /\ regular orderSum
  /\ ((sub + tax) * (1 - (2 # 4503599627370496)) <= F64.toQ orderSum
      /\ F64.toQ orderSum <= (sub + tax) * (1 + (2 # 4503599627370496)))%Q
  /\ (F64.toQ (totalContribution items) - F64.toQ orderSum
      <= (sub + tax) * (tolerance + (2 # 4503599627370496))
      /\ F64.toQ orderSum - F64.toQ (totalContribution items)
         <= (sub + tax) * (tolerance + (2 # 4503599627370496)))%Q.
Proof.
  intros Hparse Hin items Hsub Htax Hpos Hos Hot Hlines Hsum Hlen tolerance
         orderSum.
  assert (Hs : ord 200 sub).
  { apply ordinaryAmount_ord in Hos as (q & E & H). rewrite Hsub in E.
    now injection E as ->. }
  assert (Ht : ord 200 tax).
  { apply ordinaryAmount_ord in Hot as (q & E & H). rewrite Htax in E.
    now injection E as ->. }
  pose proof (ord_nonneg _ _ Ht) as Ht0.
  assert (Hall : forall o, o ∈ items ->
             orderSubTotal o = Num sub /\ orderTaxAmount o = Num tax
             /\ ordinaryAmount (lineItemSubtotal o) = true).
  { intros o Ho. pose proof Ho as Ho'.
    apply itemsOf_elem in Ho as [Ho Hid].
    destruct (parseCSVData_same_order _ _ _ o o0 Hparse Ho Hin Hid)
      as (-> & -> & _).
    split; [exact Hsub|]. split; [exact Htax|].
    rewrite forallb_forall in Hlines. apply Hlines.
    now apply list_elem_of_In. }
  destruct (totalLineSubtotal_Num items sub Hsum) as (a' & Hfold & Ea').
  assert (Hrel0 : rel (6 + 0) (F64.toQ F64.zero) (0 * (1 + tax / sub))%Q).
  { apply (rel_ext _ 0%Q _ 0%Q); [reflexivity | ring | apply rel_zero]. }
  assert (Hord0 : ord 200 0%Q) by (left; reflexivity).
  assert (Hreg0 : regular F64.zero) by (now left).
  destruct (fold_contribution_rel sub tax items Hs Ht Hpos Hall F64.zero 0
              0%Q a' Hreg0 Hrel0 Hord0 Hfold ltac:(lra) ltac:(lia))
    as [Rtot Htot].
  fold (totalContribution items) in Rtot, Htot.
  assert (Etot : (a' * (1 + tax / sub) == sub + tax)%Q).
  { rewrite Ea'. field. lra. }
  apply (rel_ext _ _ _ _ _ (Qeq_refl _) Etot) in Htot.
  assert (Hst0 : (0 <= sub + tax)%Q) by lra.
  assert (Hk : (Z.of_nat (6 + 0 + length items) <= 2 ^ 33)%Z) by lia.
  pose proof (rel_tolerance _ _ _ Hk Hst0 Htot) as Htol.
  replace (Z.of_nat (6 + 0 + length items))
    with (Z.of_nat (length items) + 6)%Z in Htol by lia.
  fold tolerance in Htol.
  assert (Esum : orderSum = F64.add (F64.ofQ sub) (F64.ofQ tax)).
  { unfold orderSum. now rewrite Hsub, Htax. }
  destruct (read_rel 200 sub ltac:(lia) Hs) as [RS HS].
  destruct (read_rel 200 tax ltac:(lia) Ht) as [RT HT].
  pose proof (ord_add 200 200 _ _ Hs Ht) as Hord.
  destruct (add_rel 1 201 _ _ sub tax RS RT HS HT ltac:(lra) Ht0 Hord
              ltac:(lia) (shrink_half_small 1 ltac:(lia))) as [Rsum Hrsum].
  rewrite <- Esum in Rsum, Hrsum.
  assert (H2 : (Z.of_nat 2 <= 2 ^ 33)%Z) by lia.
  pose proof (rel_tolerance 2 _ _ H2 Hst0 Hrsum) as Htol2.
  change (inject_Z (Z.of_nat 2) * (1 # 4503599627370496))%Q
    with (2 # 4503599627370496)%Q in Htol2.
  split; [exact Rtot|]. split; [exact Htol|].
  split; [exact Rsum|]. split; [exact Htol2|].
  clearbody tolerance orderSum. clear - Htol Htol2. split; lra.
Qed.

Lemma allocation_sums_to_order_total_witness :
  let orders := tenRecordA :: repeat tenRecordB 9 in
  parseCSVData (csvOf (rowTenA :: repeat rowTenB 9)) (Some dc) = inr orders
  /\ totalContribution (itemsOf "8" orders)
     = S754_finite false 6192449487634431 (-49)
  /\ F64.add (F64.ofQ 10) (F64.ofQ 1)
     = S754_finite false 6192449487634432 (-49)
  /\ ((10 + 1) * (1 - inject_Z 16 * (1 # 4503599627370496))
      <= F64.toQ (totalContribution (itemsOf "8" orders))
      /\ F64.toQ (totalContribution (itemsOf "8" orders))
         <= (10 + 1) * (1 + inject_Z 16 * (1 # 4503599627370496)))%Q.
Proof.
  intros orders.
  assert (Hparse : parseCSVData (csvOf (rowTenA :: repeat rowTenB 9))
                     (Some dc) = inr orders) by (vm_compute; reflexivity).
  split; [exact Hparse|].
  split; [vm_compute; reflexivity|].
  split; [vm_compute; reflexivity|].
  assert (Hin : tenRecordA ∈ orders) by apply list_elem_of_here.
  destruct (allocation_sums_to_order_total
              (csvOf (rowTenA :: repeat rowTenB 9)) (Some dc) orders
              tenRecordA 10 1 Hparse Hin eq_refl eq_refl eq_refl eq_refl
              eq_refl eq_refl)
    as (_ & Hbound & _).
  - vm_compute. reflexivity.
  - vm_compute. reflexivity.
  - exact Hbound.
Defined.

(** * Further properties *)

(** ** The tokenizer as the inverse of comma-joining *)

Lemma join_cons2 (sep p q : string) (rest : list string) :
  join sep (p :: q :: rest) = p +:+ sep +:+ join sep (q :: rest).
Proof. reflexivity. Qed.

Lemma parseCSVLine_loop_quoted (f : string) :
  forall (rest : string) (result : list string) (current : string),
  startsWithQuote rest = false ->
  parseCSVLine_loop (escapeQuotes f +:+ String quoteChar rest)
    result current true
  = parseCSVLine_loop rest result (current +:+ f) false.
Proof.
  induction f as [|c f IH]; intros rest result current Hrest.
  - simpl escapeQuotes. rewrite append_nil_l, append_nil_r.
    rewrite parseCSVLine_loop_cons, Ascii.eqb_refl.
    destruct rest as [|c' rest']; [reflexivity|].
    simpl in Hrest. unfold isQuote in Hrest. now rewrite Hrest.
  - simpl escapeQuotes. unfold isQuote.
    destruct (Ascii.eqb c quoteChar) eqn:Ec.
    + apply Ascii.eqb_eq in Ec. subst c.
      rewrite !append_cons, parseCSVLine_loop_cons, !Ascii.eqb_refl.
      rewrite IH by assumption. now rewrite append_snoc_cons.
    + rewrite append_cons, parseCSVLine_loop_cons, Ec, andb_false_r.
      rewrite IH by assumption. now rewrite append_snoc_cons.
Qed.

Lemma parseCSVLine_loop_quoteField (f rest : string) (result : list string)
  (current : string) :
  startsWithQuote rest = false ->
  parseCSVLine_loop (quoteField f +:+ rest) result current false
  = parseCSVLine_loop rest result (current +:+ f) false.
Proof.
  intros Hrest. unfold quoteField, quote1.
  rewrite append_cons, append_assoc, append_cons, append_nil_l.
  rewrite parseCSVLine_loop_cons, Ascii.eqb_refl.
  assert (E : parseCSVLine_loop (escapeQuotes f +:+ String quoteChar rest)
                result current (negb false)
              = parseCSVLine_loop rest result (current +:+ f) false)
    by (now apply parseCSVLine_loop_quoted).
  destruct (escapeQuotes f +:+ String quoteChar rest); exact E.
Qed.

Lemma parseCSVLine_loop_comma (rest : string) (result : list string)
  (current : string) :
  parseCSVLine_loop (String commaChar rest) result current false
  = parseCSVLine_loop rest (result ++ [current]) EmptyString false.
Proof. rewrite parseCSVLine_loop_cons. reflexivity. Qed.

Lemma parseCSVLine_loop_quoted_fields (fields : list string) :
  forall (f : string) (result : list string),
  parseCSVLine_loop (join comma1 (quoteField <$> (f :: fields)))
    result EmptyString false
  = result ++ f :: fields.
Proof.
  induction fields as [|g fields IH]; intros f result.
  - simpl join. rewrite <- (append_nil_r (quoteField f)).
    rewrite parseCSVLine_loop_quoteField by reflexivity. reflexivity.
  - change (quoteField <$> f :: g :: fields)
      with (quoteField f :: quoteField g :: (quoteField <$> fields)).
    rewrite join_cons2. unfold comma1 at 1. rewrite append_cons, append_nil_l.
    rewrite parseCSVLine_loop_quoteField by reflexivity.
    rewrite parseCSVLine_loop_comma, append_nil_l.
    change (quoteField g :: (quoteField <$> fields))
      with (quoteField <$> g :: fields).
    rewrite IH. now rewrite <- app_assoc.
Qed.

(** X1.  The tokenizer inverts the usual quoting: whatever the fields contain
    (commas, quotes, white space), writing each between quotes with its
    own quotes doubled and joining them with commas gives a line that
    tokenizes back to exactly those fields. *)
Theorem parseCSVLine_quoted_round_trip (fields : list string) :
  fields <> [] ->
  parseCSVLine (join comma1 (quoteField <$> fields)) = fields.
Proof.
  destruct fields as [|f fields]; [congruence|]. intros _.
  unfold parseCSVLine. now rewrite parseCSVLine_loop_quoted_fields.
Qed.

Lemma parseCSVLine_quoted_round_trip_witness :
  parseCSVLine
    (join comma1
       (quoteField <$> ["Smith, Jo"; "6" +:+ quote1 +:+ " deck"; EmptyString]))
  = ["Smith, Jo"; "6" +:+ quote1 +:+ " deck"; EmptyString].
Proof.
  apply (parseCSVLine_quoted_round_trip
           ["Smith, Jo"; "6" +:+ quote1 +:+ " deck"; EmptyString]).
  discriminate.
Defined.

Lemma parseCSVLine_loop_plain (f : string) :
  forall (rest : string) (result : list string) (current : string),
  noQuote f = true -> noComma f = true ->
  parseCSVLine_loop (f +:+ rest) result current false
  = parseCSVLine_loop rest result (current +:+ f) false.
Proof.
  induction f as [|c f IH]; intros rest result current Hq Hc.
  - now rewrite append_nil_l, append_nil_r.
  - apply noQuote_cons in Hq as [Hcq Hq].
    simpl in Hc. apply andb_prop in Hc as [Hcc Hc].
    apply negb_true_iff in Hcc.
    rewrite append_cons, parseCSVLine_loop_cons, Hcq, Hcc. simpl.
    rewrite IH by assumption. now rewrite append_snoc_cons.
Qed.

Lemma parseCSVLine_loop_plain_fields (fields : list string) :
  forall (f : string) (result : list string),
  Forall (fun g => noQuote g = true /\ noComma g = true) (f :: fields) ->
  parseCSVLine_loop (join comma1 (f :: fields)) result EmptyString false
  = result ++ f :: fields.
Proof.
  induction fields as [|g fields IH]; intros f result Hall.
  - simpl join. apply Forall_cons in Hall as [[Hq Hc] _].
    pose proof (parseCSVLine_loop_plain f EmptyString result EmptyString
                  Hq Hc) as E.
    rewrite append_nil_r in E. rewrite E. reflexivity.
  - apply Forall_cons in Hall as [[Hq Hc] Hall].
    rewrite join_cons2. unfold comma1 at 1. rewrite append_cons, append_nil_l.
    rewrite parseCSVLine_loop_plain by assumption.
    rewrite parseCSVLine_loop_comma, append_nil_l.
    rewrite IH by assumption. now rewrite <- app_assoc.
Qed.

(** X2.  Fields that contain neither a comma nor a quote need no quoting:
    joining them with commas gives a line that tokenizes back to them. *)
Theorem parseCSVLine_plain_round_trip (fields : list string) :
  fields <> [] ->
  Forall (fun g => noQuote g = true /\ noComma g = true) fields ->
  parseCSVLine (join comma1 fields) = fields.
Proof.
  destruct fields as [|f fields]; [congruence|]. intros _ Hall.
  unfold parseCSVLine. now rewrite parseCSVLine_loop_plain_fields.
Qed.

Lemma parseCSVLine_plain_round_trip_witness :
  parseCSVLine (join comma1 ["17"; "  Ann Lee "; EmptyString; "$10.00"])
  = ["17"; "  Ann Lee "; EmptyString; "$10.00"].
Proof.
  apply (parseCSVLine_plain_round_trip
           ["17"; "  Ann Lee "; EmptyString; "$10.00"]).
  - discriminate.
  - repeat constructor.
Defined.

(** ** The number of fields *)

Lemma parseCSVLine_loop_count (n : nat) :
  forall (line : string) (result : list string) (current : string)
         (inQuotes : bool),
  String.length line < n ->
  length (parseCSVLine_loop line result current inQuotes)
  <= length result + 1 + countCommas line.
Proof.
  induction n as [|n IH]; intros line result current inQuotes Hn; [lia|].
  destruct line as [|c rest].
  - simpl. rewrite length_app. simpl. lia.
  - rewrite parseCSVLine_loop_cons. simpl in Hn.
    change (countCommas (String c rest))
      with ((if Ascii.eqb c commaChar then 1 else 0) + countCommas rest).
    destruct (Ascii.eqb c quoteChar) eqn:Eq.
    + destruct inQuotes; [destruct rest as [|c' rest']|].
      * etransitivity; [apply IH; simpl; lia|]. simpl. lia.
      * destruct (Ascii.eqb c' quoteChar).
        -- etransitivity; [apply IH; simpl in *; lia|].
           change (countCommas (String c' rest'))
             with ((if Ascii.eqb c' commaChar then 1 else 0)
                   + countCommas rest').
           lia.
        -- etransitivity; [apply IH; simpl in *; lia|]. lia.
      * etransitivity; [apply IH; lia|]. lia.
    + destruct (Ascii.eqb c commaChar); simpl.
      * destruct inQuotes; simpl.
        -- etransitivity; [apply IH; lia|]. lia.
        -- etransitivity; [apply IH; lia|]. rewrite length_app. simpl. lia.
      * etransitivity; [apply IH; lia|]. lia.
Qed.

(** X3.  A line never yields more fields than it has commas, plus one; so a
    line with fewer commas than the highest column position is skipped
    as too short by both loops. *)
Theorem parseCSVLine_field_count :
  (forall line : string,
      length (parseCSVLine line) <= countCommas line + 1)
  /\ (forall (ix : ColumnIndices) (line : string),
        countCommas line + 1 < requiredLength ix ->
        isShort ix (parseCSVLine line) = true).
Proof.
  assert (H : forall line, length (parseCSVLine line) <= countCommas line + 1).
  { intros line. unfold parseCSVLine.
    pose proof (parseCSVLine_loop_count (S (String.length line)) line []
                  EmptyString false (Nat.lt_succ_diag_r _)) as Hc.
    simpl in Hc. lia. }
  split; [exact H|].
  intros ix line Hlt. unfold isShort. apply Nat.ltb_lt.
  specialize (H line). lia.
Qed.

Lemma parseCSVLine_field_count_witness :
  isShort sampleIndices (parseCSVLine rowShort) = true.
Proof.
  apply (proj2 parseCSVLine_field_count sampleIndices rowShort).
  vm_compute. lia.
Defined.

(** ** Column positions lie inside the header *)

Lemma getColumnIndex_lt (headers : list string) (label : string) (i : nat) :
  getColumnIndex headers label = inr i -> i < length headers.
Proof.
  unfold getColumnIndex.
  destruct (findIndex (headerMatches label) headers) as [k|] eqn:E;
    [|discriminate].
  intros [= <-]. apply findIndex_Some in E as [(h & Hh & _) _].
  now apply lookup_lt_Some in Hh.
Qed.

Lemma foldr_max_lt (n : nat) (l : list nat) :
  0 < n -> Forall (fun i => i < n) l -> foldr Nat.max 0 l < n.
Proof.
  intros Hn. induction 1 as [|i l Hi _ IH]; simpl; [exact Hn | lia].
Qed.

Lemma resolveIndices_bounds (headers : list string) (ix : ColumnIndices) :
  resolveIndices headers = inr ix ->
  Forall (fun i => i < length headers) (indexValues ix).
Proof.
  intros Hix. pose proof (resolveIndices_outcome headers) as H.
  destruct (firstMissing headers) as [label|]; [congruence|].
  destruct H as (ix' & Hix' & H). rewrite Hix in Hix'. injection Hix' as <-.
  unfold indexValues.
  do 14 (destruct H as [H0 H]; apply getColumnIndex_lt in H0;
          apply Forall_cons; split; [exact H0|]; clear H0).
  apply getColumnIndex_lt in H. apply Forall_cons. split; [exact H|].
  apply Forall_nil_2.
Qed.

(** X4.  Every resolved column position is a position of the header row, so a
    data row with at least as many fields as the header row is never
    skipped as too short. *)
Theorem header_long_rows_not_short (headers : list string)
  (ix : ColumnIndices) :
  resolveIndices headers = inr ix ->
  Forall (fun i => i < length headers) (indexValues ix)
  /\ requiredLength ix <= length headers
  /\ forall values : list string,
       length headers <= length values -> isShort ix values = false.
Proof.
  intros Hix. pose proof (resolveIndices_bounds headers ix Hix) as Hall.
  assert (Hreq : requiredLength ix <= length headers).
  { unfold requiredLength.
    assert (0 < length headers).
    { apply Forall_cons in Hall as [H _]. lia. }
    pose proof (foldr_max_lt _ _ H Hall). lia. }
  split; [exact Hall|]. split; [exact Hreq|].
  intros values Hlen. unfold isShort. apply Nat.ltb_ge. lia.
Qed.

Lemma header_long_rows_not_short_witness :
  isShort sampleIndices (parseCSVLine rowDC) = false.
Proof.
  assert (H : resolveIndices (headersOf sampleHeader) = inr sampleIndices)
    by (vm_compute; reflexivity).
  apply (proj2 (proj2 (header_long_rows_not_short (headersOf sampleHeader)
                         sampleIndices H)) (parseCSVLine rowDC)).
  vm_compute. lia.
Defined.

(** ** Header matching ignores letter case *)

Lemma findIndex_ext {A : Type} (p q : A -> bool) (l : list A) :
  (forall x, p x = q x) -> findIndex p l = findIndex q l.
Proof.
  intros H. induction l as [|x l IH]; simpl; [reflexivity|].
  now rewrite H, IH.
Qed.

Lemma findIndex_fmap {A B : Type} (g : B -> bool) (f : A -> B) (l : list A) :
  findIndex (fun x => g (f x)) l = findIndex g (f <$> l).
Proof.
  induction l as [|x l IH]; simpl; [reflexivity|]. now rewrite IH.
Qed.

Lemma getColumnIndex_case (headers headers' : list string) (label : string) :
  Str.toLowerCase <$> headers = Str.toLowerCase <$> headers' ->
  getColumnIndex headers label = getColumnIndex headers' label.
Proof.
  intros H. unfold getColumnIndex, headerMatches.
  rewrite (findIndex_fmap
             (fun h => Str.includes h (Str.toLowerCase label))
             Str.toLowerCase headers).
  rewrite (findIndex_fmap
             (fun h => Str.includes h (Str.toLowerCase label))
             Str.toLowerCase headers').
  now rewrite H.
Qed.

(** X5.  Two header rows that differ only in letter case resolve to the same
    schema, or fail with the same error. *)
Theorem resolveIndices_case_insensitive (headers headers' : list string) :
  Str.toLowerCase <$> headers = Str.toLowerCase <$> headers' ->
  resolveIndices headers = resolveIndices headers'.
Proof.
  intros H. unfold resolveIndices.
  pose proof (fun label => getColumnIndex_case headers headers' label H) as E.
  rewrite !E. reflexivity.
Qed.

Lemma resolveIndices_case_insensitive_witness :
  resolveIndices (parseCSVLine "INTERNAL ORDER ID,customer NAME")
  = resolveIndices (parseCSVLine "Internal order id,Customer name").
Proof.
  apply (resolveIndices_case_insensitive
           (parseCSVLine "INTERNAL ORDER ID,customer NAME")
           (parseCSVLine "Internal order id,Customer name")).
  vm_compute. reflexivity.
Defined.

(** ** White space around the text *)

Lemma trimStart_app_white (a s : string) :
  Str.all Char.isWhite a = true ->
  Str.trimStart (a +:+ s) = Str.trimStart s.
Proof.
  induction a as [|c a IH]; intros H; [reflexivity|].
  simpl in H. apply andb_prop in H as [Hc Ha].
  rewrite append_cons. simpl. rewrite Hc. now apply IH.
Qed.

Lemma trimEnd_app_white (s b : string) :
  Str.all Char.isWhite b = true ->
  Str.trimEnd (s +:+ b) = Str.trimEnd s.
Proof.
  intros Hb. induction s as [|c s IH].
  - rewrite append_nil_l. now apply trimEnd_all_white.
  - rewrite append_cons. simpl. now rewrite IH.
Qed.

Lemma trimStart_all_white (b : string) :
  Str.all Char.isWhite b = true -> Str.trimStart b = EmptyString.
Proof.
  induction b as [|c b IH]; simpl; [reflexivity|].
  intros H. apply andb_prop in H as [Hc Hb]. rewrite Hc. now apply IH.
Qed.

Lemma trim_app_white (s b : string) :
  Str.all Char.isWhite b = true ->
  Str.trim (s +:+ b) = Str.trim s.
Proof.
  intros Hb. unfold Str.trim. induction s as [|c s IH].
  - rewrite append_nil_l, trimStart_all_white by assumption. reflexivity.
  - rewrite append_cons. simpl. destruct (Char.isWhite c); [exact IH|].
    rewrite <- append_cons. now apply trimEnd_app_white.
Qed.

(** X6.  White space before the header line and after the last line, a final
    newline included, does not change the result of the parse. *)
Theorem parseCSVData_surrounding_space (a b csvText : string)
  (filterCity : option City) :
  Str.all Char.isWhite a = true ->
  Str.all Char.isWhite b = true ->
  parseCSVData (a +:+ csvText +:+ b) filterCity
  = parseCSVData csvText filterCity.
Proof.
  intros Ha Hb.
  assert (E : linesOf (a +:+ csvText +:+ b) = linesOf csvText).
  { unfold linesOf. f_equal. unfold Str.trim at 1.
    rewrite trimStart_app_white by assumption.
    now apply trim_app_white. }
  unfold parseCSVData, headersOf, dataLinesOf. now rewrite E.
Qed.

Lemma parseCSVData_surrounding_space_witness :
  parseCSVData (newline +:+ csvOf [rowDC] +:+ (newline +:+ "  " +:+ newline))
    (Some dc)
  = parseCSVData (csvOf [rowDC]) (Some dc).
Proof.
  apply (parseCSVData_surrounding_space newline
           (newline +:+ "  " +:+ newline) (csvOf [rowDC]) (Some dc));
    reflexivity.
Defined.

(** ** Reading amounts *)

Lemma filter_app (p : ascii -> bool) (a b : string) :
  Str.filter p (a +:+ b) = Str.filter p a +:+ Str.filter p b.
Proof.
  induction a as [|c a IH]; [reflexivity|].
  rewrite append_cons. simpl. rewrite IH. now destruct (p c).
Qed.

Lemma filter_none (p : ascii -> bool) (s : string) :
  Str.all (fun c => negb (p c)) s = true -> Str.filter p s = EmptyString.
Proof.
  induction s as [|c s IH]; simpl; [reflexivity|].
  intros H. apply andb_prop in H as [Hc Hs].
  apply negb_true_iff in Hc. rewrite Hc. now apply IH.
Qed.

(** X7.  Amount cells are read through their digits, dots and minus signs
    only: a character outside that class (a currency sign, a thousands
    comma, a space) can be inserted anywhere without changing the amount,
    and a cell without any such character, like a cell beyond the end of
    the row, reads as zero. *)
Theorem money_ignores_formatting :
  (forall (values : list string) (i : nat) (a b : string) (c : ascii),
      Char.isNumeric c = false ->
      values !! i = Some (a +:+ String c b) ->
      money values i = money (<[ i := a +:+ b ]> values) i)
  /\ (forall (values : list string) (i : nat) (v : string),
        values !! i = Some v ->
        Str.all (fun c => negb (Char.isNumeric c)) v = true ->
        money values i = Num 0)
  /\ (forall (values : list string) (i : nat),
        values !! i = None -> money values i = Num 0).
Proof.
  split; [|split].
  - intros values i a b c Hc Hv. unfold money.
    rewrite list_lookup_insert_eq by (now apply lookup_lt_Some in Hv).
    rewrite Hv, !filter_app. simpl. now rewrite Hc.
  - intros values i v Hv Hnone. unfold money.
    rewrite Hv, filter_none by assumption. reflexivity.
  - intros values i Hv. unfold money. rewrite Hv. reflexivity.
Qed.

Lemma money_ignores_formatting_witness :
  money ["$1,234.50"] 0 = money ["$1234.50"] 0
  /\ money ["n/a"] 0 = Num 0.
Proof.
  destruct money_ignores_formatting as (Hins & Hblank & _). split.
  - apply (Hins ["$1,234.50"] 0 "$1" "234.50" ","%char); reflexivity.
  - apply (Hblank ["n/a"] 0 "n/a"); reflexivity.
Defined.

(** ** The first pass keeps a snapshot for every recorded order id *)

Lemma find_is_Some {A : Type} (p : A -> bool) (l : list A) :
  is_Some (List.find p l) <-> exists x, x ∈ l /\ p x = true.
Proof.
  split.
  - intros [x Hx]. apply find_some in Hx as [Hin Hp].
    exists x. split; [now apply list_elem_of_In | exact Hp].
  - intros (x & Hin & Hp). destruct (List.find p l) as [y|] eqn:E;
      [now exists y|].
    apply list_elem_of_In in Hin.
    rewrite (find_none _ _ E x Hin) in Hp. discriminate.
Qed.

Lemma pass1_dom_valid (ix : ColumnIndices) (targetSource : option string)
  (dataLines : list string) :
  dom (orderTotals (pass1 ix targetSource dataLines))
  = validOrderIds (pass1 ix targetSource dataLines).
Proof.
  apply set_eq. intros oid.
  rewrite elem_of_dom, pass1_totals_first, pass1_valid_iff.
  unfold firstQualifying. rewrite fmap_is_Some. apply find_is_Some.
Qed.

Lemma pass1_valid_has_snapshot (ix : ColumnIndices)
  (targetSource : option string) (dataLines : list string) (oid : string) :
  oid ∈ validOrderIds (pass1 ix targetSource dataLines) <->
  is_Some (orderTotals (pass1 ix targetSource dataLines) !! oid).
Proof.
  rewrite <- pass1_dom_valid. apply elem_of_dom.
Qed.

(** X8.  After the first pass the keys of [orderTotals] are exactly the
    members of [validOrderIds]: the second loop's test for a missing
    snapshot never succeeds on an order id that passed its membership
    test. *)
Theorem snapshot_for_every_valid_order (ix : ColumnIndices)
  (targetSource : option string) (dataLines : list string) :
  dom (orderTotals (pass1 ix targetSource dataLines))
  = validOrderIds (pass1 ix targetSource dataLines)
  /\ forall oid : string,
       oid ∈ validOrderIds (pass1 ix targetSource dataLines) ->
       exists orderData : OrderSnapshot,
         orderTotals (pass1 ix targetSource dataLines) !! oid
         = Some orderData.
Proof.
  split; [apply pass1_dom_valid|].
  intros oid Hoid. now apply pass1_valid_has_snapshot in Hoid.
Qed.

Lemma snapshot_for_every_valid_order_witness :
  "1" ∈ validOrderIds (pass1 sampleIndices (Some labelDC) [rowDC; rowContinuation])
  /\ exists orderData : OrderSnapshot,
       orderTotals (pass1 sampleIndices (Some labelDC) [rowDC; rowContinuation]) !! "1"
       = Some orderData.
Proof.
  assert (H : "1" ∈ validOrderIds
                (pass1 sampleIndices (Some labelDC) [rowDC; rowContinuation])).
  { apply (bool_decide_unpack _). vm_compute. exact I. }
  split; [exact H|].
  exact (proj2 (snapshot_for_every_valid_order sampleIndices (Some labelDC)
                  [rowDC; rowContinuation]) "1" H).
Defined.

(** ** When a line is emitted *)

Lemma pass2Row_intro (ix : ColumnIndices) (st : Pass1State)
  (dataLines : list string) (line : string) (orderData : OrderSnapshot) :
  let values := parseCSVLine line in
  let who := resolveIdentity ix dataLines (rowOrderId ix values) values in
  isShort ix values = false ->
  rowOrderId ix values <> EmptyString ->
  rowOrderId ix values ∈ validOrderIds st ->
  cell values (iClassName ix) <> EmptyString ->
  idName who <> EmptyString ->
  idEmail who <> EmptyString ->
  orderTotals st !! rowOrderId ix values = Some orderData ->
  pass2Row ix st dataLines line = Some (recordOf ix values orderData who).
Proof.
  intros values who Hshort Hid Hvalid Hcls Hname Hemail Htotals.
  unfold pass2Row. fold values. rewrite Hshort.
  unfold rowOrderId in *.
  apply isEmpty_false in Hid, Hcls, Hname, Hemail.
  rewrite Hid, (bool_decide_eq_true_2 _ Hvalid). simpl.
  rewrite Hcls, Htotals. fold who. rewrite Hname, Hemail. reflexivity.
Qed.

Lemma pass2Row_is_Some (ix : ColumnIndices) (targetSource : option string)
  (dataLines : list string) (line : string) :
  is_Some (pass2Row ix (pass1 ix targetSource dataLines) dataLines line) <->
  emittable ix dataLines line
  /\ rowOrderId ix (parseCSVLine line)
     ∈ validOrderIds (pass1 ix targetSource dataLines).
Proof.
  split.
  - intros [o Ho].
    apply pass2Row_Some in Ho as (Hs & Hid & Hv & Hc & Hn & He & _).
    repeat split; assumption.
  - intros [(Hs & Hid & Hc & Hn & He) Hv].
    destruct (proj1 (pass1_valid_has_snapshot _ _ _ _) Hv) as [snap Hsnap].
    eexists.
    exact (pass2Row_intro ix _ dataLines line snap Hs Hid Hv Hc Hn He Hsnap).
Qed.

(** ** Shape of the emitted records *)

Lemma cell_trimmed (values : list string) (i : nat) :
  Str.trim (cell values i) = cell values i.
Proof.
  unfold cell. destruct (values !! i) as [v|]; [|reflexivity].
  unfold Str.orElse. destruct (Str.isEmpty (Str.trim v)) eqn:E.
  - reflexivity.
  - apply trim_idem.
Qed.

Lemma orElse_trimmed (a b : string) :
  Str.trim a = a -> Str.trim b = b ->
  Str.trim (Str.orElse a b) = Str.orElse a b.
Proof. intros Ha Hb. unfold Str.orElse. now destruct (Str.isEmpty a). Qed.

Lemma resolveIdentity_trimmed (ix : ColumnIndices) (dataLines : list string)
  (oid : string) (values : list string) :
  let who := resolveIdentity ix dataLines oid values in
  Str.trim (idName who) = idName who
  /\ Str.trim (idEmail who) = idEmail who
  /\ Str.trim (idPhone who) = idPhone who
  /\ Str.trim (idStatus who) = idStatus who
  /\ Str.trim (idDate who) = idDate who
  /\ Str.trim (idTime who) = idTime who.
Proof.
  unfold resolveIdentity, ownIdentity. simpl.
  destruct (Str.isEmpty (cell values (iCustomerName ix))
            || Str.isEmpty (cell values (iCustomerEmail ix)));
    [destruct (findMainRow ix oid dataLines) as [m|]|]; simpl;
    repeat split;
    try apply cell_trimmed; apply orElse_trimmed; apply cell_trimmed.
Qed.

(** X9.  Every emitted record has a non-empty order id, customer name and
    customer email, and none of its text fields has leading or trailing
    white space. *)
Theorem emitted_records_wellformed (csvText : string)
  (filterCity : option City) (orders : list ParsedOrder) (o : ParsedOrder) :
  parseCSVData csvText filterCity = inr orders ->
  o ∈ orders ->
  (orderId o <> EmptyString
   /\ customerName o <> EmptyString
   /\ customerEmail o <> EmptyString)
  /\ Forall (fun field => Str.trim field = field)
       [orderId o; customerName o; customerEmail o; customerPhone o;
        status o; sourceName o; orderDate o; orderTime o; className o].
Proof.
  intros Hparse Ho. rewrite parseCSVData_unfold in Hparse.
  destruct (resolveIndices (headersOf csvText)) as [e|ix]; [discriminate|].
  injection Hparse as <-.
  apply pass2_elem in Ho as (line & Hline & Hrow).
  apply pass2Row_Some in Hrow
    as (_ & Hid & _ & _ & Hname & Hemail & snap & Hsnap & ->).
  split; [repeat split; assumption|].
  rewrite pass1_totals_first in Hsnap.
  apply firstQualifying_Some in Hsnap as (l & _ & _ & -> & _).
  pose proof (resolveIdentity_trimmed ix (dataLinesOf csvText)
                (rowOrderId ix (parseCSVLine line)) (parseCSVLine line))
    as (Hn & He & Hp & Hs & Hd & Ht).
  simpl. repeat (apply Forall_cons; split); try assumption;
    try apply cell_trimmed; try apply cleanClassName_trimmed.
  apply Forall_nil_2.
Qed.

Lemma emitted_records_wellformed_witness :
  customerEmail splitRecordB <> EmptyString.
Proof.
  assert (Hparse : parseCSVData (csvOf [rowSplitA; rowSplitB]) (Some dc)
                   = inr [splitRecordA; splitRecordB])
    by (vm_compute; reflexivity).
  assert (Hin : splitRecordB ∈ [splitRecordA; splitRecordB])
    by (apply list_elem_of_further, list_elem_of_here).
  exact (proj2 (proj2 (proj1 (emitted_records_wellformed _ _ _ _
                                 Hparse Hin)))).
Defined.

(** ** Order and number of the emitted records *)

Lemma pass2_sublist (ix : ColumnIndices) (st : Pass1State)
  (allLines dataLines : list string) :
  (orderId <$> omap (pass2Row ix st allLines) dataLines)
    `sublist_of`
  ((fun line => rowOrderId ix (parseCSVLine line)) <$> dataLines).
Proof.
  induction dataLines as [|line rest IH]; simpl; [constructor|].
  destruct (pass2Row ix st allLines line) as [o|] eqn:E; simpl.
  - apply pass2Row_Some in E as (_ & _ & _ & _ & _ & _ & snap & _ & ->).
    simpl. now apply sublist_skip.
  - now apply sublist_cons.
Qed.

(** X10.  The records come out in input order, at most one per data line: the
    order ids of the output, read in sequence, are obtained from the
    order ids of the data lines by leaving some lines out. *)
Theorem emission_follows_input_order (csvText : string)
  (filterCity : option City) (ix : ColumnIndices)
  (orders : list ParsedOrder) :
  resolveIndices (headersOf csvText) = inr ix ->
  parseCSVData csvText filterCity = inr orders ->
  (orderId <$> orders)
    `sublist_of`
  ((fun line => rowOrderId ix (parseCSVLine line)) <$> dataLinesOf csvText)
  /\ length orders <= length (dataLinesOf csvText).
Proof.
  intros Hix Hparse. rewrite parseCSVData_unfold, Hix in Hparse.
  injection Hparse as <-.
  pose proof (pass2_sublist ix
                (pass1 ix (targetSourceOf filterCity) (dataLinesOf csvText))
                (dataLinesOf csvText) (dataLinesOf csvText)) as Hsub.
  split; [exact Hsub|].
  apply sublist_length in Hsub. rewrite !length_fmap in Hsub. exact Hsub.
Qed.

Lemma emission_follows_input_order_witness :
  length [splitRecordA; splitRecordB]
  <= length (dataLinesOf (csvOf [rowSplitA; rowSplitB])).
Proof.
  assert (Hix : resolveIndices (headersOf (csvOf [rowSplitA; rowSplitB]))
                = inr sampleIndices) by (vm_compute; reflexivity).
  assert (Hparse : parseCSVData (csvOf [rowSplitA; rowSplitB]) (Some dc)
                   = inr [splitRecordA; splitRecordB])
    by (vm_compute; reflexivity).
  exact (proj2 (emission_follows_input_order _ _ _ _ Hix Hparse)).
Defined.

(** ** With and without a city filter *)

Lemma qualifies_None (ix : ColumnIndices) (values : list string) :
  qualifies ix None values
  = qualifies ix (Some labelDC) values
    || qualifies ix (Some labelAtlanta) values.
Proof.
  unfold qualifies, isValidSource.
  destruct (negb (isShort ix values)),
    (negb (Str.isEmpty (rowOrderId ix values)
           || Str.isEmpty (rowSource ix values))),
    (String.eqb (rowSource ix values) labelDC),
    (String.eqb (rowSource ix values) labelAtlanta),
    (String.eqb (Str.toLowerCase (rowStatus ix values)) "completed"),
    (negb (Str.isEmpty (rowOrderId ix values))); reflexivity.
Qed.

Lemma valid_None (ix : ColumnIndices) (dataLines : list string)
  (oid : string) :
  oid ∈ validOrderIds (pass1 ix None dataLines) <->
  oid ∈ validOrderIds (pass1 ix (Some labelDC) dataLines)
  \/ oid ∈ validOrderIds (pass1 ix (Some labelAtlanta) dataLines).
Proof.
  rewrite !pass1_valid_iff. unfold qualifiesFor. split.
  - intros (l & Hl & Hq). rewrite qualifies_None in Hq.
    apply andb_prop in Hq as [Hq Hid].
    apply orb_prop in Hq as [Hq | Hq]; [left | right];
      exists l; (split; [exact Hl|]); now rewrite Hq, Hid.
  - intros [(l & Hl & Hq) | (l & Hl & Hq)]; exists l; (split; [exact Hl|]);
      apply andb_prop in Hq as [Hq Hid]; rewrite qualifies_None, Hq, Hid;
      [reflexivity | now rewrite orb_true_r].
Qed.

Lemma omap_cons_length {A B : Type} (f : A -> option B) (x : A)
  (l : list A) :
  length (omap f (x :: l))
  = match f x with Some _ => 1 | None => 0 end + length (omap f l).
Proof. simpl. destruct (f x); reflexivity. Qed.

Lemma omap_length_le {A B C : Type} (f : A -> option B) (g : A -> option C)
  (l : list A) :
  (forall x, x ∈ l -> is_Some (f x) -> is_Some (g x)) ->
  length (omap f l) <= length (omap g l).
Proof.
  induction l as [|x l IH]; intros H; [simpl; lia|].
  assert (IH' : length (omap f l) <= length (omap g l)).
  { apply IH. intros y Hy. apply H. now apply list_elem_of_further. }
  rewrite !omap_cons_length.
  pose proof (H x (list_elem_of_here _ _)) as Hx.
  destruct (f x) as [b|]; [|destruct (g x); lia].
  destruct Hx as [c ->]; [eauto | lia].
Qed.

Lemma omap_length_le2 {A B C D : Type} (h : A -> option B)
  (f : A -> option C) (g : A -> option D) (l : list A) :
  (forall x, x ∈ l -> is_Some (h x) -> is_Some (f x) \/ is_Some (g x)) ->
  length (omap h l) <= length (omap f l) + length (omap g l).
Proof.
  induction l as [|x l IH]; intros H; [simpl; lia|].
  assert (IH' : length (omap h l) <= length (omap f l) + length (omap g l)).
  { apply IH. intros y Hy. apply H. now apply list_elem_of_further. }
  rewrite !omap_cons_length.
  pose proof (H x (list_elem_of_here _ _)) as Hx.
  destruct (h x) as [b|]; [|destruct (f x), (g x); lia].
  destruct Hx as [[c ->] | [d ->]]; [eauto | destruct (g x); lia
                                    | destruct (f x); lia].
Qed.

Lemma pass2Row_ownFields (ix : ColumnIndices) (st st' : Pass1State)
  (dataLines : list string) (line : string) (o o' : ParsedOrder) :
  pass2Row ix st dataLines line = Some o ->
  pass2Row ix st' dataLines line = Some o' ->
  ownFields o' = ownFields o.
Proof.
  intros H H'.
  apply pass2Row_Some in H as (_ & _ & _ & _ & _ & _ & snap & _ & ->).
  apply pass2Row_Some in H' as (_ & _ & _ & _ & _ & _ & snap' & _ & ->).
  reflexivity.
Qed.

(** X11.  A city filter never adds anything: every data line emitted with a
    filter is also emitted without one, as a record with the same
    customer and line-item fields, so the filtered output is not longer
    than the unfiltered one. *)
Theorem filter_never_adds (csvText : string) (c : City)
  (filtered : list ParsedOrder) :
  parseCSVData csvText (Some c) = inr filtered ->
  exists unfiltered : list ParsedOrder,
    parseCSVData csvText None = inr unfiltered
    /\ length filtered <= length unfiltered
    /\ forall o : ParsedOrder, o ∈ filtered ->
         exists o' : ParsedOrder,
           o' ∈ unfiltered /\ ownFields o' = ownFields o.
Proof.
  intros Hparse. rewrite parseCSVData_unfold in Hparse.
  rewrite parseCSVData_unfold.
  destruct (resolveIndices (headersOf csvText)) as [e|ix]; [discriminate|].
  assert (Hf : filtered
               = pass2 ix
                   (pass1 ix (targetSourceOf (Some c)) (dataLinesOf csvText))
                   (dataLinesOf csvText)) by congruence.
  subst filtered. clear Hparse. eexists. split; [reflexivity|].
  rewrite targetSourceOf_Some.
  change (targetSourceOf None) with (@None string).
  set (dataLines := dataLinesOf csvText).
  assert (Hsome : forall line,
             is_Some (pass2Row ix (pass1 ix (Some (cityLabel c)) dataLines)
                        dataLines line) ->
             is_Some (pass2Row ix (pass1 ix None dataLines) dataLines line)).
  { intros line H. apply pass2Row_is_Some in H as [Hem Hv].
    apply pass2Row_is_Some. split; [exact Hem|].
    apply valid_None. destruct c; [left | right]; exact Hv. }
  split.
  - unfold pass2. apply omap_length_le. intros line _. apply Hsome.
  - intros o Ho. apply pass2_elem in Ho as (line & Hline & Hrow).
    destruct (Hsome line (ex_intro _ o Hrow)) as [o' Ho'].
    exists o'. split.
    + apply pass2_elem. now exists line.
    + exact (pass2Row_ownFields _ _ _ _ _ _ _ Hrow Ho').
Qed.

Lemma filter_never_adds_witness :
  exists unfiltered : list ParsedOrder,
    parseCSVData (csvOf [rowSplitA; rowSplitB]) None = inr unfiltered
    /\ length [splitRecordA; splitRecordB] <= length unfiltered.
Proof.
  assert (Hparse : parseCSVData (csvOf [rowSplitA; rowSplitB]) (Some dc)
                   = inr [splitRecordA; splitRecordB])
    by (vm_compute; reflexivity).
  destruct (filter_never_adds _ _ _ Hparse) as (u & Hu & Hlen & _).
  exists u. split; assumption.
Defined.

(** X12.  Without a filter a data line is emitted exactly when it is emitted
    with the DC filter or with the Atlanta filter; so the unfiltered
    output is at most as long as the two filtered outputs together. *)
Theorem unfiltered_is_union (csvText : string) (ix : ColumnIndices) :
  resolveIndices (headersOf csvText) = inr ix ->
  let dataLines := dataLinesOf csvText in
  (forall line : string,
      is_Some (pass2Row ix (pass1 ix (targetSourceOf None) dataLines)
                 dataLines line)
      <-> is_Some (pass2Row ix (pass1 ix (targetSourceOf (Some dc)) dataLines)
                     dataLines line)
          \/ is_Some (pass2Row ix
                        (pass1 ix (targetSourceOf (Some atlanta)) dataLines)
                        dataLines line))
  /\ exists all inDC inAtlanta : list ParsedOrder,
       parseCSVData csvText None = inr all
       /\ parseCSVData csvText (Some dc) = inr inDC
       /\ parseCSVData csvText (Some atlanta) = inr inAtlanta
       /\ length all <= length inDC + length inAtlanta.
Proof.
  intros Hix dataLines.
  assert (Hiff : forall line : string,
      is_Some (pass2Row ix (pass1 ix (targetSourceOf None) dataLines)
                 dataLines line)
      <-> is_Some (pass2Row ix (pass1 ix (targetSourceOf (Some dc)) dataLines)
                     dataLines line)
          \/ is_Some (pass2Row ix
                        (pass1 ix (targetSourceOf (Some atlanta)) dataLines)
                        dataLines line)).
  { intros line. rewrite !pass2Row_is_Some, !targetSourceOf_Some.
    change (targetSourceOf None) with (@None string).
    rewrite valid_None. simpl cityLabel. tauto. }
  split; [exact Hiff|].
  do 3 eexists. rewrite !parseCSVData_unfold, Hix.
  split; [reflexivity|]. split; [reflexivity|]. split; [reflexivity|].
  unfold pass2. apply omap_length_le2. intros line _. apply Hiff.
Qed.

Lemma unfiltered_is_union_witness :
  exists all inDC inAtlanta : list ParsedOrder,
    parseCSVData (csvOf [rowDC; rowAtlanta]) None = inr all
    /\ parseCSVData (csvOf [rowDC; rowAtlanta]) (Some dc) = inr inDC
    /\ parseCSVData (csvOf [rowDC; rowAtlanta]) (Some atlanta)
       = inr inAtlanta
    /\ length all <= length inDC + length inAtlanta.
Proof.
  assert (Hix : resolveIndices (headersOf (csvOf [rowDC; rowAtlanta]))
                = inr sampleIndices) by (vm_compute; reflexivity).
  exact (proj2 (unfiltered_is_union (csvOf [rowDC; rowAtlanta])
                  sampleIndices Hix)).
Defined.

(** ** Lines the reconciler passes over *)

Lemma ignorable_not_qualifies (ix : ColumnIndices)
  (targetSource : option string) (line : string) :
  ignorable ix line = true ->
  qualifies ix targetSource (parseCSVLine line) = false.
Proof.
  unfold ignorable, qualifies. intros H.
  destruct (isShort ix (parseCSVLine line)); [reflexivity|].
  simpl in H. rewrite H. reflexivity.
Qed.

Lemma pass1_remove (ix : ColumnIndices) (targetSource : option string)
  (before after : list string) (line : string) :
  ignorable ix line = true ->
  pass1 ix targetSource (before ++ line :: after)
  = pass1 ix targetSource (before ++ after).
Proof.
  intros H. unfold pass1. rewrite !fold_left_app. simpl.
  rewrite pass1Step_qualifies, (ignorable_not_qualifies _ _ _ H).
  reflexivity.
Qed.

Lemma findMainRow_remove (ix : ColumnIndices) (oid : string)
  (before after : list string) (line : string) :
  ignorable ix line = true ->
  oid <> EmptyString ->
  findMainRow ix oid (before ++ line :: after)
  = findMainRow ix oid (before ++ after).
Proof.
  intros H Hoid. induction before as [|x before IH]; simpl.
  - unfold ignorable, rowOrderId in H.
    destruct (isShort ix (parseCSVLine line)); [reflexivity|].
    simpl in H. apply isEmpty_true in H. rewrite H.
    destruct (String.eqb_spec EmptyString oid) as [E | _];
      [congruence | reflexivity].
  - now rewrite IH.
Qed.

Lemma pass2Row_remove (ix : ColumnIndices) (st : Pass1State)
  (before after : list string) (line x : string) :
  ignorable ix line = true ->
  pass2Row ix st (before ++ line :: after) x
  = pass2Row ix st (before ++ after) x.
Proof.
  intros H. unfold pass2Row.
  destruct (isShort ix (parseCSVLine x)); [reflexivity|].
  destruct (Str.isEmpty (cell (parseCSVLine x) (iOrderId ix))) eqn:E;
    [reflexivity|].
  apply isEmpty_false in E.
  unfold resolveIdentity. now rewrite (findMainRow_remove _ _ _ _ _ H E).
Qed.

Lemma pass2Row_ignorable (ix : ColumnIndices) (st : Pass1State)
  (dataLines : list string) (line : string) :
  ignorable ix line = true -> pass2Row ix st dataLines line = None.
Proof.
  unfold ignorable, pass2Row, rowOrderId. intros H.
  destruct (isShort ix (parseCSVLine line)); [reflexivity|].
  simpl in H. rewrite H. reflexivity.
Qed.

(** X13.  A data line that is too short or has no order id (a blank line in
    particular) has no effect wherever it stands: removing it from the
    data lines changes neither pass and leaves the output as it is. *)
Theorem ignorable_line_has_no_effect (ix : ColumnIndices)
  (targetSource : option string) (before after : list string)
  (line : string) :
  ignorable ix line = true ->
  pass1 ix targetSource (before ++ line :: after)
  = pass1 ix targetSource (before ++ after)
  /\ pass2 ix (pass1 ix targetSource (before ++ line :: after))
       (before ++ line :: after)
     = pass2 ix (pass1 ix targetSource (before ++ after)) (before ++ after).
Proof.
  intros H. split; [now apply pass1_remove|].
  rewrite (pass1_remove _ _ _ _ _ H). unfold pass2.
  rewrite !omap_app. simpl. rewrite (pass2Row_ignorable _ _ _ _ H).
  f_equal; apply list_omap_ext, Forall2_same_length_lookup; (split; [done|]);
    intros i x y Hx Hy; rewrite Hx in Hy; injection Hy as <-;
    now apply pass2Row_remove.
Qed.

Lemma ignorable_line_has_no_effect_witness :
  pass2 sampleIndices
    (pass1 sampleIndices (Some labelDC) ([rowDC] ++ EmptyString :: [rowDCAgain]))
    ([rowDC] ++ EmptyString :: [rowDCAgain])
  = pass2 sampleIndices
      (pass1 sampleIndices (Some labelDC) ([rowDC] ++ [rowDCAgain]))
      ([rowDC] ++ [rowDCAgain]).
Proof.
  apply (proj2 (ignorable_line_has_no_effect sampleIndices (Some labelDC)
                  [rowDC] [rowDCAgain] EmptyString eq_refl)).
Defined.

(** ** The source name of emitted records, as callers see it *)

Lemma parseCSVData_sourceName (csvText : string) (filterCity : option City)
  (data : list ParsedOrder) (o : ParsedOrder) :
  parseCSVData csvText filterCity = inr data ->
  o ∈ data ->
  sourceOk (targetSourceOf filterCity) (sourceName o).
Proof.
  intros Hparse Ho. rewrite parseCSVData_unfold in Hparse.
  destruct (resolveIndices (headersOf csvText)) as [e|ix]; [discriminate|].
  assert (Hd : data
               = pass2 ix
                   (pass1 ix (targetSourceOf filterCity) (dataLinesOf csvText))
                   (dataLinesOf csvText)) by congruence.
  subst data.
  apply pass2_snapshot in Ho as (_ & snap & _ & Hfirst & _ & _ & _ & ->).
  now apply firstQualifying_Some in Hfirst as (_ & _ & _ & _ & Hok).
Qed.

Lemma expectedSource_cityLabel (c : City) : expectedSource c = cityLabel c.
Proof. destruct c; reflexivity. Qed.

Lemma hasValidData_nonempty (csvText : string) (c : City)
  (parsedData : list ParsedOrder) :
  parseCSVData csvText (Some c) = inr parsedData ->
  hasValidData c parsedData = true <-> parsedData <> [].
Proof.
  intros Hparse. unfold hasValidData. split.
  - intros H ->. discriminate.
  - intros Hne. destruct parsedData as [|o rest]; [congruence|].
    pose proof (parseCSVData_sourceName _ _ _ o Hparse
                  (list_elem_of_here _ _)) as Hok.
    rewrite targetSourceOf_Some in Hok. simpl in Hok.
    simpl. rewrite expectedSource_cityLabel, Hok, String.eqb_refl.
    reflexivity.
Qed.

(** X14.  The upload check passes exactly when the text parses for the selected
    city and yields at least one record; the test on the source name of
    the records then holds by itself, since every record carries the
    expected source.  Without a selected city nothing passes. *)
Theorem upload_check_accepts :
  (forall (csvText : string) (parsedData : list ParsedOrder),
      uploadCheck None csvText <> UploadChecked parsedData)
  /\ (forall (c : City) (csvText : string) (parsedData : list ParsedOrder),
        uploadCheck (Some c) csvText = UploadChecked parsedData <->
        parseCSVData csvText (Some c) = inr parsedData /\ parsedData <> [])
  /\ (forall (c : City) (csvText : string) (parsedData : list ParsedOrder),
        uploadCheck (Some c) csvText = UploadChecked parsedData ->
        Forall (fun o => sourceName o = expectedSource c) parsedData)
  /\ (forall (c : City) (csvText : string) (e : ParseError),
        parseCSVData csvText (Some c) = inl e ->
        uploadCheck (Some c) csvText = UploadRejected (errorMessage e)).
Proof.
  assert (Hiff : forall c csvText parsedData,
             uploadCheck (Some c) csvText = UploadChecked parsedData <->
             parseCSVData csvText (Some c) = inr parsedData
             /\ parsedData <> []).
  { intros c csvText parsedData. unfold uploadCheck.
    destruct (parseCSVData csvText (Some c)) as [e|data] eqn:Hparse.
    - split; [discriminate | intros [H _]; discriminate].
    - pose proof (hasValidData_nonempty _ _ _ Hparse) as Hv.
      destruct (hasValidData c data) eqn:E.
      + split.
        * intros [= <-]. split; [reflexivity | now apply Hv].
        * intros [[= <-] _]. reflexivity.
      + split; [discriminate|]. intros [[= <-] Hne].
        apply Hv in Hne. discriminate. }
  split; [|split; [exact Hiff | split]].
  - intros csvText parsedData. discriminate.
  - intros c csvText parsedData H. apply Hiff in H as [Hparse _].
    apply Forall_forall. intros o Ho.
    pose proof (parseCSVData_sourceName _ _ _ o Hparse Ho) as Hok.
    rewrite targetSourceOf_Some in Hok. simpl in Hok.
    now rewrite expectedSource_cityLabel.
  - intros c csvText e Hparse. unfold uploadCheck. now rewrite Hparse.
Qed.

Lemma upload_check_accepts_witness :
  uploadCheck (Some dc) (csvOf [rowSplitA; rowSplitB])
  = UploadChecked [splitRecordA; splitRecordB].
Proof.
  destruct upload_check_accepts as (_ & Hiff & _).
  apply (Hiff dc (csvOf [rowSplitA; rowSplitB]) [splitRecordA; splitRecordB]).
  split; [vm_compute; reflexivity | discriminate].
Defined.

(** ** Which class list is seeded *)

Lemma existsb_false_forall {A : Type} (p : A -> bool) (l : list A) :
  (forall x, x ∈ l -> p x = false) -> existsb p l = false.
Proof.
  intros H. destruct (existsb p l) eqn:E; [|reflexivity].
  apply existsb_exists in E as (x & Hx & Hp).
  apply list_elem_of_In in Hx. rewrite (H x Hx) in Hp. discriminate.
Qed.

(** X15.  On whatever the parser returns the Houston test is false, so the
    Houston class list is never seeded.  With the DC filter no list is
    seeded; with the Atlanta filter the Atlanta list is seeded exactly
    when there is at least one record. *)
Theorem seeded_classes_by_filter :
  (forall (csvText : string) (filterCity : option City)
          (data : list ParsedOrder),
      parseCSVData csvText filterCity = inr data ->
      isHoustonData data = false
      /\ (seededClasses data = ATLANTA_CLASSES \/ seededClasses data = []))
  /\ (forall (csvText : string) (data : list ParsedOrder),
        parseCSVData csvText (Some dc) = inr data ->
        seededClasses data = [])
  /\ (forall (csvText : string) (data : list ParsedOrder),
        parseCSVData csvText (Some atlanta) = inr data ->
        seededClasses data = if decide (data = []) then []
                             else ATLANTA_CLASSES).
Proof.
  assert (Hh : forall csvText filterCity data,
             parseCSVData csvText filterCity = inr data ->
             isHoustonData data = false).
  { intros csvText filterCity data Hparse. apply existsb_false_forall.
    intros o Ho. pose proof (parseCSVData_sourceName _ _ _ o Hparse Ho) as Hok.
    destruct filterCity as [[]|]; simpl in Hok;
      [| |destruct Hok as [Hok | Hok]]; rewrite Hok; reflexivity. }
  split; [|split].
  - intros csvText filterCity data Hparse. split; [now apply (Hh csvText filterCity)|].
    unfold seededClasses. rewrite (Hh _ _ _ Hparse).
    destruct (isAtlantaData data); [now left | now right].
  - intros csvText data Hparse. unfold seededClasses.
    rewrite (Hh _ _ _ Hparse).
    assert (isAtlantaData data = false) as ->; [|reflexivity].
    apply existsb_false_forall. intros o Ho.
    pose proof (parseCSVData_sourceName _ _ _ o Hparse Ho) as Hok.
    simpl in Hok. rewrite Hok. reflexivity.
  - intros csvText data Hparse. unfold seededClasses.
    rewrite (Hh _ _ _ Hparse). destruct data as [|o rest].
    + reflexivity.
    + pose proof (parseCSVData_sourceName _ _ _ o Hparse
                    (list_elem_of_here _ _)) as Hok.
      simpl in Hok. unfold isAtlantaData. simpl. rewrite Hok. reflexivity.
Qed.

Lemma seeded_classes_by_filter_witness :
  seededClasses [splitRecordA; splitRecordB] = [].
Proof.
  destruct seeded_classes_by_filter as (_ & Hdc & _).
  apply (Hdc (csvOf [rowSplitA; rowSplitB])).
  vm_compute. reflexivity.
Defined.

(** ** Total revenue: one amount per order *)

Lemma mapHas_elem (key : string) (m : list (string * number)) :
  mapHas key m = true <-> key ∈ (fst <$> m).
Proof.
  induction m as [|[k v] m IH]; simpl.
  - split; [discriminate | intros H; now apply elem_of_nil in H].
  - rewrite orb_true_iff, String.eqb_eq, elem_of_cons, IH. simpl.
    split; (intros [H | H]; [left; congruence | now right]).
Qed.

Lemma mapHas_app (key : string) (m m' : list (string * number)) :
  mapHas key (m ++ m') = mapHas key m || mapHas key m'.
Proof.
  induction m as [|[k v] m IH]; simpl; [reflexivity|].
  now rewrite IH, orb_assoc.
Qed.

Lemma uniqueOrders_snoc (data : list ParsedOrder) (o : ParsedOrder) :
  uniqueOrders (data ++ [o]) = uniqueOrdersStep (uniqueOrders data) o.
Proof. unfold uniqueOrders. now rewrite fold_left_app. Qed.

Lemma uniqueOrders_keys_from (data : list ParsedOrder) :
  forall (m : list (string * number)) (key : string),
  key ∈ (fst <$> fold_left uniqueOrdersStep data m) <->
  key ∈ (fst <$> m) \/ key ∈ (orderId <$> data).
Proof.
  induction data as [|o data IH]; intros m key; simpl.
  - rewrite elem_of_nil. tauto.
  - rewrite IH, elem_of_cons. unfold uniqueOrdersStep.
    destruct (mapHas (orderId o) m) eqn:E.
    + apply mapHas_elem in E. split; [tauto|].
      intros [H | [-> | H]]; tauto.
    + rewrite fmap_app, elem_of_app. simpl.
      rewrite list_elem_of_singleton. tauto.
Qed.

Lemma uniqueOrders_NoDup_from (data : list ParsedOrder) :
  forall m : list (string * number),
  NoDup (fst <$> m) -> NoDup (fst <$> fold_left uniqueOrdersStep data m).
Proof.
  induction data as [|o data IH]; intros m Hm; simpl; [exact Hm|].
  apply IH. unfold uniqueOrdersStep.
  destruct (mapHas (orderId o) m) eqn:E; [exact Hm|].
  rewrite fmap_app. apply NoDup_app. split; [exact Hm|]. split.
  - intros k Hk Hk'. simpl in Hk'. apply list_elem_of_singleton in Hk'.
    subst k. apply mapHas_elem in Hk. congruence.
  - simpl. apply NoDup_singleton.
Qed.

Lemma uniqueOrders_keeps (data : list ParsedOrder) :
  forall (m : list (string * number)) (entry : string * number),
  entry ∈ m -> entry ∈ fold_left uniqueOrdersStep data m.
Proof.
  induction data as [|o data IH]; intros m entry H; simpl; [exact H|].
  apply IH. unfold uniqueOrdersStep.
  destruct (mapHas (orderId o) m); [exact H|].
  apply elem_of_app. now left.
Qed.

Lemma uniqueOrders_entry_from (data : list ParsedOrder) :
  (forall o1 o2, o1 ∈ data -> o2 ∈ data -> orderId o1 = orderId o2 ->
                 orderTotalAmount o1 = orderTotalAmount o2) ->
  forall (m : list (string * number)) (o : ParsedOrder),
  o ∈ data ->
  mapHas (orderId o) m = false ->
  (orderId o, orderTotalAmount o) ∈ fold_left uniqueOrdersStep data m.
Proof.
  induction data as [|x data IH]; intros Hsame m o Ho Hm.
  - now apply elem_of_nil in Ho.
  - simpl.
    assert (Hsame' : forall o1 o2, o1 ∈ data -> o2 ∈ data ->
                       orderId o1 = orderId o2 ->
                       orderTotalAmount o1 = orderTotalAmount o2).
    { intros o1 o2 H1 H2. apply Hsame; now apply list_elem_of_further. }
    destruct (String.eqb_spec (orderId o) (orderId x)) as [Heq | Hne].
    + assert (Ht : orderTotalAmount o = orderTotalAmount x).
      { apply Hsame; [exact Ho | apply list_elem_of_here | exact Heq]. }
      apply uniqueOrders_keeps. unfold uniqueOrdersStep.
      rewrite <- Heq, Hm, <- Ht. apply elem_of_app. right.
      apply list_elem_of_here.
    + apply elem_of_cons in Ho as [-> | Ho]; [congruence|].
      apply (IH Hsame' _ o Ho). unfold uniqueOrdersStep.
      destruct (mapHas (orderId x) m); [exact Hm|].
      rewrite mapHas_app, Hm. simpl.
      destruct (String.eqb_spec (orderId x) (orderId o)); [congruence|].
      reflexivity.
Qed.

(** X16.  Total revenue takes one amount per order id: the keys of
    [uniqueOrders] are the order ids of the records, each once; a further
    record of an order already seen leaves the total unchanged, a record
    of a new order adds its order total; and on the parser's output the
    amount kept for an order is the order total shown on every record of
    that order. *)
Theorem revenue_counts_each_order_once :
  (forall data : list ParsedOrder,
      NoDup (fst <$> uniqueOrders data)
      /\ forall key : string,
           key ∈ (fst <$> uniqueOrders data) <-> key ∈ (orderId <$> data))
  /\ (forall (data : list ParsedOrder) (o : ParsedOrder),
        orderId o ∈ (orderId <$> data) ->
        totalRevenue (data ++ [o]) = totalRevenue data)
  /\ (forall (data : list ParsedOrder) (o : ParsedOrder),
        orderId o ∉ (orderId <$> data) ->
        totalRevenue (data ++ [o])
        = Number.add (totalRevenue data) (orderTotalAmount o))
  /\ (forall (csvText : string) (filterCity : option City)
             (data : list ParsedOrder) (o : ParsedOrder),
        parseCSVData csvText filterCity = inr data ->
        o ∈ data ->
        (orderId o, orderTotalAmount o) ∈ uniqueOrders data).
Proof.
  assert (Hkeys : forall data key,
             key ∈ (fst <$> uniqueOrders data) <-> key ∈ (orderId <$> data)).
  { intros data key. unfold uniqueOrders.
    rewrite uniqueOrders_keys_from. simpl. rewrite elem_of_nil. tauto. }
  split; [|split; [|split]].
  - intros data. split; [|apply Hkeys].
    apply uniqueOrders_NoDup_from. constructor.
  - intros data o Hseen. unfold totalRevenue.
    rewrite uniqueOrders_snoc. unfold uniqueOrdersStep.
    apply Hkeys, mapHas_elem in Hseen. now rewrite Hseen.
  - intros data o Hnew. unfold totalRevenue.
    rewrite uniqueOrders_snoc. unfold uniqueOrdersStep.
    destruct (mapHas (orderId o) (uniqueOrders data)) eqn:E.
    + apply mapHas_elem, Hkeys in E. contradiction.
    + rewrite fmap_app, fold_left_app. reflexivity.
  - intros csvText filterCity data o Hparse Ho. unfold uniqueOrders.
    apply uniqueOrders_entry_from; [|exact Ho | reflexivity].
    intros o1 o2 H1 H2 Hid.
    now destruct (parseCSVData_same_order _ _ _ o1 o2 Hparse H1 H2 Hid)
      as (_ & _ & Ht & _).
Qed.

Lemma revenue_counts_each_order_once_witness :
  totalRevenue ([splitRecordA] ++ [splitRecordB]) = totalRevenue [splitRecordA].
Proof.
  destruct revenue_counts_each_order_once as (_ & Hseen & _).
  apply (Hseen [splitRecordA] splitRecordB).
  apply list_elem_of_here.
Defined.

(** ** Total tickets *)

Lemma fold_add_has_NaN {A : Type} (f : A -> number) (items : list A) :
  (exists o, o ∈ items /\ f o = NaN) ->
  forall acc : number,
  fold_left (fun acc o => Number.add acc (f o)) items acc = NaN.
Proof.
  induction items as [|x items IH]; intros (o & Ho & Hn) acc.
  - now apply elem_of_nil in Ho.
  - simpl. apply elem_of_cons in Ho as [-> | Ho].
    + rewrite Hn. destruct acc; simpl; apply fold_add_NaN.
    + apply IH. now exists o.
Qed.

Lemma parseInt_white (v : string) :
  Str.all Char.isWhite v = true -> Number.parseInt v = NaN.
Proof.
  intros H. unfold Number.parseInt.
  now rewrite trimStart_all_white.
Qed.

(** X17.  An empty or missing quantity cell reads as zero, but a non-empty
    quantity cell made of white space only reads as [NaN]; and a single
    record with a [NaN] quantity makes the total of tickets [NaN]. *)
Theorem blank_quantity_poisons_total :
  (forall (values : list string) (i : nat),
      values !! i = None \/ values !! i = Some EmptyString ->
      count values i = Num 0)
  /\ (forall (values : list string) (i : nat) (v : string),
        values !! i = Some v ->
        v <> EmptyString ->
        Str.all Char.isWhite v = true ->
        count values i = NaN)
  /\ (forall (data : list ParsedOrder) (o : ParsedOrder),
        o ∈ data -> quantity o = NaN -> totalQuantity data = NaN).
Proof.
  split; [|split].
  - intros values i [H | H]; unfold count; rewrite H; reflexivity.
  - intros values i v Hv Hne Hw. unfold count. rewrite Hv. simpl.
    apply isEmpty_false in Hne. unfold Str.orElse. rewrite Hne.
    now apply parseInt_white.
  - intros data o Ho Hn. unfold totalQuantity.
    apply fold_add_has_NaN. now exists o.
Qed.

Lemma blank_quantity_poisons_total_witness :
  count ["7"; " "] 1 = NaN.
Proof.
  destruct blank_quantity_poisons_total as (_ & Hwhite & _).
  apply (Hwhite ["7"; " "] 1 " "); [reflexivity | discriminate | reflexivity].
Defined.

(** ** Bounds on the allocation *)

(** Without tax the allocation does not round at all. *)
Lemma contribution_zero_tax (o : ParsedOrder) (l s t : Q) :
  lineItemSubtotal o = Num l ->
  orderSubTotal o = Num s ->
  orderTaxAmount o = Num t ->
  ord 200 l -> ord 200 s -> (0 < s)%Q -> (t == 0)%Q ->
  lineItemRevenueContribution o = F64.ofQ l.
Proof.
  intros El Es Et Hl Hs Hpos Ht0.
  unfold lineItemRevenueContribution. rewrite El, Es, Et.
  cbn [F64.ofNumber].
  assert (Et0 : F64.ofQ t = S754_zero false).
  { unfold F64.ofQ. destruct t as [n d]. unfold Qeq in Ht0.
    cbn [Qnum Qden] in *. rewrite Z.mul_1_r, Z.mul_0_l in Ht0. now rewrite Ht0. }
  rewrite Et0.
  destruct (read_rel 200 l ltac:(lia) Hl) as [RL HL].
  destruct (read_rel 200 s ltac:(lia) Hs) as [RS HS].
  pose proof (ord_nonneg _ _ Hl) as Hl0.
  destruct (ord_positive _ _ Hs Hpos) as [Hs1 Hs2].
  assert (HS0 : (0 < F64.toQ (F64.ofQ s))%Q).
  { destruct HS as [H _]. pose proof (shrink_pos 1).
    apply Qlt_le_trans with (s * shrink 1)%Q; [|exact H].
    apply Qmult_lt_0_compat; lra. }
  rewrite (ltb_zero_regular _ RS HS0).
  pose proof (ord_div 200 200 l s Hl Hs1 Hs2) as Hq.
  destruct (div_rel 1 1 400 _ _ l s RL RS HL HS Hl0 Hpos Hq ltac:(lia)
              (shrink_half_small 2 ltac:(lia))) as [RD _].
  assert (Em : F64.mul (F64.div (F64.ofQ l) (F64.ofQ s)) (S754_zero false)
               = S754_zero false).
  { destruct RD as [-> | (m & e & -> & _)]; reflexivity. }
  rewrite Em. destruct RL as [-> | (m & e & -> & _)]; reflexivity.
Qed.

(** X18.  For a line item of an order with a positive subtotal, whose
    amounts are ordinary and whose own subtotal is at most the order
    subtotal, the contribution computed in binary64 is a finite number
    between the line subtotal and the line subtotal plus the whole tax,
    up to a relative error of 6 * 2^-52 on either side; when the tax is
    zero it is the binary64 line subtotal itself, with no rounding. *)
Theorem contribution_bounds (o : ParsedOrder) (l s t : Q) :
  lineItemSubtotal o = Num l ->
  orderSubTotal o = Num s ->
  orderTaxAmount o = Num t ->
  ordinaryAmount (lineItemSubtotal o) = true ->
  ordinaryAmount (orderSubTotal o) = true ->
  ordinaryAmount (orderTaxAmount o) = true ->
  (0 < s)%Q -> (l <= s)%Q ->
  regular (lineItemRevenueContribution o)
  /\ (l * (1 - (6 # 4503599627370496))
      <= F64.toQ (lineItemRevenueContribution o)
      /\ F64.toQ (lineItemRevenueContribution o)
         <= (l + t) * (1 + (6 # 4503599627370496)))%Q
  /\ ((t == 0)%Q ->
      lineItemRevenueContribution o = F64.ofNumber (lineItemSubtotal o)).
Proof.
  intros El Es Et Hol Hos Hot Hpos Hle.
  assert (Hl : ord 200 l).
  { apply ordinaryAmount_ord in Hol as (q & E & H). rewrite El in E.
    now injection E as ->. }
  assert (Hs : ord 200 s).
  { apply ordinaryAmount_ord in Hos as (q & E & H). rewrite Es in E.
    now injection E as ->. }
  assert (Ht : ord 200 t).
  { apply ordinaryAmount_ord in Hot as (q & E & H). rewrite Et in E.
    now injection E as ->. }
  pose proof (ord_nonneg _ _ Hl) as Hl0.
  pose proof (ord_nonneg _ _ Ht) as Ht0.
  destruct (contribution_rel o l s t El Es Et Hl Hs Ht Hpos) as [Rc Hc].
  assert (Hratio0 : (0 <= l / s)%Q) by (apply Qle_shift_div_l; lra).
  assert (Hratio1 : (l / s <= 1)%Q) by (apply Qle_shift_div_r; lra).
  assert (Hshare0 : (0 <= l / s * t)%Q) by (now apply Qmult_le_0_compat).
  assert (Hshare1 : (l / s * t <= t)%Q).
  { rewrite <- (Qmult_1_l t) at 2. now apply Qmult_le_compat_r. }
  assert (H6 : (Z.of_nat 6 <= 2 ^ 33)%Z) by lia.
  assert (HV : (0 <= l + l / s * t)%Q) by lra.
  destruct (rel_tolerance 6 _ _ H6 HV Hc) as [Hlo Hhi].
  change (inject_Z (Z.of_nat 6) * (1 # 4503599627370496))%Q
    with (6 # 4503599627370496)%Q in Hlo, Hhi.
  split; [exact Rc|]. split; [split|].
  - apply Qle_trans
      with ((l + l / s * t) * (1 - (6 # 4503599627370496)))%Q; [|exact Hlo].
    apply Qmult_le_compat_r; [lra | discriminate].
  - apply Qle_trans
      with ((l + l / s * t) * (1 + (6 # 4503599627370496)))%Q; [exact Hhi|].
    apply Qmult_le_compat_r; [lra | discriminate].
  - intros Hz. rewrite El. cbn [F64.ofNumber].
    exact (contribution_zero_tax o l s t El Es Et Hl Hs Hpos Hz).
Qed.

Lemma contribution_bounds_witness :
  lineItemRevenueContribution splitRecordA = F64.ofQ 33
  /\ ((3000 # 100) * (1 - (6 # 4503599627370496))
      <= F64.toQ (lineItemRevenueContribution splitRecordA)
      /\ F64.toQ (lineItemRevenueContribution splitRecordA)
         <= ((3000 # 100) + (400 # 100)) * (1 + (6 # 4503599627370496)))%Q.
Proof.
  split; [vm_compute; reflexivity|].
  destruct (contribution_bounds splitRecordA (3000 # 100) (4000 # 100)
              (400 # 100) eq_refl eq_refl eq_refl eq_refl eq_refl eq_refl
              eq_refl)
    as (_ & Hb & _); [discriminate | exact Hb].
Defined.

(** ** The canonical name is trimmed and never longer *)

Lemma splitGo_nonempty (sep : string) (s : string) :
  forall (k : nat) (cur : string), Str.splitGo sep k cur s <> [].
Proof.
  induction s as [|c r IH]; intros k cur; [intros E; discriminate E|].
  destruct k as [|k]; [|exact (IH k cur)].
  rewrite splitGo_cons.
  destruct (Str.startsWith (String c r) sep);
    [intros E; discriminate E | apply IH].
Qed.

Lemma join_cons_nonempty (sep p : string) (rest : list string) :
  rest <> [] -> join sep (p :: rest) = p +:+ sep +:+ join sep rest.
Proof. destruct rest; [congruence | reflexivity]. Qed.

Lemma join_splitGo (x : ascii) (sep : string) (n : nat) :
  forall s cur : string,
  String.length s < n ->
  join (String x sep) (Str.splitGo (String x sep) 0 cur s) = cur +:+ s.
Proof.
  induction n as [|n IH]; intros s cur Hn; [lia|].
  destruct s as [|c r]; [simpl; now rewrite append_nil_r|].
  rewrite splitGo_cons.
  destruct (Str.startsWith (String c r) (String x sep)) eqn:E.
  - apply startsWith_inv in E as [s' Hs'].
    rewrite append_cons in Hs'. injection Hs' as -> ->.
    replace (String.length (String x sep) - 1) with (String.length sep)
      by (simpl; lia).
    rewrite splitGo_skip.
    rewrite join_cons_nonempty by apply splitGo_nonempty.
    rewrite IH.
    + now rewrite append_nil_l, append_cons.
    + simpl in Hn. rewrite append_length in Hn. lia.
  - rewrite IH by (simpl in Hn; lia). now rewrite append_snoc_cons.
Qed.

Lemma join_split (x : ascii) (sep s : string) :
  join (String x sep) (Str.split (String x sep) s) = s.
Proof.
  unfold Str.split.
  now rewrite (join_splitGo x sep (S (String.length s)) s EmptyString
                 (Nat.lt_succ_diag_r _)).
Qed.

Lemma trimStart_length (s : string) :
  String.length (Str.trimStart s) <= String.length s.
Proof.
  induction s as [|c r IH]; simpl; [lia|].
  destruct (Char.isWhite c); simpl; lia.
Qed.

Lemma trim_length (s : string) :
  String.length (Str.trim s) <= String.length s.
Proof.
  unfold Str.trim. pose proof (trimEnd_length (Str.trimStart s)).
  pose proof (trimStart_length s). lia.
Qed.

Lemma stripAnnotation_length (s : string) :
  String.length (stripAnnotation s) <= String.length s.
Proof.
  destruct (stripAnnotation_removes s) as (t & Hs & _).
  rewrite Hs at 2. rewrite append_length. lia.
Qed.

(** X19.  The parts the canonicalizer works on, joined by the separator, give
    back the name it split; its result has no white space at either
    end and is never longer than the raw name. *)
Theorem cleanClassName_shrinks (s : string) :
  join dashSep (Str.split dashSep (stripAnnotation s)) = stripAnnotation s
  /\ Str.trim (cleanClassName s) = cleanClassName s
  /\ String.length (cleanClassName s) <= String.length s.
Proof.
  assert (Hjoin : join dashSep (Str.split dashSep (stripAnnotation s))
                  = stripAnnotation s) by apply join_split.
  split; [exact Hjoin|]. split; [apply cleanClassName_trimmed|].
  pose proof (stripAnnotation_length s) as Hstrip.
  pose proof (trim_length (stripAnnotation s)) as Htrim.
  rewrite cleanClassName_unfold.
  destruct (Str.split dashSep (stripAnnotation s))
    as [|p0 [|p1 [|p2 [|p3 [|p4 rest]]]]]; try lia.
  - apply (f_equal String.length) in Hjoin. simpl join in Hjoin.
    rewrite !append_length in Hjoin.
    destruct (eqIgnoreCase (Str.trim p0) (Str.trim p1)); [|lia].
    pose proof (trim_length (Str.trim p0)). pose proof (trim_length p0). lia.
  - apply (f_equal String.length) in Hjoin. simpl join in Hjoin.
    rewrite !append_length in Hjoin.
    destruct (eqIgnoreCase (Str.trim p0 +:+ dashSep +:+ Str.trim p1)
                (Str.trim p2 +:+ dashSep +:+ Str.trim p3)); [|lia].
    pose proof (trim_length (Str.trim p0 +:+ dashSep +:+ Str.trim p1)) as H.
    rewrite !append_length in H.
    pose proof (trim_length p0). pose proof (trim_length p1). lia.
Qed.

(** ** Lines that are certain to be emitted *)

Lemma qualifiesFor_valid (ix : ColumnIndices) (targetSource : option string)
  (dataLines : list string) (line : string) :
  line ∈ dataLines ->
  qualifies ix targetSource (parseCSVLine line) = true ->
  rowOrderId ix (parseCSVLine line)
  ∈ validOrderIds (pass1 ix targetSource dataLines).
Proof.
  intros Hin Hq. apply pass1_valid_iff. exists line. split; [exact Hin|].
  unfold qualifiesFor. now rewrite Hq, String.eqb_refl.
Qed.

(** X20.  A data line that qualifies by itself and has a class name, a customer
    name and an email is emitted, with its own customer fields and the
    snapshot of its order. *)
Theorem qualifying_line_emitted (ix : ColumnIndices)
  (targetSource : option string) (dataLines : list string) (line : string) :
  let values := parseCSVLine line in
  line ∈ dataLines ->
  qualifies ix targetSource values = true ->
  cell values (iClassName ix) <> EmptyString ->
  cell values (iCustomerName ix) <> EmptyString ->
  cell values (iCustomerEmail ix) <> EmptyString ->
  exists (o : ParsedOrder) (snap : OrderSnapshot),
    pass2Row ix (pass1 ix targetSource dataLines) dataLines line = Some o
    /\ o ∈ pass2 ix (pass1 ix targetSource dataLines) dataLines
    /\ firstQualifying ix targetSource (rowOrderId ix values) dataLines
       = Some snap
    /\ o = recordOf ix values snap (ownIdentity ix values).
Proof.
  intros values Hin Hq Hcls Hname Hemail.
  pose proof (qualifiesFor_valid _ _ _ _ Hin Hq) as Hvalid.
  destruct (proj1 (pass1_valid_has_snapshot _ _ _ _) Hvalid) as [snap Hsnap].
  apply qualifies_iff in Hq as (Hshort & Hid & _).
  assert (Hwho : resolveIdentity ix dataLines (rowOrderId ix values) values
                 = ownIdentity ix values).
  { unfold resolveIdentity. simpl.
    apply isEmpty_false in Hname, Hemail. now rewrite Hname, Hemail. }
  assert (Hrow : pass2Row ix (pass1 ix targetSource dataLines) dataLines line
                 = Some (recordOf ix values snap (ownIdentity ix values))).
  { rewrite <- Hwho. apply pass2Row_intro; try assumption;
      fold values; rewrite Hwho; assumption. }
  exists (recordOf ix values snap (ownIdentity ix values)), snap.
  split; [exact Hrow|]. split; [apply pass2_elem; now exists line|].
  split; [now rewrite <- pass1_totals_first | reflexivity].
Qed.

Lemma qualifying_line_emitted_witness :
  exists (o : ParsedOrder) (snap : OrderSnapshot),
    pass2Row sampleIndices (pass1 sampleIndices (Some labelDC) [rowDC])
      [rowDC] rowDC = Some o
    /\ o ∈ pass2 sampleIndices (pass1 sampleIndices (Some labelDC) [rowDC])
             [rowDC]
    /\ firstQualifying sampleIndices (Some labelDC)
         (rowOrderId sampleIndices (parseCSVLine rowDC)) [rowDC] = Some snap
    /\ o = recordOf sampleIndices (parseCSVLine rowDC) snap
             (ownIdentity sampleIndices (parseCSVLine rowDC)).
Proof.
  apply (qualifying_line_emitted sampleIndices (Some labelDC) [rowDC] rowDC).
  - apply list_elem_of_here.
  - reflexivity.
  - discriminate.
  - discriminate.
  - discriminate.
Defined.

(** X21.  A continuation row (long enough, with a class name but no customer
    name) of an order that some line qualifies is emitted with the
    customer name, email, phone, status, date and time of the first line
    of that order that has a customer name, provided that line also has
    an email. *)
Theorem continuation_row_filled (ix : ColumnIndices)
  (targetSource : option string) (dataLines : list string)
  (line primary : string) :
  let values := parseCSVLine line in
  let main := parseCSVLine primary in
  isShort ix values = false ->
  rowOrderId ix values ∈ validOrderIds (pass1 ix targetSource dataLines) ->
  cell values (iClassName ix) <> EmptyString ->
  cell values (iCustomerName ix) = EmptyString ->
  List.find (isMainRowFor ix (rowOrderId ix values)) dataLines
  = Some primary ->
  cell main (iCustomerEmail ix) <> EmptyString ->
  exists o : ParsedOrder,
    pass2Row ix (pass1 ix targetSource dataLines) dataLines line = Some o
    /\ customerName o = cell main (iCustomerName ix)
    /\ customerEmail o = cell main (iCustomerEmail ix)
    /\ customerPhone o = cell main (iCustomerPhone ix)
    /\ status o = cell main (iStatus ix)
    /\ orderDate o = cell main (iOrderDate ix)
    /\ orderTime o = cell main (iOrderTime ix).
Proof.
  intros values main Hshort Hvalid Hcls Hblank Hfind Hemail.
  destruct (proj1 (pass1_valid_has_snapshot _ _ _ _) Hvalid) as [snap Hsnap].
  assert (Hid : rowOrderId ix values <> EmptyString).
  { apply pass1_valid_iff in Hvalid as (l & _ & Hq).
    unfold qualifiesFor in Hq. apply andb_prop in Hq as [Hq Heq].
    apply String.eqb_eq in Heq. apply qualifies_iff in Hq as (_ & Hne & _).
    congruence. }
  assert (Hmain : cell main (iCustomerName ix) <> EmptyString).
  { apply find_some in Hfind as [_ Hm]. unfold isMainRowFor in Hm.
    apply andb_prop in Hm as [_ Hm]. apply andb_prop in Hm as [_ Hm].
    now apply negb_true_iff, isEmpty_false in Hm. }
  assert (Hwho : resolveIdentity ix dataLines (rowOrderId ix values) values
                 = {| idName := cell main (iCustomerName ix);
                      idEmail := cell main (iCustomerEmail ix);
                      idPhone := cell main (iCustomerPhone ix);
                      idStatus := cell main (iStatus ix);
                      idDate := cell main (iOrderDate ix);
                      idTime := cell main (iOrderTime ix) |}).
  { unfold resolveIdentity. simpl. rewrite Hblank. simpl.
    rewrite findMainRow_find, Hfind. simpl. fold main.
    apply isEmpty_false in Hemail. unfold Str.orElse. now rewrite Hemail. }
  eexists. split.
  - apply (pass2Row_intro ix _ dataLines line snap); try assumption;
      fold values; rewrite Hwho; assumption.
  - fold values. rewrite Hwho. simpl. repeat split.
Qed.

Lemma continuation_row_filled_witness :
  exists o : ParsedOrder,
    pass2Row sampleIndices
      (pass1 sampleIndices (Some labelDC) [rowSplitA; rowSplitB])
      [rowSplitA; rowSplitB] rowSplitB = Some o
    /\ customerName o = "Cy"
    /\ customerEmail o = "c@x.org".
Proof.
  destruct (continuation_row_filled sampleIndices (Some labelDC)
              [rowSplitA; rowSplitB] rowSplitB rowSplitA)
    as (o & Ho & Hn & He & _).
  - reflexivity.
  - vm_compute. reflexivity.
  - discriminate.
  - reflexivity.
  - reflexivity.
  - discriminate.
  - exists o. split; [exact Ho|]. split; [exact Hn | exact He].
Defined.
(** ** Schema resolution and row-level anomalies *)

Lemma omap_length_bound {A B : Type} (f : A -> option B) (l : list A) :
  length (omap f l) <= length l.
Proof.
  induction l as [|x l IH]; [reflexivity|].
  cbn [omap list_omap]. destruct (f x); simpl; lia.
Qed.

(** C6, as stated, fails.  The header below lacks several required
    labels, among them Customer email and Status: the parse fails with the
    error that names Customer email, the first of them, and not Status.
    And a row whose quantity cell is a space is not skipped: it is emitted
    with a quantity that is not a number. *)
Lemma error_names_first_label_only :
  ("Status" ∈ requiredLabels
   /\ (forall h, h ∈ headersOf "Internal order id,Customer name" ->
         headerMatches "Status" h = false)
   /\ parseCSVData "Internal order id,Customer name" None
      = inl (ColumnNotFound "Customer email")
   /\ ColumnNotFound "Customer email" <> ColumnNotFound "Status")
  /\ (exists o : ParsedOrder,
        parseCSVData (csvOf [rowBlankQuantity]) (Some dc) = inr [o]
        /\ orderId o = "9"
        /\ quantity o = NaN).
Proof.
  split; [split; [|split; [|split]]|].
  - unfold requiredLabels. do 4 apply list_elem_of_further.
    apply list_elem_of_here.
  - intros h Hh. vm_compute in Hh.
    repeat (apply elem_of_cons in Hh as [-> | Hh]; [reflexivity|]).
    now apply elem_of_nil in Hh.
  - vm_compute. reflexivity.
  - discriminate.
  - eexists. split; [vm_compute; reflexivity|]. split; reflexivity.
Qed.

(** C6, amended.  A column position is the first header field whose
    lower-cased text contains the lower-cased label as a substring; every
    field of the resolved schema is obtained this way.  When some required
    label has no matching header field the parse fails with the error that
    names the first such label in resolution order (that very label when
    it is the only one without a match), whatever the data lines are; and
    the parse returns an error in no other case.  When the header
    resolves, the parse succeeds whatever the data lines are, every record
    comes from a data line, and a data line yields no record exactly when
    it has too few cells, a blank order id, an order id that did not
    qualify, a blank class name, or a customer name or email that is still
    blank after the fallback: no other test is made on a row. *)
Theorem schema_resolution_fails_fast :
  (forall (headers : list string) (label : string) (i : nat),
      getColumnIndex headers label = inr i <->
      (exists h, headers !! i = Some h
         /\ Str.includes (Str.toLowerCase h) (Str.toLowerCase label) = true)
      /\ (forall j h, j < i -> headers !! j = Some h ->
            Str.includes (Str.toLowerCase h) (Str.toLowerCase label) = false))
  /\ (forall s sub : string,
        Str.includes s sub = true <-> exists a b, s = a +:+ sub +:+ b)
  /\ (forall (headers : list string) (ix : ColumnIndices),
        resolveIndices headers = inr ix ->
        map (getColumnIndex headers) requiredLabels = map inr (indexValues ix))
  /\ (forall (csvText : string) (filterCity : option City) (label : string),
        label ∈ requiredLabels ->
        (forall h, h ∈ headersOf csvText -> headerMatches label h = false) ->
        exists l,
          firstMissing (headersOf csvText) = Some l
          /\ (forall h, h ∈ headersOf csvText -> headerMatches l h = false)
          /\ parseCSVData csvText filterCity = inl (ColumnNotFound l))
  /\ (forall (csvText : string) (filterCity : option City) (label : string),
        label ∈ requiredLabels ->
        (forall h, h ∈ headersOf csvText -> headerMatches label h = false) ->
        (forall l, l ∈ requiredLabels -> l <> label ->
           exists h, h ∈ headersOf csvText /\ headerMatches l h = true) ->
        parseCSVData csvText filterCity = inl (ColumnNotFound label))
  /\ (forall (csvText : string) (filterCity : option City) (e : ParseError),
        parseCSVData csvText filterCity = inl e <->
        exists l, firstMissing (headersOf csvText) = Some l
                  /\ e = ColumnNotFound l)
  /\ (forall (csvText csvText' : string) (filterCity filterCity' : option City)
             (e : ParseError),
        parseCSVData csvText filterCity = inl e ->
        headersOf csvText' = headersOf csvText ->
        parseCSVData csvText' filterCity' = inl e)
  /\ (forall (csvText : string) (filterCity : option City)
             (ix : ColumnIndices),
        resolveIndices (headersOf csvText) = inr ix ->
        exists orders : list ParsedOrder,
          parseCSVData csvText filterCity = inr orders
          /\ length orders <= length (dataLinesOf csvText)
          /\ forall o : ParsedOrder, o ∈ orders ->
               exists line : string,
                 line ∈ dataLinesOf csvText
                 /\ pass2Row ix
                      (pass1 ix (targetSourceOf filterCity)
                         (dataLinesOf csvText))
                      (dataLinesOf csvText) line = Some o)
  /\ (forall (ix : ColumnIndices) (targetSource : option string)
             (dataLines : list string) (line : string),
        let st := pass1 ix targetSource dataLines in
        let values := parseCSVLine line in
        let orderId := cell values (iOrderId ix) in
        let who := resolveIdentity ix dataLines orderId values in
        pass2Row ix st dataLines line = None <->
        isShort ix values = true
        \/ orderId = EmptyString
        \/ orderId ∉ validOrderIds st
        \/ cell values (iClassName ix) = EmptyString
        \/ idName who = EmptyString
        \/ idEmail who = EmptyString).
Proof.
  assert (Herr : forall csvText filterCity e,
             parseCSVData csvText filterCity = inl e <->
             resolveIndices (headersOf csvText) = inl e).
  { intros csvText filterCity e. rewrite parseCSVData_unfold.
    destruct (resolveIndices (headersOf csvText)); split; congruence. }
  split; [|split; [|split; [|split; [|split; [|split; [|split; [|split]]]]]]].
  - intros headers label i. unfold getColumnIndex.
    rewrite <- (findIndex_Some (headerMatches label) headers i).
    destruct (findIndex (headerMatches label) headers); split; congruence.
  - apply includes_substring.
  - intros headers ix Hix.
    pose proof (resolveIndices_outcome headers) as H.
    destruct (firstMissing headers) as [label|]; [congruence|].
    destruct H as (ix' & Hix' & H). rewrite Hix in Hix'. injection Hix' as <-.
    unfold requiredLabels, indexValues. simpl.
    destruct H as (-> & -> & -> & -> & -> & -> & -> & -> & -> & -> & ->
                   & -> & -> & -> & ->).
    reflexivity.
  - intros csvText filterCity label Hin Hm.
    destruct (firstMissing_exists _ _ Hin Hm) as [l Hl]. exists l.
    split; [exact Hl|]. split; [now apply firstMissing_Some|].
    apply Herr, resolveIndices_error. now exists l.
  - intros csvText filterCity label Hin Hm Hothers.
    destruct (firstMissing_exists _ _ Hin Hm) as [l Hl].
    apply Herr, resolveIndices_error. exists l. split; [exact Hl|].
    destruct (String.eqb_spec l label) as [-> | Hne]; [reflexivity|].
    apply firstMissing_Some in Hl as [Hl Hmiss].
    destruct (Hothers l Hl Hne) as (h & Hh & Hmatch).
    rewrite (Hmiss h Hh) in Hmatch. discriminate.
  - intros csvText filterCity e. rewrite Herr. apply resolveIndices_error.
  - intros csvText csvText' filterCity filterCity' e H Hh.
    apply Herr. rewrite Hh. now apply Herr in H.
  - intros csvText filterCity ix Hix. eexists. split; [|split].
    + rewrite parseCSVData_unfold, Hix. reflexivity.
    + unfold pass2. apply omap_length_bound.
    + intros o Ho. unfold pass2 in Ho.
      apply list_elem_of_omap in Ho as (line & Hin & Hrow). now exists line.
  - intros ix targetSource dataLines line st values orderId who. split.
    + intros Hnone.
      destruct (isShort ix values) eqn:Hshort; [now left|].
      destruct (decide (orderId = EmptyString)) as [Hid | Hid];
        [now right; left|].
      destruct (decide (orderId ∈ validOrderIds st)) as [Hv | Hv];
        [|now right; right; left].
      destruct (decide (cell values (iClassName ix) = EmptyString))
        as [Hc | Hc]; [now right; right; right; left|].
      destruct (decide (idName who = EmptyString)) as [Hn | Hn];
        [now right; right; right; right; left|].
      destruct (decide (idEmail who = EmptyString)) as [He | He];
        [now right; right; right; right; right|].
      exfalso.
      assert (Hsome : is_Some (pass2Row ix st dataLines line)).
      { apply pass2Row_is_Some. split; [|exact Hv].
        unfold emittable, rowOrderId. fold values orderId who.
        repeat split; assumption. }
      rewrite Hnone in Hsome. now destruct Hsome.
    + intros H.
      destruct (pass2Row ix st dataLines line) as [o|] eqn:Hrow;
        [|reflexivity].
      apply pass2Row_Some in Hrow as (H1 & H2 & H3 & H4 & H5 & H6 & _).
      unfold rowOrderId in *.
      fold values orderId who in H1, H2, H3, H4, H5, H6.
      destruct H as [H | [H | [H | [H | [H | H]]]]]; congruence.
Qed.

Lemma schema_resolution_fails_fast_witness :
  parseCSVData "Internal order id,Customer name" None
  = inl (ColumnNotFound "Customer email")
  /\ getColumnIndex (headersOf sampleHeader) "status" = inr 4
  /\ pass2Row sampleIndices
       (pass1 sampleIndices (targetSourceOf (Some dc)) [rowShort; rowNameOnly])
       [rowShort; rowNameOnly] rowShort = None
  /\ pass2Row sampleIndices
       (pass1 sampleIndices (targetSourceOf (Some dc)) [rowShort; rowNameOnly])
       [rowShort; rowNameOnly] rowNameOnly = None.
Proof.
  destruct schema_resolution_fails_fast
    as (Hcol & _ & _ & _ & _ & Herr & _ & _ & Hskip).
  split; [|split; [|split]].
  - apply (Herr "Internal order id,Customer name" None).
    exists "Customer email". split; reflexivity.
  - apply (Hcol (headersOf sampleHeader) "status" 4). split.
    + exists "Status". split; reflexivity.
    + intros j h Hj Hh.
      destruct j as [|[|[|[|j]]]]; [| | | |lia];
        vm_compute in Hh; injection Hh as <-; reflexivity.
  - apply (Hskip sampleIndices (targetSourceOf (Some dc))).
    left. vm_compute. reflexivity.
  - apply (Hskip sampleIndices (targetSourceOf (Some dc))).
    do 5 right. vm_compute. reflexivity.
Defined.
